(** * keycloak-ts: the client of [src/client.ts]

    A shallow embedding of the [KeycloakClient] class: the token lifecycle
    ([setToken], [clearToken], [isTokenExpired]), the single-flight refresh
    ([updateToken], [runUpdateToken]), callback handling ([parseCallbackUrl],
    [parseCallback], [processCallback], [authSuccess]) and [createLoginUrl].

    Conventions.
    - An optional property ([token?: string]) is an [option]; [delete this.x]
      and an assignment of [undefined] both give [None].
    - A JavaScript number is a [num]: NaN, the two infinities, or a finite
      value held as an exact rational.  Rounding of finite values is not
      modelled; the special values follow IEEE 754 as JavaScript applies it.
    - The client is the one that exists after a successful [init]: the
      adapter, the callback storage, the endpoints and the client id are
      present, which is what the source's [!] assertions rely on.
    - Methods run in a state-and-exception monad over a [World]: the client
      object, the effects observed so far (handler calls, timers, adapter
      calls, settled deferreds) and the suspended [await]s.
    - [logInfo]/[logWarn] only write to the console and are left out. *)

From Stdlib Require Import QArith Qround Lqa ZArith Lia Bool List.
From Stdlib Require Import Strings.String Strings.Ascii.
From stdpp Require Import gmap strings list fin_maps.

Local Close Scope Q_scope.
Local Open Scope string_scope.

(** ** JavaScript values *)

(** ToBoolean, as used by [if (x)], [!x], [a && b] and [a || b]. *)
Class Truthy (A : Type) := truthy : A -> bool.

Module JsNum.

Inductive num : Type :=
| NaN
| PInf
| NInf
| Fin (q : Q).

Definition of_Z (z : Z) : num := Fin (inject_Z z).

Definition Qltb (x y : Q) : bool := negb (Qle_bool y x).

Definition isNaN (n : num) : bool :=
  match n with NaN => true | _ => false end.

Definition neg (n : num) : num :=
  match n with
  | NaN => NaN
  | PInf => NInf
  | NInf => PInf
  | Fin q => Fin (- q)
  end.

Definition add (a b : num) : num :=
  match a, b with
  | NaN, _ | _, NaN => NaN
  | PInf, NInf | NInf, PInf => NaN
  | PInf, _ | _, PInf => PInf
  | NInf, _ | _, NInf => NInf
  | Fin x, Fin y => Fin (x + y)
  end.

Definition sub (a b : num) : num := add a (neg b).

(** [a * k] and [a / k] for a literal [k > 0] ([/ 1000], [/ 2], [* 1000]). *)
Definition scale (k : Q) (a : num) : num :=
  match a with
  | Fin x => Fin (x * k)
  | other => other
  end.

Definition floor (a : num) : num :=
  match a with
  | Fin x => of_Z (Qfloor x)
  | other => other
  end.

Definition ceil (a : num) : num :=
  match a with
  | Fin x => of_Z (Qceiling x)
  | other => other
  end.

(** [a < b] *)
Definition lt (a b : num) : bool :=
  match a, b with
  | NaN, _ | _, NaN => false
  | _, NInf => false
  | PInf, _ => false
  | NInf, _ => true
  | _, PInf => true
  | Fin x, Fin y => Qltb x y
  end.

(** [a <= b] *)
Definition le (a b : num) : bool :=
  match a, b with
  | NaN, _ | _, NaN => false
  | NInf, _ => true
  | _, PInf => true
  | _, NInf => false
  | PInf, _ => false
  | Fin x, Fin y => Qle_bool x y
  end.

(** [a >= b] *)
Definition ge (a b : num) : bool := le b a.

(** [a === b] *)
Definition eqb (a b : num) : bool :=
  match a, b with
  | PInf, PInf | NInf, NInf => true
  | Fin x, Fin y => Qeq_bool x y
  | _, _ => false
  end.

Definition isFinite (n : num) : bool :=
  match n with Fin _ => true | _ => false end.

#[export] Instance num_truthy : Truthy num := fun n =>
  match n with
  | NaN => false
  | Fin q => negb (Qeq_bool q 0)
  | _ => true
  end.

End JsNum.
Export JsNum.

(** The values an object property of the modelled code can hold. *)
Inductive JsVal : Type :=
| VUndef
| VBool (b : bool)
| VNum (n : num)
| VStr (s : string).

#[export] Instance string_truthy : Truthy string := fun s =>
  negb (String.eqb s "").

#[export] Instance bool_truthy : Truthy bool := fun b => b.

#[export] Instance JsVal_truthy : Truthy JsVal := fun v =>
  match v with
  | VUndef => false
  | VBool b => b
  | VNum n => truthy n
  | VStr s => truthy s
  end.

(** An optional property is truthy when it is present and its value is. *)
#[export] Instance option_truthy {A} `{Truthy A} : Truthy (option A) := fun o =>
  match o with
  | Some a => truthy a
  | None => false
  end.

(** [a ?? d] *)
Definition nullish {A} (o : option A) (d : A) : A :=
  match o with Some a => a | None => d end.

(** [a || undefined] on an optional string; also the value [a] has inside
    the true branch of [if (a)]. *)
Definition or_undefined (o : option string) : option string :=
  if truthy o then o else None.

(** [a === b] *)
Definition strict_eq (a b : JsVal) : bool :=
  match a, b with
  | VUndef, VUndef => true
  | VBool x, VBool y => Bool.eqb x y
  | VNum x, VNum y => JsNum.eqb x y
  | VStr x, VStr y => String.eqb x y
  | _, _ => false
  end.

Definition of_opt (o : option string) : JsVal :=
  match o with Some s => VStr s | None => VUndef end.

(** A string-typed value read as an optional string. *)
Definition as_string (v : JsVal) : option string :=
  match v with VStr s => Some s | _ => None end.

(** A [Map<string, string>]: its entries in insertion order.  [set] on a key
    that is present replaces the value and keeps the position. *)
Module JsMap.

Abbreviation t := (list (string * JsVal)).

Fixpoint set (key : string) (v : JsVal) (m : t) : t :=
  match m with
  | [] => [(key, v)]
  | (k, x) :: rest =>
      if String.eqb k key then (k, v) :: rest else (k, x) :: set key v rest
  end.

Fixpoint get (key : string) (m : t) : option JsVal :=
  match m with
  | [] => None
  | (k, x) :: rest => if String.eqb k key then Some x else get key rest
  end.

End JsMap.

(** ** Strings *)

Module JsString.

(** [s.indexOf(pat)]; [None] stands for -1. *)
Definition indexOf (pat s : string) : option nat := String.index 0 pat s.

(** [s.substring(a, b)]: the arguments are swapped when [a > b]. *)
Definition substring (a b : nat) (s : string) : string :=
  String.substring (Nat.min a b) (Nat.max a b - Nat.min a b) s.

(** [s.substring(a)] *)
Definition substring_from (a : nat) (s : string) : string :=
  String.substring a (String.length s - a) s.

(** [s.split(c)] for a one-character separator. *)
Fixpoint split_aux (c : ascii) (s acc : string) : list string :=
  match s with
  | EmptyString => [acc]
  | String a rest =>
      if Ascii.eqb a c then acc :: split_aux c rest ""
      else split_aux c rest (acc ++ String a "")
  end.

Definition split (c : ascii) (s : string) : list string := split_aux c s "".

End JsString.

Module JsArray.

(** [a.indexOf(x)] on an array of strings; [None] stands for -1. *)
Fixpoint indexOf (x : string) (a : list string) : option nat :=
  match a with
  | [] => None
  | y :: rest =>
      if String.eqb y x then Some 0
      else match indexOf x rest with
           | Some n => Some (S n)
           | None => None
           end
  end.

End JsArray.

(** ** Data model ([./types]) *)

Inductive KeycloakFlow := standard | implicit | hybrid.
Inductive KeycloakResponseMode := query | fragment.
Inductive KeycloakPkceMethod := S256.

#[export] Instance KeycloakFlow_eq_dec : EqDecision KeycloakFlow.
Proof. solve_decision. Defined.
#[export] Instance KeycloakResponseMode_eq_dec : EqDecision KeycloakResponseMode.
Proof. solve_decision. Defined.

Record KeycloakRoles := { roles : list string }.

Module TokenParsed.
(** Modelled from the spec: [KeycloakTokenParsed] of [./types] is not in
    [client.ts].  The claims are those of section 6 of the spec, which are
    the ones [client.ts] reads. *)
Record t := mk {
  exp : option num;
  iat : option num;
  nonce : option string;
  sub : option string;
  realm_access : option KeycloakRoles;
  resource_access : option (gmap string KeycloakRoles);
}.
End TokenParsed.

(** A claims object is truthy. *)
#[export] Instance TokenParsed_truthy : Truthy TokenParsed.t := fun _ => true.

Module CallbackState.
(** Modelled from the spec: [CallbackState] of [./types] is not in
    [client.ts].  It is the PendingRequest of section 3, with the properties
    [createLoginUrl] writes and [parseCallback] reads. *)
Record t := mk {
  state : string;
  nonce : string;
  pkceCodeVerifier : option string;
  prompt : option string;
  redirectUri : string;
}.
End CallbackState.

Module TokenResponse.
(** Modelled from the spec: the value [adapter.fetchTokens] and
    [adapter.refreshTokens] resolve with (section 6); its type is not in
    [client.ts]. *)
Record t := mk {
  access_token : option string;
  refresh_token : option string;
  id_token : option string;
  error : option string;
}.
End TokenResponse.

Record KeycloakEndpoints := {
  authorize : string;
  token_endpoint : string;  (* endpoints.token() *)
  logout_endpoint : string;
  register : string;
  userinfo : string;
}.

(** An [OAuthResponse] is a plain object: [parseCallbackParams] fills it by
    key, [parseCallback] and [processCallback] spread it. *)
Abbreviation OAuthResponse := (gmap string JsVal).

(** [oauth.key] *)
Definition prop (o : OAuthResponse) (key : string) : JsVal :=
  match o !! key with Some v => v | None => VUndef end.

(** A string-typed property read as an optional string. *)
Definition str_prop (o : OAuthResponse) (key : string) : option string :=
  as_string (prop o key).

(** The handle [setTimeout] returns: an object, so truthy. *)
Record Timeout := { delay : num }.

#[export] Instance Timeout_truthy : Truthy Timeout := fun _ => true.

(** Modelled from the spec: [Deferred] of [./utils/deferred] is not in
    [client.ts].  It is the RefreshWaiter of section 3: a completion handle
    known by its identity, resolved or rejected once; settling it is an
    observable effect. *)
Definition Deferred := nat.

(** What the code throws. *)
Inductive Exn : Type :=
| NotAuthenticated                 (* throw 'Not authenticated' *)
| InvalidMinValidity               (* throw 'Invalid minValidity' *)
| MalformedToken                   (* new Error('Invalid tokenParsed') *)
| NonceMismatch                    (* new Error('invalid nonce, token cleared') *)
| AuthorizationError (description : JsVal) (* new Error(oauth.error_description) *)
| ResponseError (error : string)   (* new Error(tokenResponse.error) *)
| TokenExchangeError (cause : Exn) (* new Error(err) in processCallback *)
| External (message : string).     (* raised by a collaborator *)

Inductive Result (A : Type) : Type :=
| Ok (a : A)
| Throw (e : Exn).
Arguments Ok {A} a.
Arguments Throw {A} e.

(** How a promise of a network call settles. *)
Abbreviation Settled := (Result TokenResponse.t).

Inductive Event : Type :=
| OnAuthSuccess
| OnAuthError (error : JsVal + Exn) (error_description : string)
| OnAuthRefreshSuccess
| OnAuthRefreshError
| OnAuthLogout
| OnTokenExpired
| OnActionUpdate (status : JsVal)
| ClearTimeout
| SetTimeout (delay : num)
| AdapterLogin
| AdapterRefreshTokens (url : string) (body : string)
| AdapterFetchTokens (url : string) (body : string)
| Resolve (d : Deferred) (value : bool)
| Reject (d : Deferred) (reason : JsVal).

(** The instance properties of [KeycloakClient] that the modelled methods
    read or write.  An event handler property holds whether a handler is set. *)
Record KeycloakClient := mkClient {
  authenticated : option bool;
  subject : option string;
  responseMode : option KeycloakResponseMode;
  responseType : option string;
  flow : option KeycloakFlow;
  realmAccess : option KeycloakRoles;
  resourceAccess : option (gmap string KeycloakRoles);
  token : option string;
  tokenParsed : option TokenParsed.t;
  refreshToken : option string;
  refreshTokenParsed : option TokenParsed.t;
  idToken : option string;
  idTokenParsed : option TokenParsed.t;
  timeSkew : option num;
  loginRequired : option bool;
  clientId : string;
  tokenTimeoutHandle : option Timeout;
  endpoints : KeycloakEndpoints;
  callbackStorage : gmap string CallbackState.t;
  refreshQueue : list Deferred;
  useNonce : option bool;
  pkceMethod : option KeycloakPkceMethod;
  onAuthSuccess : bool;
  onAuthError : bool;
  onAuthRefreshSuccess : bool;
  onAuthRefreshError : bool;
  onAuthLogout : bool;
  onTokenExpired : bool;
  onActionUpdate : bool;
}.

(** [this.x = v] for the properties the modelled methods assign. *)

Definition set_authenticated v (kc : KeycloakClient) : KeycloakClient :=
  {| authenticated := v; subject := subject kc;
     responseMode := responseMode kc; responseType := responseType kc;
     flow := flow kc; realmAccess := realmAccess kc;
     resourceAccess := resourceAccess kc; token := token kc;
     tokenParsed := tokenParsed kc; refreshToken := refreshToken kc;
     refreshTokenParsed := refreshTokenParsed kc; idToken := idToken kc;
     idTokenParsed := idTokenParsed kc; timeSkew := timeSkew kc;
     loginRequired := loginRequired kc; clientId := clientId kc;
     tokenTimeoutHandle := tokenTimeoutHandle kc; endpoints := endpoints kc;
     callbackStorage := callbackStorage kc; refreshQueue := refreshQueue kc;
     useNonce := useNonce kc; pkceMethod := pkceMethod kc;
     onAuthSuccess := onAuthSuccess kc; onAuthError := onAuthError kc;
     onAuthRefreshSuccess := onAuthRefreshSuccess kc;
     onAuthRefreshError := onAuthRefreshError kc;
     onAuthLogout := onAuthLogout kc; onTokenExpired := onTokenExpired kc;
     onActionUpdate := onActionUpdate kc |}.

Definition set_subject v (kc : KeycloakClient) : KeycloakClient :=
  {| authenticated := authenticated kc; subject := v;
     responseMode := responseMode kc; responseType := responseType kc;
     flow := flow kc; realmAccess := realmAccess kc;
     resourceAccess := resourceAccess kc; token := token kc;
     tokenParsed := tokenParsed kc; refreshToken := refreshToken kc;
     refreshTokenParsed := refreshTokenParsed kc; idToken := idToken kc;
     idTokenParsed := idTokenParsed kc; timeSkew := timeSkew kc;
     loginRequired := loginRequired kc; clientId := clientId kc;
     tokenTimeoutHandle := tokenTimeoutHandle kc; endpoints := endpoints kc;
     callbackStorage := callbackStorage kc; refreshQueue := refreshQueue kc;
     useNonce := useNonce kc; pkceMethod := pkceMethod kc;
     onAuthSuccess := onAuthSuccess kc; onAuthError := onAuthError kc;
     onAuthRefreshSuccess := onAuthRefreshSuccess kc;
     onAuthRefreshError := onAuthRefreshError kc;
     onAuthLogout := onAuthLogout kc; onTokenExpired := onTokenExpired kc;
     onActionUpdate := onActionUpdate kc |}.

Definition set_realmAccess v (kc : KeycloakClient) : KeycloakClient :=
  {| authenticated := authenticated kc; subject := subject kc;
     responseMode := responseMode kc; responseType := responseType kc;
     flow := flow kc; realmAccess := v; resourceAccess := resourceAccess kc;
     token := token kc; tokenParsed := tokenParsed kc;
     refreshToken := refreshToken kc;
     refreshTokenParsed := refreshTokenParsed kc; idToken := idToken kc;
     idTokenParsed := idTokenParsed kc; timeSkew := timeSkew kc;
     loginRequired := loginRequired kc; clientId := clientId kc;
     tokenTimeoutHandle := tokenTimeoutHandle kc; endpoints := endpoints kc;
     callbackStorage := callbackStorage kc; refreshQueue := refreshQueue kc;
     useNonce := useNonce kc; pkceMethod := pkceMethod kc;
     onAuthSuccess := onAuthSuccess kc; onAuthError := onAuthError kc;
     onAuthRefreshSuccess := onAuthRefreshSuccess kc;
     onAuthRefreshError := onAuthRefreshError kc;
     onAuthLogout := onAuthLogout kc; onTokenExpired := onTokenExpired kc;
     onActionUpdate := onActionUpdate kc |}.

Definition set_resourceAccess v (kc : KeycloakClient) : KeycloakClient :=
  {| authenticated := authenticated kc; subject := subject kc;
     responseMode := responseMode kc; responseType := responseType kc;
     flow := flow kc; realmAccess := realmAccess kc; resourceAccess := v;
     token := token kc; tokenParsed := tokenParsed kc;
     refreshToken := refreshToken kc;
     refreshTokenParsed := refreshTokenParsed kc; idToken := idToken kc;
     idTokenParsed := idTokenParsed kc; timeSkew := timeSkew kc;
     loginRequired := loginRequired kc; clientId := clientId kc;
     tokenTimeoutHandle := tokenTimeoutHandle kc; endpoints := endpoints kc;
     callbackStorage := callbackStorage kc; refreshQueue := refreshQueue kc;
     useNonce := useNonce kc; pkceMethod := pkceMethod kc;
     onAuthSuccess := onAuthSuccess kc; onAuthError := onAuthError kc;
     onAuthRefreshSuccess := onAuthRefreshSuccess kc;
     onAuthRefreshError := onAuthRefreshError kc;
     onAuthLogout := onAuthLogout kc; onTokenExpired := onTokenExpired kc;
     onActionUpdate := onActionUpdate kc |}.

Definition set_token v (kc : KeycloakClient) : KeycloakClient :=
  {| authenticated := authenticated kc; subject := subject kc;
     responseMode := responseMode kc; responseType := responseType kc;
     flow := flow kc; realmAccess := realmAccess kc;
     resourceAccess := resourceAccess kc; token := v;
     tokenParsed := tokenParsed kc; refreshToken := refreshToken kc;
     refreshTokenParsed := refreshTokenParsed kc; idToken := idToken kc;
     idTokenParsed := idTokenParsed kc; timeSkew := timeSkew kc;
     loginRequired := loginRequired kc; clientId := clientId kc;
     tokenTimeoutHandle := tokenTimeoutHandle kc; endpoints := endpoints kc;
     callbackStorage := callbackStorage kc; refreshQueue := refreshQueue kc;
     useNonce := useNonce kc; pkceMethod := pkceMethod kc;
     onAuthSuccess := onAuthSuccess kc; onAuthError := onAuthError kc;
     onAuthRefreshSuccess := onAuthRefreshSuccess kc;
     onAuthRefreshError := onAuthRefreshError kc;
     onAuthLogout := onAuthLogout kc; onTokenExpired := onTokenExpired kc;
     onActionUpdate := onActionUpdate kc |}.

Definition set_tokenParsed v (kc : KeycloakClient) : KeycloakClient :=
  {| authenticated := authenticated kc; subject := subject kc;
     responseMode := responseMode kc; responseType := responseType kc;
     flow := flow kc; realmAccess := realmAccess kc;
     resourceAccess := resourceAccess kc; token := token kc;
     tokenParsed := v; refreshToken := refreshToken kc;
     refreshTokenParsed := refreshTokenParsed kc; idToken := idToken kc;
     idTokenParsed := idTokenParsed kc; timeSkew := timeSkew kc;
     loginRequired := loginRequired kc; clientId := clientId kc;
     tokenTimeoutHandle := tokenTimeoutHandle kc; endpoints := endpoints kc;
     callbackStorage := callbackStorage kc; refreshQueue := refreshQueue kc;
     useNonce := useNonce kc; pkceMethod := pkceMethod kc;
     onAuthSuccess := onAuthSuccess kc; onAuthError := onAuthError kc;
     onAuthRefreshSuccess := onAuthRefreshSuccess kc;
     onAuthRefreshError := onAuthRefreshError kc;
     onAuthLogout := onAuthLogout kc; onTokenExpired := onTokenExpired kc;
     onActionUpdate := onActionUpdate kc |}.

Definition set_refreshToken v (kc : KeycloakClient) : KeycloakClient :=
  {| authenticated := authenticated kc; subject := subject kc;
     responseMode := responseMode kc; responseType := responseType kc;
     flow := flow kc; realmAccess := realmAccess kc;
     resourceAccess := resourceAccess kc; token := token kc;
     tokenParsed := tokenParsed kc; refreshToken := v;
     refreshTokenParsed := refreshTokenParsed kc; idToken := idToken kc;
     idTokenParsed := idTokenParsed kc; timeSkew := timeSkew kc;
     loginRequired := loginRequired kc; clientId := clientId kc;
     tokenTimeoutHandle := tokenTimeoutHandle kc; endpoints := endpoints kc;
     callbackStorage := callbackStorage kc; refreshQueue := refreshQueue kc;
     useNonce := useNonce kc; pkceMethod := pkceMethod kc;
     onAuthSuccess := onAuthSuccess kc; onAuthError := onAuthError kc;
     onAuthRefreshSuccess := onAuthRefreshSuccess kc;
     onAuthRefreshError := onAuthRefreshError kc;
     onAuthLogout := onAuthLogout kc; onTokenExpired := onTokenExpired kc;
     onActionUpdate := onActionUpdate kc |}.

Definition set_refreshTokenParsed v (kc : KeycloakClient) : KeycloakClient :=
  {| authenticated := authenticated kc; subject := subject kc;
     responseMode := responseMode kc; responseType := responseType kc;
     flow := flow kc; realmAccess := realmAccess kc;
     resourceAccess := resourceAccess kc; token := token kc;
     tokenParsed := tokenParsed kc; refreshToken := refreshToken kc;
     refreshTokenParsed := v; idToken := idToken kc;
     idTokenParsed := idTokenParsed kc; timeSkew := timeSkew kc;
     loginRequired := loginRequired kc; clientId := clientId kc;
     tokenTimeoutHandle := tokenTimeoutHandle kc; endpoints := endpoints kc;
     callbackStorage := callbackStorage kc; refreshQueue := refreshQueue kc;
     useNonce := useNonce kc; pkceMethod := pkceMethod kc;
     onAuthSuccess := onAuthSuccess kc; onAuthError := onAuthError kc;
     onAuthRefreshSuccess := onAuthRefreshSuccess kc;
     onAuthRefreshError := onAuthRefreshError kc;
     onAuthLogout := onAuthLogout kc; onTokenExpired := onTokenExpired kc;
     onActionUpdate := onActionUpdate kc |}.

Definition set_idToken v (kc : KeycloakClient) : KeycloakClient :=
  {| authenticated := authenticated kc; subject := subject kc;
     responseMode := responseMode kc; responseType := responseType kc;
     flow := flow kc; realmAccess := realmAccess kc;
     resourceAccess := resourceAccess kc; token := token kc;
     tokenParsed := tokenParsed kc; refreshToken := refreshToken kc;
     refreshTokenParsed := refreshTokenParsed kc; idToken := v;
     idTokenParsed := idTokenParsed kc; timeSkew := timeSkew kc;
     loginRequired := loginRequired kc; clientId := clientId kc;
     tokenTimeoutHandle := tokenTimeoutHandle kc; endpoints := endpoints kc;
     callbackStorage := callbackStorage kc; refreshQueue := refreshQueue kc;
     useNonce := useNonce kc; pkceMethod := pkceMethod kc;
     onAuthSuccess := onAuthSuccess kc; onAuthError := onAuthError kc;
     onAuthRefreshSuccess := onAuthRefreshSuccess kc;
     onAuthRefreshError := onAuthRefreshError kc;
     onAuthLogout := onAuthLogout kc; onTokenExpired := onTokenExpired kc;
     onActionUpdate := onActionUpdate kc |}.

Definition set_idTokenParsed v (kc : KeycloakClient) : KeycloakClient :=
  {| authenticated := authenticated kc; subject := subject kc;
     responseMode := responseMode kc; responseType := responseType kc;
     flow := flow kc; realmAccess := realmAccess kc;
     resourceAccess := resourceAccess kc; token := token kc;
     tokenParsed := tokenParsed kc; refreshToken := refreshToken kc;
     refreshTokenParsed := refreshTokenParsed kc; idToken := idToken kc;
     idTokenParsed := v; timeSkew := timeSkew kc;
     loginRequired := loginRequired kc; clientId := clientId kc;
     tokenTimeoutHandle := tokenTimeoutHandle kc; endpoints := endpoints kc;
     callbackStorage := callbackStorage kc; refreshQueue := refreshQueue kc;
     useNonce := useNonce kc; pkceMethod := pkceMethod kc;
     onAuthSuccess := onAuthSuccess kc; onAuthError := onAuthError kc;
     onAuthRefreshSuccess := onAuthRefreshSuccess kc;
     onAuthRefreshError := onAuthRefreshError kc;
     onAuthLogout := onAuthLogout kc; onTokenExpired := onTokenExpired kc;
     onActionUpdate := onActionUpdate kc |}.

Definition set_timeSkew v (kc : KeycloakClient) : KeycloakClient :=
  {| authenticated := authenticated kc; subject := subject kc;
     responseMode := responseMode kc; responseType := responseType kc;
     flow := flow kc; realmAccess := realmAccess kc;
     resourceAccess := resourceAccess kc; token := token kc;
     tokenParsed := tokenParsed kc; refreshToken := refreshToken kc;
     refreshTokenParsed := refreshTokenParsed kc; idToken := idToken kc;
     idTokenParsed := idTokenParsed kc; timeSkew := v;
     loginRequired := loginRequired kc; clientId := clientId kc;
     tokenTimeoutHandle := tokenTimeoutHandle kc; endpoints := endpoints kc;
     callbackStorage := callbackStorage kc; refreshQueue := refreshQueue kc;
     useNonce := useNonce kc; pkceMethod := pkceMethod kc;
     onAuthSuccess := onAuthSuccess kc; onAuthError := onAuthError kc;
     onAuthRefreshSuccess := onAuthRefreshSuccess kc;
     onAuthRefreshError := onAuthRefreshError kc;
     onAuthLogout := onAuthLogout kc; onTokenExpired := onTokenExpired kc;
     onActionUpdate := onActionUpdate kc |}.

Definition set_tokenTimeoutHandle v (kc : KeycloakClient) : KeycloakClient :=
  {| authenticated := authenticated kc; subject := subject kc;
     responseMode := responseMode kc; responseType := responseType kc;
     flow := flow kc; realmAccess := realmAccess kc;
     resourceAccess := resourceAccess kc; token := token kc;
     tokenParsed := tokenParsed kc; refreshToken := refreshToken kc;
     refreshTokenParsed := refreshTokenParsed kc; idToken := idToken kc;
     idTokenParsed := idTokenParsed kc; timeSkew := timeSkew kc;
     loginRequired := loginRequired kc; clientId := clientId kc;
     tokenTimeoutHandle := v; endpoints := endpoints kc;
     callbackStorage := callbackStorage kc; refreshQueue := refreshQueue kc;
     useNonce := useNonce kc; pkceMethod := pkceMethod kc;
     onAuthSuccess := onAuthSuccess kc; onAuthError := onAuthError kc;
     onAuthRefreshSuccess := onAuthRefreshSuccess kc;
     onAuthRefreshError := onAuthRefreshError kc;
     onAuthLogout := onAuthLogout kc; onTokenExpired := onTokenExpired kc;
     onActionUpdate := onActionUpdate kc |}.

Definition set_callbackStorage v (kc : KeycloakClient) : KeycloakClient :=
  {| authenticated := authenticated kc; subject := subject kc;
     responseMode := responseMode kc; responseType := responseType kc;
     flow := flow kc; realmAccess := realmAccess kc;
     resourceAccess := resourceAccess kc; token := token kc;
     tokenParsed := tokenParsed kc; refreshToken := refreshToken kc;
     refreshTokenParsed := refreshTokenParsed kc; idToken := idToken kc;
     idTokenParsed := idTokenParsed kc; timeSkew := timeSkew kc;
     loginRequired := loginRequired kc; clientId := clientId kc;
     tokenTimeoutHandle := tokenTimeoutHandle kc; endpoints := endpoints kc;
     callbackStorage := v; refreshQueue := refreshQueue kc;
     useNonce := useNonce kc; pkceMethod := pkceMethod kc;
     onAuthSuccess := onAuthSuccess kc; onAuthError := onAuthError kc;
     onAuthRefreshSuccess := onAuthRefreshSuccess kc;
     onAuthRefreshError := onAuthRefreshError kc;
     onAuthLogout := onAuthLogout kc; onTokenExpired := onTokenExpired kc;
     onActionUpdate := onActionUpdate kc |}.

Definition set_refreshQueue v (kc : KeycloakClient) : KeycloakClient :=
  {| authenticated := authenticated kc; subject := subject kc;
     responseMode := responseMode kc; responseType := responseType kc;
     flow := flow kc; realmAccess := realmAccess kc;
     resourceAccess := resourceAccess kc; token := token kc;
     tokenParsed := tokenParsed kc; refreshToken := refreshToken kc;
     refreshTokenParsed := refreshTokenParsed kc; idToken := idToken kc;
     idTokenParsed := idTokenParsed kc; timeSkew := timeSkew kc;
     loginRequired := loginRequired kc; clientId := clientId kc;
     tokenTimeoutHandle := tokenTimeoutHandle kc; endpoints := endpoints kc;
     callbackStorage := callbackStorage kc; refreshQueue := v;
     useNonce := useNonce kc; pkceMethod := pkceMethod kc;
     onAuthSuccess := onAuthSuccess kc; onAuthError := onAuthError kc;
     onAuthRefreshSuccess := onAuthRefreshSuccess kc;
     onAuthRefreshError := onAuthRefreshError kc;
     onAuthLogout := onAuthLogout kc; onTokenExpired := onTokenExpired kc;
     onActionUpdate := onActionUpdate kc |}.

(** ** The world a method runs in *)

Record World := mkWorld {
  this : KeycloakClient;
  (** the observable effects so far, oldest first *)
  events : list Event;
  (** how many times the clock has been read *)
  ticks : nat;
  (** the [runUpdateToken] calls suspended at [await adapter.refreshTokens],
      oldest first, each with the [timeLocal] it captured *)
  inflight : list num;
  (** the identity the next [new Deferred()] gets *)
  fresh : Deferred;
}.

Definition M (A : Type) : Type := World -> Result A * World.

#[export] Instance M_ret : MRet M := fun A a w => (Ok a, w).

#[export] Instance M_bind : MBind M := fun A B f m w =>
  match m w with
  | (Ok a, w') => f a w'
  | (Throw e, w') => (Throw e, w')
  end.

Definition throw {A} (e : Exn) : M A := fun w => (Throw e, w).

(** [try { m } catch (err) { h err }] *)
Definition try_catch {A} (m : M A) (h : Exn -> M A) : M A := fun w =>
  match m w with
  | (Ok a, w') => (Ok a, w')
  | (Throw e, w') => h e w'
  end.

Definition get_this : M KeycloakClient := fun w => (Ok (this w), w).

Definition modify (f : KeycloakClient -> KeycloakClient) : M unit := fun w =>
  (Ok tt, mkWorld (f (this w)) (events w) (ticks w) (inflight w) (fresh w)).

Definition emit (e : Event) : M unit := fun w =>
  (Ok tt, mkWorld (this w) (events w ++ [e]) (ticks w) (inflight w) (fresh w)).

(** [this.onX && this.onX(...)] *)
Definition notify (handler : KeycloakClient -> bool) (e : Event) : M unit :=
  kc ← get_this;
  if handler kc then emit e else mret tt.

(** [if (c) { m }] *)
Definition when (c : bool) (m : M unit) : M unit :=
  if c then m else mret tt.

(** [new Deferred<boolean>()] *)
Definition new_Deferred : M Deferred := fun w =>
  (Ok (fresh w),
   mkWorld (this w) (events w) (ticks w) (inflight w) (S (fresh w))).

(** The function suspends at an [await] holding [timeLocal]. *)
Definition suspend (timeLocal : num) : M unit := fun w =>
  (Ok tt,
   mkWorld (this w) (events w) (ticks w) (inflight w ++ [timeLocal]) (fresh w)).

(** The result of running [m] from [w], and the world it leaves. *)
Definition result_of {A} (m : M A) (w : World) : Result A := fst (m w).
Definition exec {A} (m : M A) (w : World) : World := snd (m w).

Section Client.

(** *** Collaborators outside [client.ts] *)

(** The successive readings of [new Date().getTime()], in milliseconds. *)
Variable clock : nat -> Z.

(** [decodeToken] of [./utils/keycloak]: it throws, or returns the claims,
    or returns a falsy value. *)
Variable decodeToken : string -> Result (option TokenParsed.t).

(** [formatQuerystringParameters] of [./utils/url], applied to the entries
    of a [Map<string, string>] in insertion order. *)
Variable formatQuerystringParameters : JsMap.t -> string.

(** [adapter.redirectUri(options)] *)
Variable adapter_redirectUri : option JsMap.t -> string.

(** [generatePkceChallenge] of [./utils/uuid] *)
Variable generatePkceChallenge : KeycloakPkceMethod -> string -> string.

(** The string a number becomes in a template literal. *)
Variable Number_toString : num -> string.

Definition getTime : M num := fun w =>
  (Ok (of_Z (clock (ticks w))),
   mkWorld (this w) (events w) (S (ticks w)) (inflight w) (fresh w)).

Definition call_decodeToken (raw : string) : M (option TokenParsed.t) :=
  match decodeToken raw with
  | Ok c => mret c
  | Throw e => throw e
  end.

(** *** [setToken] (client.ts 856-935) *)

(** The three [if] statements of [setToken], in the order of the source:
    the refresh token, the id token, the access token. *)

Definition store_refreshToken (refreshToken' : option string) : M unit :=
  match or_undefined refreshToken' with
  | Some r =>
      modify (set_refreshToken (Some r));;
      c ← call_decodeToken r;
      modify (set_refreshTokenParsed c)
  | None =>
      modify (set_refreshToken None);;
      modify (set_refreshTokenParsed None)
  end.

Definition store_idToken (idToken' : option string) : M unit :=
  match or_undefined idToken' with
  | Some i =>
      modify (set_idToken (Some i));;
      c ← call_decodeToken i;
      modify (set_idTokenParsed c)
  | None =>
      modify (set_idToken None);;
      modify (set_idTokenParsed None)
  end.

(** [if (this.timeSkew != null) { ... }]: the expiry notification. *)
Definition schedule_expiry (claims : TokenParsed.t) : M unit :=
  kc ← get_this;
  match timeSkew kc with
  | None => mret tt
  | Some skew =>
      when (onTokenExpired kc)
        (now ← getTime;
         let expiresIn :=
           scale 1000
             (add (sub (nullish (TokenParsed.exp claims) (of_Z 0))
                       (scale (1 # 1000) now))
                  skew) in
         if le expiresIn (of_Z 0) then emit OnTokenExpired
         else
           emit (SetTimeout expiresIn);;
           modify (set_tokenTimeoutHandle (Some {| delay := expiresIn |})))
  end.

(** What follows the check of [this.tokenParsed] when claims were found. *)
Definition adopt_claims (claims : TokenParsed.t) (timeLocal : option num)
    : M unit :=
  modify (set_authenticated (Some true));;
  modify (set_subject (TokenParsed.sub claims));;
  modify (set_realmAccess (TokenParsed.realm_access claims));;
  modify (set_resourceAccess (TokenParsed.resource_access claims));;
  match timeLocal with
  | Some tl =>
      when (truthy tl)
        (modify (set_timeSkew (Some
           (sub (floor (scale (1 # 1000) tl))
                (nullish (TokenParsed.iat claims) (of_Z 0))))))
  | None => mret tt
  end;;
  schedule_expiry claims.

(** [delete] of the access token and of what is derived from it. *)
Definition drop_token : M unit :=
  modify (set_token None);;
  modify (set_tokenParsed None);;
  modify (set_subject None);;
  modify (set_realmAccess None);;
  modify (set_resourceAccess None);;
  modify (set_authenticated (Some false)).

Definition store_token (token' : option string) (timeLocal : option num)
    : M unit :=
  match or_undefined token' with
  | Some t =>
      modify (set_token (Some t));;
      c ← call_decodeToken t;
      modify (set_tokenParsed c);;
      match c with
      | None => throw MalformedToken
      | Some claims => adopt_claims claims timeLocal
      end
  | None => drop_token
  end.

Definition setToken (token' refreshToken' idToken' : option string)
    (timeLocal : option num) : M unit :=
  kc ← get_this;
  when (truthy (tokenTimeoutHandle kc))
    (emit ClearTimeout;; modify (set_tokenTimeoutHandle None));;
  store_refreshToken refreshToken';;
  store_idToken idToken';;
  store_token token' timeLocal.

(** *** [clearToken] (client.ts 555-566) *)

Definition clearToken : M unit :=
  kc ← get_this;
  when (truthy (token kc))
    (setToken None None None None;;
     notify onAuthLogout OnAuthLogout;;
     kc ← get_this;
     when (truthy (loginRequired kc)) (emit AdapterLogin)).

(** *** [isTokenExpired] (client.ts 411-437) *)

Definition isTokenExpired (minValidity : option num) : M bool :=
  kc ← get_this;
  if negb (truthy (tokenParsed kc))
     || (negb (truthy (refreshToken kc))
         && negb (bool_decide (flow kc = Some implicit)))
  then throw NotAuthenticated
  else
    match timeSkew kc with
    | None => mret true
    | Some skew =>
        now ← getTime;
        let expiresIn :=
          add (sub (nullish (tokenParsed kc ≫= TokenParsed.exp) (of_Z 0))
                   (ceil (scale (1 # 1000) now)))
              skew in
        match minValidity with
        | Some mv =>
            if truthy mv then
              if isNaN mv then throw InvalidMinValidity
              else mret (lt (sub expiresIn mv) (of_Z 0))
            else mret (lt expiresIn (of_Z 0))
        | None => mret (lt expiresIn (of_Z 0))
        end
    end.

(** *** [runUpdateToken] (client.ts 439-516)

    The method is [async] with one [await].  [runUpdateToken] is the part
    that runs inside the caller's turn, up to the [await]; the rest runs
    when the promise of [adapter.refreshTokens] settles and is
    [refreshTokens_settled]. *)

(** [this.refreshQueue.pop()] *)
Definition refreshQueue_pop : M (option Deferred) :=
  kc ← get_this;
  match reverse (refreshQueue kc) with
  | [] => mret None
  | p :: before =>
      modify (set_refreshQueue (reverse before));;
      mret (Some p)
  end.

(** [for (let p = pop(); p != null; p = pop()) { settle p }]; every pass
    removes one element, so the length of the queue bounds the passes. *)
Fixpoint drain_loop (passes : nat) (settle : Deferred -> Event) : M unit :=
  match passes with
  | O => mret tt
  | S passes' =>
      p ← refreshQueue_pop;
      match p with
      | None => mret tt
      | Some d => emit (settle d);; drain_loop passes' settle
      end
  end.

Definition drain (settle : Deferred -> Event) : M unit :=
  kc ← get_this;
  drain_loop (S (length (refreshQueue kc))) settle.

Definition refresh_params (kc : KeycloakClient) : JsMap.t :=
  JsMap.set "refresh_token" (of_opt (refreshToken kc))
    (JsMap.set "grant_type" (VStr "refresh_token")
       (JsMap.set "client_id" (VStr (clientId kc)) [])).

Definition runUpdateToken (minValidity : num) (deffered : Deferred)
    : M unit :=
  kc ← get_this;
  shouldRefreshToken ←
    (if JsNum.eqb minValidity (of_Z (-1)) then mret true
     else if negb (truthy (tokenParsed kc)) then mret true
     else isTokenExpired (Some minValidity));
  if negb shouldRefreshToken then emit (Resolve deffered false)
  else
    let tokenUrl := token_endpoint (endpoints kc) in
    let params := refresh_params kc in
    modify (fun kc => set_refreshQueue (refreshQueue kc ++ [deffered]) kc);;
    kc ← get_this;
    when (length (refreshQueue kc) =? 1)%nat
      (timeLocal ← getTime;
       emit (AdapterRefreshTokens tokenUrl
               (formatQuerystringParameters params));;
       suspend timeLocal).

(** The [try] block after the [await], and the [catch] block. *)
Definition refresh_try (timeLocal : num) (outcome : Settled) : M unit :=
  match outcome with
  | Throw err => throw err
  | Ok tokenResponse =>
      match or_undefined (TokenResponse.error tokenResponse) with
      | Some error =>
          clearToken;;
          throw (ResponseError error)
      | None =>
          now ← getTime;
          let timeLocal := scale (1 # 2) (add timeLocal now) in
          setToken (TokenResponse.access_token tokenResponse)
                   (TokenResponse.refresh_token tokenResponse)
                   (TokenResponse.id_token tokenResponse)
                   (Some timeLocal);;
          notify onAuthRefreshSuccess OnAuthRefreshSuccess;;
          drain (fun p => Resolve p true)
      end
  end.

Definition refresh_catch (err : Exn) : M unit :=
  notify onAuthRefreshError OnAuthRefreshError;;
  drain (fun p => Reject p (VBool true)).

Definition refreshTokens_settled (timeLocal : num) (outcome : Settled)
    : M unit :=
  try_catch (refresh_try timeLocal outcome) refresh_catch.

(** *** [updateToken] (client.ts 536-547)

    The promise [runUpdateToken] returns is dropped, so an exception in it
    is seen by nobody.  The result is the deferred whose promise the caller
    gets. *)

Definition updateToken (minValidity : option num) : M Deferred :=
  let minValidity := nullish minValidity (of_Z 5) in
  deffered ← new_Deferred;
  kc ← get_this;
  if negb (truthy (refreshToken kc)) then
    emit (Reject deffered (VStr "missing refreshToken"));;
    mret deffered
  else
    try_catch (runUpdateToken minValidity deffered) (fun _ => mret tt);;
    mret deffered.

(** The promise of the oldest pending [adapter.refreshTokens] call settles
    and the suspended method resumes. *)
Definition resume_refresh (outcome : Settled) : M unit := fun w =>
  match inflight w with
  | [] => (Ok tt, w)
  | timeLocal :: others =>
      refreshTokens_settled timeLocal outcome
        (mkWorld (this w) (events w) (ticks w) others (fresh w))
  end.

(** [updateToken] called once for each element of [calls], in order, with
    no response arriving in between. *)
Fixpoint run_calls (calls : list (option num)) (w : World) : World :=
  match calls with
  | [] => w
  | minValidity :: later =>
      run_calls later (exec (updateToken minValidity) w)
  end.

(** *** [authSuccess] (client.ts 739-770) *)

Definition nonce_differs (parsed : option TokenParsed.t)
    (oauthObj : OAuthResponse) : bool :=
  match parsed with
  | Some claims =>
      negb (strict_eq (of_opt (TokenParsed.nonce claims))
                      (prop oauthObj "storedNonce"))
  | None => false
  end.

Definition authSuccess (oauthObj : OAuthResponse) (timeLocal : num)
    (fulfillPromise : bool) : M unit :=
  now ← getTime;
  let timeLocal := scale (1 # 2) (add timeLocal now) in
  setToken (str_prop oauthObj "access_token")
           (str_prop oauthObj "refresh_token")
           (str_prop oauthObj "id_token")
           (Some timeLocal);;
  kc ← get_this;
  if truthy (useNonce kc)
     && (nonce_differs (tokenParsed kc) oauthObj
         || nonce_differs (refreshTokenParsed kc) oauthObj
         || nonce_differs (idTokenParsed kc) oauthObj)
  then
    clearToken;;
    throw NonceMismatch
  else
    when fulfillPromise (notify onAuthSuccess OnAuthSuccess).

(** *** [processCallback] (client.ts 670-737)

    [fetched] is how the promise of [adapter.fetchTokens] settles; it is
    looked at only on the path that makes the call.  The method is run to
    its end in one go: nothing else touches the client while it waits. *)

Definition exchange_params (kc : KeycloakClient) (oauth : OAuthResponse)
    : JsMap.t :=
  let params :=
    JsMap.set "redirect_uri" (prop oauth "redirectUri")
      (JsMap.set "client_id" (VStr (clientId kc))
         (JsMap.set "grant_type" (VStr "authorization_code")
            (JsMap.set "code" (prop oauth "code") []))) in
  if truthy (prop oauth "pkceCodeVerifier")
  then JsMap.set "code_verifier" (prop oauth "pkceCodeVerifier") params
  else params.

(** The condition under which [processCallback] calls
    [adapter.fetchTokens]: no [error], not the fast path of the implicit
    and hybrid flows, and a [code] outside the implicit flow. *)
Definition exchanges_code (kc : KeycloakClient) (oauth : OAuthResponse)
    : bool :=
  negb (truthy (prop oauth "error"))
  && negb (negb (bool_decide (flow kc = Some standard))
           && (truthy (prop oauth "access_token")
               || truthy (prop oauth "id_token")))
  && (negb (bool_decide (flow kc = Some implicit))
      && truthy (prop oauth "code")).

Definition processCallback (oauth : OAuthResponse) (fetched : Settled)
    : M unit :=
  timeLocal ← getTime;
  when (truthy (prop oauth "kc_action_status"))
    (notify onActionUpdate (OnActionUpdate (prop oauth "kc_action_status")));;
  let code := prop oauth "code" in
  let error := prop oauth "error" in
  let prompt := prop oauth "prompt" in
  if truthy error then
    if negb (strict_eq prompt (VStr "none")) then
      notify onAuthError
        (OnAuthError (inl error)
           (nullish (as_string (prop oauth "error_description"))
                    "auth error"));;
      throw (AuthorizationError (prop oauth "error_description"))
    else mret tt
  else
    kc ← get_this;
    if negb (bool_decide (flow kc = Some standard))
       && (truthy (prop oauth "access_token")
           || truthy (prop oauth "id_token"))
    then authSuccess oauth timeLocal true
    else if negb (bool_decide (flow kc = Some implicit)) && truthy code then
      let params := exchange_params kc oauth in
      let tokenUrl := token_endpoint (endpoints kc) in
      try_catch
        (emit (AdapterFetchTokens tokenUrl
                 (formatQuerystringParameters params));;
         match fetched with
         | Throw err => throw err
         | Ok tokenResponse =>
             authSuccess
               (<["id_token" :=
                    of_opt (or_undefined
                              (TokenResponse.id_token tokenResponse))]>
                (<["refresh_token" :=
                     of_opt (or_undefined
                               (TokenResponse.refresh_token tokenResponse))]>
                 (<["access_token" :=
                      of_opt (or_undefined
                                (TokenResponse.access_token tokenResponse))]>
                  oauth)))
               timeLocal
               (bool_decide (flow kc = Some standard))
         end)
        (fun err =>
           notify onAuthError
             (OnAuthError (inr err)
                "Failed to refresh token during callback processing");;
           throw (TokenExchangeError err))
    else mret tt.

(** *** The callback parser (client.ts 775-795, 1028-1121) *)

(** Modelled from the spec: the part of a piece of the component before its
    first [=], for [parseCallbackParams]; a piece without [=] is all key. *)
Definition key_of (piece : string) : string :=
  match JsString.indexOf "=" piece with
  | Some i => JsString.substring 0 i piece
  | None => piece
  end.

(** Modelled from the spec: the part of a piece after its first [=]. *)
Definition value_of (piece : string) : string :=
  match JsString.indexOf "=" piece with
  | Some i => JsString.substring_from (S i) piece
  | None => ""
  end.

(** Modelled from the spec: what [parseCallbackParams] returns, as
    [parseCallbackUrl] reads it. *)
Record ParsedParams := {
  paramsString : string;
  oauthParams : OAuthResponse;
}.

(** Modelled from the spec: one piece handled by [parseCallbackParams]. *)
Definition parseCallbackParams_step (supportedParams : list string)
    (result : ParsedParams) (piece : string) : ParsedParams :=
  if bool_decide (key_of piece ∈ supportedParams) then
    {| paramsString := paramsString result;
       oauthParams :=
         <[key_of piece := VStr (value_of piece)]> (oauthParams result) |}
  else
    {| paramsString :=
         if String.eqb (paramsString result) "" then piece
         else paramsString result ++ "&" ++ piece;
       oauthParams := oauthParams result |}.

(** Modelled from the spec: [parseCallbackParams] of [./utils/keycloak] is
    not in [client.ts].  The component is a list of [key=value] pieces
    separated by [&]; a piece whose key is an accepted parameter goes into
    [oauthParams], every other piece is kept, in order, in [paramsString]
    (section 4.3: the recognized parameters are stripped, the others are
    preserved). *)
Definition parseCallbackParams (paramsString' : string)
    (supportedParams : list string) : ParsedParams :=
  fold_left (parseCallbackParams_step supportedParams)
    (JsString.split "&" paramsString')
    {| paramsString := ""; oauthParams := ∅ |}.

Definition supportedParams_of (flow' : option KeycloakFlow) : list string :=
  match flow' with
  | Some standard => ["code"; "state"; "session_state"; "kc_action_status"]
  | Some implicit =>
      ["access_token"; "token_type"; "id_token"; "state"; "session_state";
       "expires_in"; "kc_action_status"]
  | Some hybrid =>
      ["access_token"; "id_token"; "code"; "state"; "session_state";
       "kc_action_status"]
  | None => []
  end ++ ["error"; "error_description"; "error_uri"].

(** The condition under which [parseCallbackUrl] returns the parameters. *)
Definition accepts (flow' : option KeycloakFlow) (oauthParams' : OAuthResponse)
    : bool :=
  match flow' with
  | Some standard | Some hybrid =>
      (truthy (prop oauthParams' "code") || truthy (prop oauthParams' "error"))
      && truthy (prop oauthParams' "state")
  | Some implicit =>
      (truthy (prop oauthParams' "access_token")
       || truthy (prop oauthParams' "error"))
      && truthy (prop oauthParams' "state")
  | None => false
  end.

(** The component the response mode selects, as [newUrl] and [parsed]. *)
Definition parse_component (kc : KeycloakClient) (url : string)
    : option (string * ParsedParams) :=
  let supportedParams := supportedParams_of (flow kc) in
  let queryIndex := JsString.indexOf "?" url in
  let fragmentIndex := JsString.indexOf "#" url in
  match responseMode kc, queryIndex, fragmentIndex with
  | Some query, Some qi, _ =>
      let newUrl := JsString.substring 0 qi url in
      let parsed :=
        parseCallbackParams
          (JsString.substring (S qi)
             (match fragmentIndex with
              | Some fi => fi
              | None => String.length url
              end) url)
          supportedParams in
      let newUrl :=
        if negb (String.eqb (paramsString parsed) "")
        then newUrl ++ "?" ++ paramsString parsed else newUrl in
      let newUrl :=
        match fragmentIndex with
        | Some fi => newUrl ++ JsString.substring_from fi url
        | None => newUrl
        end in
      Some (newUrl, parsed)
  | Some fragment, _, Some fi =>
      let newUrl := JsString.substring 0 fi url in
      let parsed :=
        parseCallbackParams (JsString.substring_from (S fi) url)
          supportedParams in
      let newUrl :=
        if negb (String.eqb (paramsString parsed) "")
        then newUrl ++ "#" ++ paramsString parsed else newUrl in
      Some (newUrl, parsed)
  | _, _, _ => None
  end.

Definition parseCallbackUrl (kc : KeycloakClient) (url : string)
    : OAuthResponse :=
  match parse_component kc url with
  | Some (newUrl, parsed) =>
      if accepts (flow kc) (oauthParams parsed)
      then <["newUrl" := VStr newUrl]> (oauthParams parsed)
      else ∅
  | None => ∅
  end.

(** Modelled from the spec: [this.callbackStorage.get(key)].  The storage is
    the adapter's; by section 6 it is a mapping from the [state] of a pending
    request to the request, and [get] is a lookup that does not delete.  A
    key that is not a string finds nothing. *)
Definition callbackStorage_get (kc : KeycloakClient) (key : JsVal)
    : option CallbackState.t :=
  match key with
  | VStr s => callbackStorage kc !! s
  | _ => None
  end.

(** Modelled from the spec: [this.callbackStorage.add(callbackState)] stores
    the request under its [state]. *)
Definition callbackStorage_add (cs : CallbackState.t) (kc : KeycloakClient)
    : KeycloakClient :=
  set_callbackStorage (<[CallbackState.state cs := cs]> (callbackStorage kc))
    kc.

(** [parseCallbackUrl] returns an object, which is truthy, so the [throw]
    of [parseCallback] cannot be reached. *)
Definition parseCallback (kc : KeycloakClient) (url : string)
    : OAuthResponse :=
  let oauthParsed := parseCallbackUrl kc url in
  match callbackStorage_get kc (prop oauthParsed "state") with
  | Some oauthState =>
      <["pkceCodeVerifier" :=
          of_opt (CallbackState.pkceCodeVerifier oauthState)]>
      (<["prompt" := of_opt (CallbackState.prompt oauthState)]>
       (<["storedNonce" := VStr (CallbackState.nonce oauthState)]>
        (<["redirectUri" := VStr (CallbackState.redirectUri oauthState)]>
         (<["valid" := VBool true]> oauthParsed))))
  | None => oauthParsed
  end.

(** *** [createLoginUrl] (client.ts 269-366)

    [options] is an object: its own properties in insertion order, every
    key once.  The named options have the types [KeycloakLoginOptions]
    gives them.  The values drawn at random ([createUUID] twice, then
    [generateCodeVerifier(96)]) are arguments. *)

(** [`${v}`] *)
Definition template (v : JsVal) : string :=
  match v with
  | VUndef => "undefined"
  | VBool true => "true"
  | VBool false => "false"
  | VNum n => Number_toString n
  | VStr s => s
  end.

Definition option_of (options : JsMap.t) (key : string) : JsVal :=
  nullish (JsMap.get key options) VUndef.

Definition named_options : list string :=
  ["scope"; "redirectUri"; "prompt"; "action"; "maxAge"; "loginHint";
   "idpHint"; "locale"].

(** The [...rest] of the destructuring. *)
Definition rest_of (options : JsMap.t) : JsMap.t :=
  filter (fun entry => fst entry ∉ named_options) options.

Definition scope_of (scopeOption : JsVal) : string :=
  match or_undefined (as_string scopeOption) with
  | Some scopeOption =>
      match JsString.indexOf "openid" scopeOption with
      | Some _ => scopeOption
      | None => "openid " ++ scopeOption
      end
  | None => "openid"
  end.

Definition set_if (c : bool) (key : string) (v : JsVal) (params : JsMap.t)
    : JsMap.t :=
  if c then JsMap.set key v params else params.

(** [params] when [this.callbackStorage.add] is called. *)
Definition core_params (kc : KeycloakClient) (options : JsMap.t)
    (redirectUri state nonce : string) (pkceChallenge : option string)
    : JsMap.t :=
  let prompt := option_of options "prompt" in
  let action := option_of options "action" in
  let maxAge := option_of options "maxAge" in
  let loginHint := option_of options "loginHint" in
  let idpHint := option_of options "idpHint" in
  let locale := option_of options "locale" in
  let params := JsMap.set "client_id" (VStr (clientId kc)) [] in
  let params := JsMap.set "redirect_uri" (VStr redirectUri) params in
  let params := JsMap.set "state" (VStr state) params in
  let params :=
    JsMap.set "response_mode"
      (match responseMode kc with
       | Some query => VStr "query"
       | Some fragment => VStr "fragment"
       | None => VUndef
       end) params in
  let params := JsMap.set "response_type" (of_opt (responseType kc)) params in
  let params :=
    JsMap.set "scope" (VStr (scope_of (option_of options "scope"))) params in
  let params := set_if (truthy (useNonce kc)) "nonce" (VStr nonce) params in
  let params := set_if (truthy prompt) "prompt" prompt params in
  let params :=
    set_if (truthy maxAge) "max_age" (VStr (template maxAge)) params in
  let params := set_if (truthy loginHint) "login_hint" loginHint params in
  let params := set_if (truthy idpHint) "kc_idp_hint" idpHint params in
  let params :=
    set_if (truthy action && negb (strict_eq action (VStr "register")))
      "kc_action" action params in
  let params := set_if (truthy locale) "ui_locales" locale params in
  match pkceMethod kc, or_undefined pkceChallenge with
  | Some S256, Some challenge =>
      JsMap.set "code_challenge_method" (VStr "S256")
        (JsMap.set "code_challenge" (VStr challenge) params)
  | _, _ => params
  end.

(** [Object.keys(rest).forEach(key => params.set(key, `${rest[key]}`))] *)
Definition set_rest (rest : JsMap.t) (params : JsMap.t) : JsMap.t :=
  fold_left
    (fun params entry => JsMap.set (fst entry) (VStr (template (snd entry)))
                           params)
    rest params.

Definition login_redirectUri (options : option JsMap.t) : string :=
  adapter_redirectUri options.

Definition login_codeVerifier (kc : KeycloakClient) (drawn : string)
    : option string :=
  match pkceMethod kc with
  | Some _ => Some drawn
  | None => None
  end.

Definition login_pkceChallenge (kc : KeycloakClient) (drawn : string)
    : option string :=
  match pkceMethod kc with
  | Some method => Some (generatePkceChallenge method drawn)
  | None => None
  end.

(** The [callbackState] that is stored. *)
Definition login_callbackState (kc : KeycloakClient)
    (options : option JsMap.t) (state nonce drawn : string)
    : CallbackState.t :=
  {| CallbackState.state := state;
     CallbackState.nonce := nonce;
     CallbackState.pkceCodeVerifier := login_codeVerifier kc drawn;
     CallbackState.prompt :=
       as_string (option_of (nullish options []) "prompt");
     CallbackState.redirectUri := login_redirectUri options |}.

(** The [params] that are formatted into the URL. *)
Definition login_params (kc : KeycloakClient) (options : option JsMap.t)
    (state nonce drawn : string) : JsMap.t :=
  set_rest (rest_of (nullish options []))
    (core_params kc (nullish options []) (login_redirectUri options)
       state nonce (login_pkceChallenge kc drawn)).

Definition createLoginUrl (options : option JsMap.t)
    (state nonce drawn : string) : M string :=
  kc ← get_this;
  let baseUrl :=
    if strict_eq (option_of (nullish options []) "action") (VStr "register")
    then register (endpoints kc) else authorize (endpoints kc) in
  modify (callbackStorage_add
            (login_callbackState kc options state nonce drawn));;
  mret (baseUrl ++ "?"
        ++ formatQuerystringParameters
             (login_params kc options state nonce drawn)).

(** *** [createRegisterUrl] (client.ts 383-388)

    [{ ...options, action: 'register' }] keeps the properties of [options]
    in their order and writes [action], in place when [options] has it and
    at the end otherwise. *)

Definition createRegisterUrl (options : option JsMap.t)
    (state nonce drawn : string) : M string :=
  createLoginUrl
    (Some (JsMap.set "action" (VStr "register") (nullish options [])))
    state nonce drawn.

(** *** Role checks (client.ts 572-588)

    [realmAccess], [resourceAccess] and the entries of [resourceAccess] are
    objects, so each is truthy when it is present.  [resourceAccess] is a
    plain object read by name: the dictionary holds its own properties,
    and a name it does not have is looked up in [Object.prototype]. *)

Definition hasRealmRole (kc : KeycloakClient) (role : string) : bool :=
  match realmAccess kc with
  | Some access =>
      match JsArray.indexOf role (roles access) with
      | Some _ => true
      | None => false
      end
  | None => false
  end.

(** The names of the properties of [Object.prototype].  The value of each
    is a function or an object, so it is truthy, and it has no property
    [roles]. *)
Definition Object_prototype : list string :=
  ["constructor"; "__defineGetter__"; "__defineSetter__"; "hasOwnProperty";
   "__lookupGetter__"; "__lookupSetter__"; "isPrototypeOf";
   "propertyIsEnumerable"; "toString"; "valueOf"; "__proto__";
   "toLocaleString"].

(** What [hasResourceRole] does: it returns a boolean, or
    [access.roles.indexOf] throws the [TypeError] of reading a property of
    [undefined]. *)
Inductive Checked : Type :=
| Returns (answer : bool)
| TypeError.

Definition hasResourceRole (kc : KeycloakClient) (role : string)
    (resource : option string) : Checked :=
  match resourceAccess kc with
  | None => Returns false
  | Some resourceAccess' =>
      let key :=
        match or_undefined resource with
        | Some resource' => resource'
        | None => if truthy (clientId kc) then clientId kc else ""
        end in
      match resourceAccess' !! key with
      | Some access =>
          Returns match JsArray.indexOf role (roles access) with
                  | Some _ => true
                  | None => false
                  end
      | None =>
          (* [access] is inherited, or it is [undefined] *)
          if bool_decide (key ∈ Object_prototype) then TypeError
          else Returns false
      end
  end.

End Client.

(** ** Observations on a run *)

(** The effects [w'] has seen beyond those of [w]. *)
Definition new_events (w w' : World) : list Event :=
  drop (length (events w)) (events w').

(** How a deferred was settled. *)
Inductive Outcome : Type :=
| Resolved (value : bool)
| Rejected (reason : JsVal).

Definition settlement (e : Event) : option (Deferred * Outcome) :=
  match e with
  | Resolve d v => Some (d, Resolved v)
  | Reject d r => Some (d, Rejected r)
  | _ => None
  end.

(** The deferreds settled by a run, in the order they were settled. *)
Definition settled (evs : list Event) : list (Deferred * Outcome) :=
  omap settlement evs.

Definition is_dispatch (e : Event) : bool :=
  match e with AdapterRefreshTokens _ _ => true | _ => false end.

(** The number of calls of [adapter.refreshTokens]. *)
Definition dispatches (evs : list Event) : nat :=
  length (filter (fun e => is_dispatch e = true) evs).

(** The token state of the session. *)
Record TokenState := {
  ts_token : option string;
  ts_tokenParsed : option TokenParsed.t;
  ts_refreshToken : option string;
  ts_refreshTokenParsed : option TokenParsed.t;
  ts_idToken : option string;
  ts_idTokenParsed : option TokenParsed.t;
  ts_authenticated : option bool;
  ts_subject : option string;
  ts_realmAccess : option KeycloakRoles;
  ts_resourceAccess : option (gmap string KeycloakRoles);
  ts_timeSkew : option num;
}.

Definition token_state (kc : KeycloakClient) : TokenState :=
  {| ts_token := token kc;
     ts_tokenParsed := tokenParsed kc;
     ts_refreshToken := refreshToken kc;
     ts_refreshTokenParsed := refreshTokenParsed kc;
     ts_idToken := idToken kc;
     ts_idTokenParsed := idTokenParsed kc;
     ts_authenticated := authenticated kc;
     ts_subject := subject kc;
     ts_realmAccess := realmAccess kc;
     ts_resourceAccess := resourceAccess kc;
     ts_timeSkew := timeSkew kc |}.

(** No raw token and no claims are held. *)
Definition tokens_absent (kc : KeycloakClient) : Prop :=
  token kc = None /\ tokenParsed kc = None /\
  refreshToken kc = None /\ refreshTokenParsed kc = None /\
  idToken kc = None /\ idTokenParsed kc = None.

(** ** Starting with stored tokens *)

Module InitOptions.
(** Modelled from the spec: [KeycloakInitOptions] of [./types] is not in
    [client.ts].  These are the properties [init], [processInit] and
    [onLoad] read, with the types their uses give them; [adapter] is
    whether an adapter class is given, and the options that [init] checks
    are strings. *)
Record t := mk {
  adapter : bool;
  useNonce : option bool;
  onLoad : option string;
  responseMode : option string;
  flow : option string;
  timeSkew : option num;
  redirectUri : option string;
  pkceMethod : option string;
  enableLogging : option bool;
  token : option string;
  refreshToken : option string;
  idToken : option string;
}.
End InitOptions.

(** How the promise of an [async] method ends. *)
Inductive Completion : Type :=
| Fulfilled
| RejectedBy (e : Exn)               (* an exception of a method called *)
| RejectedWith (message : string).   (* [throw new Error(message)] *)

(** The first settlement of [d] among [settlements]: a promise keeps the
    state it settles in first. *)
Fixpoint outcome_of (d : Deferred) (settlements : list (Deferred * Outcome))
    : option Outcome :=
  match settlements with
  | [] => None
  | (d', outcome) :: later =>
      if Nat.eqb d' d then Some outcome else outcome_of d later
  end.

Section Startup.

Variable clock : nat -> Z.
Variable decodeToken : string -> Result (option TokenParsed.t).
Variable formatQuerystringParameters : JsMap.t -> string.

(** *** [doLogin] and [onLoad] (client.ts 832-854)

    Both are [async] and nobody awaits them.  [doLogin] calls [login],
    which calls [adapter.login]; the effect [AdapterLogin] does not record
    the options passed. *)

Definition doLogin (initOptions : InitOptions.t) (prompt : option bool)
    : M unit :=
  emit AdapterLogin.

Definition onLoad (initOptions : InitOptions.t) : M Completion :=
  let value := of_opt (InitOptions.onLoad initOptions) in
  if strict_eq value (VStr "login-required") then
    doLogin initOptions (Some true);;
    mret Fulfilled
  else if strict_eq value (VStr "check-sso") then mret Fulfilled
  else mret (RejectedWith "Invalid value for onLoad").

(** *** [processInit] (client.ts 797-830)

    The method has one [await], on the promise of [updateToken].
    [processInit] is the part up to it: the result is how the promise of the
    method ends when it ends there, or the deferred whose promise it waits
    for.  [setToken] is called outside the [try] block, so an exception of
    it ends the body and rejects the promise.  [processInit_resumed] is the
    rest, run when the promise awaited has settled with [outcome]. *)

Definition processInit (initOptions : option InitOptions.t)
    : M (Completion + Deferred) :=
  match initOptions with
  | None => mret (inl Fulfilled)
  | Some initOptions =>
      if truthy (InitOptions.token initOptions)
         && truthy (InitOptions.refreshToken initOptions)
      then
        thrown ← try_catch
                   (setToken clock decodeToken (InitOptions.token initOptions)
                      (InitOptions.refreshToken initOptions)
                      (InitOptions.idToken initOptions) None;;
                    mret None)
                   (fun e => mret (Some e));
        match thrown with
        | Some e => mret (inl (RejectedBy e))
        | None =>
            deffered ← updateToken clock formatQuerystringParameters
                         (Some (of_Z (-1)));
            mret (inr deffered)
        end
      else if truthy (InitOptions.onLoad initOptions) then
        onLoad initOptions;;
        mret (inl Fulfilled)
      else mret (inl Fulfilled)
  end.

Definition processInit_resumed (initOptions : InitOptions.t)
    (outcome : Outcome) : M Completion :=
  match outcome with
  | Resolved _ =>
      notify onAuthSuccess OnAuthSuccess;;
      mret Fulfilled
  | Rejected error =>
      notify onAuthError
        (OnAuthError (inl error) "Failed to refresh token during init");;
      if truthy (InitOptions.onLoad initOptions) then
        onLoad initOptions;;
        mret Fulfilled
      else mret (RejectedWith "Failed to init")
  end.

(** [processInit] from the call to the end of its promise, when the
    [adapter.refreshTokens] call that is pending after the first part is
    answered with [answer] and nothing else touches the client in between.
    The result is [None] when the promise awaited is still pending. *)
Definition processInit_to_end (initOptions : option InitOptions.t)
    (answer : Settled) : M (option Completion) := fun w =>
  match processInit initOptions w with
  | (Ok (inl completion), w1) => (Ok (Some completion), w1)
  | (Ok (inr deffered), w1) =>
      let w2 := exec (resume_refresh clock decodeToken answer) w1 in
      match initOptions, outcome_of deffered (settled (new_events w w2)) with
      | Some initOptions, Some outcome =>
          match processInit_resumed initOptions outcome w2 with
          | (Ok completion, w3) => (Ok (Some completion), w3)
          | (Throw e, w3) => (Throw e, w3)
          end
      | _, _ => (Ok None, w2)
      end
  | (Throw e, w1) => (Throw e, w1)
  end.

End Startup.

(** ** Configuration by [init] *)

(** [this.x = v] for the properties only [init] assigns. *)

Definition set_responseMode v (kc : KeycloakClient) : KeycloakClient :=
  {| authenticated := authenticated kc; subject := subject kc;
     responseMode := v; responseType := responseType kc; flow := flow kc;
     realmAccess := realmAccess kc; resourceAccess := resourceAccess kc;
     token := token kc; tokenParsed := tokenParsed kc;
     refreshToken := refreshToken kc;
     refreshTokenParsed := refreshTokenParsed kc; idToken := idToken kc;
     idTokenParsed := idTokenParsed kc; timeSkew := timeSkew kc;
     loginRequired := loginRequired kc; clientId := clientId kc;
     tokenTimeoutHandle := tokenTimeoutHandle kc; endpoints := endpoints kc;
     callbackStorage := callbackStorage kc; refreshQueue := refreshQueue kc;
     useNonce := useNonce kc; pkceMethod := pkceMethod kc;
     onAuthSuccess := onAuthSuccess kc; onAuthError := onAuthError kc;
     onAuthRefreshSuccess := onAuthRefreshSuccess kc;
     onAuthRefreshError := onAuthRefreshError kc;
     onAuthLogout := onAuthLogout kc; onTokenExpired := onTokenExpired kc;
     onActionUpdate := onActionUpdate kc |}.

Definition set_responseType v (kc : KeycloakClient) : KeycloakClient :=
  {| authenticated := authenticated kc; subject := subject kc;
     responseMode := responseMode kc; responseType := v; flow := flow kc;
     realmAccess := realmAccess kc; resourceAccess := resourceAccess kc;
     token := token kc; tokenParsed := tokenParsed kc;
     refreshToken := refreshToken kc;
     refreshTokenParsed := refreshTokenParsed kc; idToken := idToken kc;
     idTokenParsed := idTokenParsed kc; timeSkew := timeSkew kc;
     loginRequired := loginRequired kc; clientId := clientId kc;
     tokenTimeoutHandle := tokenTimeoutHandle kc; endpoints := endpoints kc;
     callbackStorage := callbackStorage kc; refreshQueue := refreshQueue kc;
     useNonce := useNonce kc; pkceMethod := pkceMethod kc;
     onAuthSuccess := onAuthSuccess kc; onAuthError := onAuthError kc;
     onAuthRefreshSuccess := onAuthRefreshSuccess kc;
     onAuthRefreshError := onAuthRefreshError kc;
     onAuthLogout := onAuthLogout kc; onTokenExpired := onTokenExpired kc;
     onActionUpdate := onActionUpdate kc |}.

Definition set_flow v (kc : KeycloakClient) : KeycloakClient :=
  {| authenticated := authenticated kc; subject := subject kc;
     responseMode := responseMode kc; responseType := responseType kc;
     flow := v; realmAccess := realmAccess kc;
     resourceAccess := resourceAccess kc; token := token kc;
     tokenParsed := tokenParsed kc; refreshToken := refreshToken kc;
     refreshTokenParsed := refreshTokenParsed kc; idToken := idToken kc;
     idTokenParsed := idTokenParsed kc; timeSkew := timeSkew kc;
     loginRequired := loginRequired kc; clientId := clientId kc;
     tokenTimeoutHandle := tokenTimeoutHandle kc; endpoints := endpoints kc;
     callbackStorage := callbackStorage kc; refreshQueue := refreshQueue kc;
     useNonce := useNonce kc; pkceMethod := pkceMethod kc;
     onAuthSuccess := onAuthSuccess kc; onAuthError := onAuthError kc;
     onAuthRefreshSuccess := onAuthRefreshSuccess kc;
     onAuthRefreshError := onAuthRefreshError kc;
     onAuthLogout := onAuthLogout kc; onTokenExpired := onTokenExpired kc;
     onActionUpdate := onActionUpdate kc |}.

Definition set_loginRequired v (kc : KeycloakClient) : KeycloakClient :=
  {| authenticated := authenticated kc; subject := subject kc;
     responseMode := responseMode kc; responseType := responseType kc;
     flow := flow kc; realmAccess := realmAccess kc;
     resourceAccess := resourceAccess kc; token := token kc;
     tokenParsed := tokenParsed kc; refreshToken := refreshToken kc;
     refreshTokenParsed := refreshTokenParsed kc; idToken := idToken kc;
     idTokenParsed := idTokenParsed kc; timeSkew := timeSkew kc;
     loginRequired := v; clientId := clientId kc;
     tokenTimeoutHandle := tokenTimeoutHandle kc; endpoints := endpoints kc;
     callbackStorage := callbackStorage kc; refreshQueue := refreshQueue kc;
     useNonce := useNonce kc; pkceMethod := pkceMethod kc;
     onAuthSuccess := onAuthSuccess kc; onAuthError := onAuthError kc;
     onAuthRefreshSuccess := onAuthRefreshSuccess kc;
     onAuthRefreshError := onAuthRefreshError kc;
     onAuthLogout := onAuthLogout kc; onTokenExpired := onTokenExpired kc;
     onActionUpdate := onActionUpdate kc |}.

Definition set_useNonce v (kc : KeycloakClient) : KeycloakClient :=
  {| authenticated := authenticated kc; subject := subject kc;
     responseMode := responseMode kc; responseType := responseType kc;
     flow := flow kc; realmAccess := realmAccess kc;
     resourceAccess := resourceAccess kc; token := token kc;
     tokenParsed := tokenParsed kc; refreshToken := refreshToken kc;
     refreshTokenParsed := refreshTokenParsed kc; idToken := idToken kc;
     idTokenParsed := idTokenParsed kc; timeSkew := timeSkew kc;
     loginRequired := loginRequired kc; clientId := clientId kc;
     tokenTimeoutHandle := tokenTimeoutHandle kc; endpoints := endpoints kc;
     callbackStorage := callbackStorage kc; refreshQueue := refreshQueue kc;
     useNonce := v; pkceMethod := pkceMethod kc;
     onAuthSuccess := onAuthSuccess kc; onAuthError := onAuthError kc;
     onAuthRefreshSuccess := onAuthRefreshSuccess kc;
     onAuthRefreshError := onAuthRefreshError kc;
     onAuthLogout := onAuthLogout kc; onTokenExpired := onTokenExpired kc;
     onActionUpdate := onActionUpdate kc |}.

Definition set_pkceMethod v (kc : KeycloakClient) : KeycloakClient :=
  {| authenticated := authenticated kc; subject := subject kc;
     responseMode := responseMode kc; responseType := responseType kc;
     flow := flow kc; realmAccess := realmAccess kc;
     resourceAccess := resourceAccess kc; token := token kc;
     tokenParsed := tokenParsed kc; refreshToken := refreshToken kc;
     refreshTokenParsed := refreshTokenParsed kc; idToken := idToken kc;
     idTokenParsed := idTokenParsed kc; timeSkew := timeSkew kc;
     loginRequired := loginRequired kc; clientId := clientId kc;
     tokenTimeoutHandle := tokenTimeoutHandle kc; endpoints := endpoints kc;
     callbackStorage := callbackStorage kc; refreshQueue := refreshQueue kc;
     useNonce := useNonce kc; pkceMethod := v;
     onAuthSuccess := onAuthSuccess kc; onAuthError := onAuthError kc;
     onAuthRefreshSuccess := onAuthRefreshSuccess kc;
     onAuthRefreshError := onAuthRefreshError kc;
     onAuthLogout := onAuthLogout kc; onTokenExpired := onTokenExpired kc;
     onActionUpdate := onActionUpdate kc |}.

(** The instance properties that [init] assigns and no other modelled
    method reads or writes. *)
Module ClientSettings.
Record t := mk {
  redirectUri : option string;
  enableLogging : option bool;
}.
End ClientSettings.

(** The values the checks of [init] accept, and the response type of each
    flow. *)
Definition responseMode_of (value : string) : option KeycloakResponseMode :=
  if String.eqb value "query" then Some query
  else if String.eqb value "fragment" then Some fragment
  else None.

Definition flow_of (value : string) : option KeycloakFlow :=
  if String.eqb value "standard" then Some standard
  else if String.eqb value "implicit" then Some implicit
  else if String.eqb value "hybrid" then Some hybrid
  else None.

Definition responseType_of (flow' : KeycloakFlow) : string :=
  match flow' with
  | standard => "code"
  | implicit => "id_token token"
  | hybrid => "code id_token token"
  end.

Definition pkceMethod_of (value : string) : option KeycloakPkceMethod :=
  if String.eqb value "S256" then Some S256 else None.

(** *** [init] (client.ts 120-218), up to its first [await]

    The method is [async]: a [throw] rejects its promise.  The result is
    how the promise ends when it ends in this part, or [None] when the
    method goes on to [await this.loadConfig(...)].  [adapter] tells
    whether the options name an adapter class; the adapter made from it is
    the collaborator the other methods call, its constructor is taken to
    leave the client alone, and [createCallbackStorage] is the storage it
    creates.  Each of the three checked options is assigned only after its
    check. *)

Definition init_responseMode (initOptions : InitOptions.t)
    (kc : KeycloakClient) : option KeycloakClient :=
  match or_undefined (InitOptions.responseMode initOptions) with
  | Some value =>
      match responseMode_of value with
      | Some mode => Some (set_responseMode (Some mode) kc)
      | None => None
      end
  | None => Some kc
  end.

Definition init_flow (initOptions : InitOptions.t) (kc : KeycloakClient)
    : option KeycloakClient :=
  match or_undefined (InitOptions.flow initOptions) with
  | Some value =>
      match flow_of value with
      | Some flow' =>
          Some (set_flow (Some flow')
                  (set_responseType (Some (responseType_of flow')) kc))
      | None => None
      end
  | None => Some kc
  end.

Definition init_pkceMethod (initOptions : InitOptions.t)
    (kc : KeycloakClient) : option KeycloakClient :=
  match or_undefined (InitOptions.pkceMethod initOptions) with
  | Some value =>
      match pkceMethod_of value with
      | Some method => Some (set_pkceMethod (Some method) kc)
      | None => None
      end
  | None => Some kc
  end.

Definition init_configure (initOptions : InitOptions.t)
    (createCallbackStorage : gmap string CallbackState.t)
    (kc : KeycloakClient) (settings : ClientSettings.t)
    : option Completion * KeycloakClient * ClientSettings.t :=
  let kc := set_authenticated (Some false) kc in
  if negb (InitOptions.adapter initOptions) then
    (Some (RejectedWith "Missing Keycloak adapter from initOptions"),
     kc, settings)
  else
    let kc := set_callbackStorage createCallbackStorage kc in
    let kc :=
      match InitOptions.useNonce initOptions with
      | Some value => set_useNonce (Some value) kc
      | None => kc
      end in
    let kc :=
      if strict_eq (of_opt (InitOptions.onLoad initOptions))
           (VStr "login-required")
      then set_loginRequired (Some true) kc else kc in
    match init_responseMode initOptions kc with
    | None =>
        (Some (RejectedWith "Invalid value for responseMode"), kc, settings)
    | Some kc =>
        match init_flow initOptions kc with
        | None => (Some (RejectedWith "Invalid value for flow"), kc, settings)
        | Some kc =>
            let kc :=
              match InitOptions.timeSkew initOptions with
              | Some value => set_timeSkew (Some value) kc
              | None => kc
              end in
            let settings :=
              match or_undefined (InitOptions.redirectUri initOptions) with
              | Some value =>
                  ClientSettings.mk (Some value)
                    (ClientSettings.enableLogging settings)
              | None => settings
              end in
            match init_pkceMethod initOptions kc with
            | None =>
                (Some (RejectedWith "Invalid value for pkceMethod"),
                 kc, settings)
            | Some kc =>
                let settings :=
                  ClientSettings.mk (ClientSettings.redirectUri settings)
                    (Some (nullish (InitOptions.enableLogging initOptions)
                             false)) in
                let kc :=
                  match responseMode kc with
                  | Some _ => kc
                  | None => set_responseMode (Some fragment) kc
                  end in
                let kc :=
                  if truthy (responseType kc) then kc
                  else set_flow (Some standard)
                         (set_responseType (Some "code") kc) in
                (None, kc, settings)
            end
        end
    end.

(** ** Sample collaborators and sessions *)

Module Sample.

Definition clock (n : nat) : Z := 1700000100000 + Z.of_nat n.

Definition claims (nonce' : string) : TokenParsed.t :=
  {| TokenParsed.exp := Some (of_Z 1700000300);
     TokenParsed.iat := Some (of_Z 1700000000);
     TokenParsed.nonce := Some nonce';
     TokenParsed.sub := Some "user-1";
     TokenParsed.realm_access := None;
     TokenParsed.resource_access := None |}.

(** A decoder that throws on ["garbage"], finds no claims in ["null"] and
    otherwise returns claims whose nonce is the raw token. *)
Definition decodeToken (raw : string) : Result (option TokenParsed.t) :=
  if String.eqb raw "garbage" then Throw (External "Invalid token")
  else if String.eqb raw "null" then Ok None
  else Ok (Some (claims raw)).

Definition show (v : JsVal) : string :=
  match v with VStr s => s | _ => "" end.

Definition formatQuerystringParameters (params : JsMap.t) : string :=
  String.concat "&" (map (fun entry => fst entry ++ "=" ++ show (snd entry))
                         params).

Definition adapter_redirectUri (options : option JsMap.t) : string :=
  "https://app/callback".

Definition generatePkceChallenge (method : KeycloakPkceMethod)
    (verifier : string) : string := "challenge-of-" ++ verifier.

Definition Number_toString (n : num) : string := "0".

Definition urls : KeycloakEndpoints :=
  {| authorize := "https://sso/auth";
     token_endpoint := "https://sso/token";
     logout_endpoint := "https://sso/logout";
     register := "https://sso/registrations";
     userinfo := "https://sso/userinfo" |}.

(** A client after [init] with nothing held; every handler is set. *)
Definition fresh_client (flow' : KeycloakFlow) : KeycloakClient :=
  {| authenticated := Some false; subject := None;
     responseMode := Some fragment; responseType := Some "code";
     flow := Some flow'; realmAccess := None; resourceAccess := None;
     token := None; tokenParsed := None;
     refreshToken := None; refreshTokenParsed := None;
     idToken := None; idTokenParsed := None;
     timeSkew := None; loginRequired := None; clientId := "app";
     tokenTimeoutHandle := None; endpoints := urls;
     callbackStorage := ∅; refreshQueue := [];
     useNonce := Some true; pkceMethod := None;
     onAuthSuccess := true; onAuthError := true;
     onAuthRefreshSuccess := true; onAuthRefreshError := true;
     onAuthLogout := true; onTokenExpired := false;
     onActionUpdate := true |}.

(** The same client holding an access and a refresh token. *)
Definition client : KeycloakClient :=
  set_timeSkew (Some (of_Z 0))
    (set_authenticated (Some true)
       (set_refreshTokenParsed (Some (claims "R"))
          (set_refreshToken (Some "R")
             (set_tokenParsed (Some (claims "T"))
                (set_token (Some "T") (fresh_client standard)))))).

Definition world_of (kc : KeycloakClient) : World :=
  {| this := kc; events := []; ticks := 0; inflight := []; fresh := 0 |}.

Definition world : World := world_of client.

(** A login was started: the pending request is stored under its state. *)
Definition pending : CallbackState.t :=
  {| CallbackState.state := "S1";
     CallbackState.nonce := "N1";
     CallbackState.pkceCodeVerifier := None;
     CallbackState.prompt := None;
     CallbackState.redirectUri := "https://app/callback" |}.

Definition waiting_client (flow' : KeycloakFlow) : KeycloakClient :=
  callbackStorage_add pending (fresh_client flow').

Definition callback_url : string := "https://app/callback#code=abc&state=S1".

(** A callback of the hybrid flow that carries an id token whose nonce is
    not the stored one, and no access token. *)
Definition forged_callback_url : string :=
  "https://app/callback#code=abc&state=S1&id_token=N2".

(** Two callers force a refresh; the response has not arrived. *)
Definition busy : World :=
  run_calls clock formatQuerystringParameters
    [Some (of_Z (-1)); Some (of_Z (-1))] world.

Definition network_down : Settled := Throw (External "network down").

Definition invalid_grant : Settled :=
  Ok {| TokenResponse.access_token := None;
        TokenResponse.refresh_token := None;
        TokenResponse.id_token := None;
        TokenResponse.error := Some "invalid_grant" |}.


(** Claims of a member of staff, and a decoder that finds them in every
    token. *)
Definition staff : TokenParsed.t :=
  {| TokenParsed.exp := Some (of_Z 1700000300);
     TokenParsed.iat := Some (of_Z 1700000000);
     TokenParsed.nonce := None;
     TokenParsed.sub := Some "user-2";
     TokenParsed.realm_access := Some {| roles := ["admin"] |};
     TokenParsed.resource_access :=
       Some {[ "app" := {| roles := ["editor"] |} ]} |}.

Definition decodeStaff (raw : string) : Result (option TokenParsed.t) :=
  Ok (Some staff).

(** The token endpoint grants tokens whose claims carry the nonce of the
    pending login. *)
Definition granted : TokenResponse.t :=
  {| TokenResponse.access_token := Some "N1";
     TokenResponse.refresh_token := Some "N1";
     TokenResponse.id_token := None;
     TokenResponse.error := None |}.

(** The readings of the clock so far, as a world of [client]. *)
Definition world_at (n : nat) : World :=
  {| this := client; events := []; ticks := n; inflight := []; fresh := 0 |}.

(** Callbacks of the implicit flow, with an access token whose nonce is the
    stored one and with one whose nonce is not. *)
Definition implicit_callback_url : string :=
  "https://app/callback#access_token=N1&state=S1".

Definition implicit_forged_callback_url : string :=
  "https://app/callback#access_token=N2&state=S1".

(** The user refused the login. *)
Definition denied_callback_url : string :=
  "https://app/callback#error=access_denied&state=S1".

(** A client configured for PKCE. *)
Definition pkce_client : KeycloakClient :=
  {| authenticated := Some false; subject := None;
     responseMode := Some fragment; responseType := Some "code";
     flow := Some standard; realmAccess := None; resourceAccess := None;
     token := None; tokenParsed := None;
     refreshToken := None; refreshTokenParsed := None;
     idToken := None; idTokenParsed := None;
     timeSkew := None; loginRequired := None; clientId := "app";
     tokenTimeoutHandle := None; endpoints := urls;
     callbackStorage := ∅; refreshQueue := [];
     useNonce := Some true; pkceMethod := Some S256;
     onAuthSuccess := true; onAuthError := true;
     onAuthRefreshSuccess := true; onAuthRefreshError := true;
     onAuthLogout := true; onTokenExpired := false;
     onActionUpdate := true |}.

(** Options of [init] that carry the tokens of an earlier session, and
    options that ask for a login. *)
Definition stored : InitOptions.t :=
  {| InitOptions.adapter := true;
     InitOptions.useNonce := None;
     InitOptions.onLoad := Some "check-sso";
     InitOptions.responseMode := None;
     InitOptions.flow := None;
     InitOptions.timeSkew := None;
     InitOptions.redirectUri := None;
     InitOptions.pkceMethod := None;
     InitOptions.enableLogging := None;
     InitOptions.token := Some "T";
     InitOptions.refreshToken := Some "R";
     InitOptions.idToken := None |}.

Definition login_required : InitOptions.t :=
  {| InitOptions.adapter := true;
     InitOptions.useNonce := Some false;
     InitOptions.onLoad := Some "login-required";
     InitOptions.responseMode := Some "query";
     InitOptions.flow := Some "hybrid";
     InitOptions.timeSkew := None;
     InitOptions.redirectUri := None;
     InitOptions.pkceMethod := Some "S256";
     InitOptions.enableLogging := None;
     InitOptions.token := None;
     InitOptions.refreshToken := None;
     InitOptions.idToken := None |}.

(** A client as its constructor leaves it: no property is assigned; the
    client id and the endpoints, which [loadConfig] assigns, and the
    handlers are those of [fresh_client]. *)
Definition constructed : KeycloakClient :=
  {| authenticated := None; subject := None;
     responseMode := None; responseType := None;
     flow := None; realmAccess := None; resourceAccess := None;
     token := None; tokenParsed := None;
     refreshToken := None; refreshTokenParsed := None;
     idToken := None; idTokenParsed := None;
     timeSkew := None; loginRequired := None; clientId := "app";
     tokenTimeoutHandle := None; endpoints := urls;
     callbackStorage := ∅; refreshQueue := [];
     useNonce := None; pkceMethod := None;
     onAuthSuccess := true; onAuthError := true;
     onAuthRefreshSuccess := true; onAuthRefreshError := true;
     onAuthLogout := true; onTokenExpired := false;
     onActionUpdate := true |}.

Definition no_settings : ClientSettings.t :=
  {| ClientSettings.redirectUri := None;
     ClientSettings.enableLogging := None |}.

End Sample.

(** ** The vocabulary of the properties *)

Local Open Scope list_scope.

(** *** Frames: what a method leaves alone, and what it lets be seen *)

(** [m] does not change what [view] shows of the world. *)
Definition keeps {A B} (view : World -> B) (m : M A) : Prop :=
  forall w, view (snd (m w)) = view w.

(** [m] adds effects that all satisfy [Q], and removes none. *)
Definition emits {A} (Q : Event -> Prop) (m : M A) : Prop :=
  forall w, exists evs, events (snd (m w)) = events w ++ evs /\ Forall Q evs.

(** An effect that settles no deferred and calls no [refreshTokens]. *)
Definition quiet (e : Event) : Prop :=
  settlement e = None /\ is_dispatch e = false.

(** The client with the token state and the expiry timer blanked: two
    clients with the same image differ in nothing else. *)
Definition outside_tokens (kc : KeycloakClient) : KeycloakClient :=
  {| authenticated := None; subject := None; responseMode := responseMode kc;
     responseType := responseType kc; flow := flow kc; realmAccess := None;
     resourceAccess := None; token := None; tokenParsed := None;
     refreshToken := None; refreshTokenParsed := None; idToken := None;
     idTokenParsed := None; timeSkew := None;
     loginRequired := loginRequired kc; clientId := clientId kc;
     tokenTimeoutHandle := None; endpoints := endpoints kc;
     callbackStorage := callbackStorage kc; refreshQueue := refreshQueue kc;
     useNonce := useNonce kc; pkceMethod := pkceMethod kc;
     onAuthSuccess := onAuthSuccess kc; onAuthError := onAuthError kc;
     onAuthRefreshSuccess := onAuthRefreshSuccess kc;
     onAuthRefreshError := onAuthRefreshError kc;
     onAuthLogout := onAuthLogout kc; onTokenExpired := onTokenExpired kc;
     onActionUpdate := onActionUpdate kc |}.

(** What a method that only handles tokens leaves alone. *)
Definition bystander (w : World) : KeycloakClient * list num * Deferred :=
  (outside_tokens (this w), inflight w, fresh w).

(** Everything but the count of clock reads. *)
Definition but_ticks (w : World) :=
  (this w, events w, inflight w, fresh w).

(** The raw tokens and their claims. *)
Definition raw_and_parsed (w : World) :=
  (token (this w), tokenParsed (this w),
   refreshToken (this w), refreshTokenParsed (this w),
   idToken (this w), idTokenParsed (this w)).

(** [w] after [this.x = ...]. *)
Definition assigned (f : KeycloakClient -> KeycloakClient) (w : World)
    : World :=
  mkWorld (f (this w)) (events w) (ticks w) (inflight w) (fresh w).

(** *** The token lifecycle *)

(** The verdict of [isTokenExpired] once [expiresIn] is known. *)
Definition verdict (expiresIn : num) (minValidity : option num) : Result bool :=
  match minValidity with
  | Some mv =>
      if truthy mv then
        if isNaN mv then Throw InvalidMinValidity
        else Ok (lt (sub expiresIn mv) (of_Z 0))
      else Ok (lt expiresIn (of_Z 0))
  | None => Ok (lt expiresIn (of_Z 0))
  end.

(** The condition under which [isTokenExpired] does not throw
    ['Not authenticated']. *)
Definition may_query_expiry (kc : KeycloakClient) : bool :=
  truthy (tokenParsed kc)
  && (truthy (refreshToken kc) || bool_decide (flow kc = Some implicit)).

(** The world in which [setToken] starts storing: the timer is cleared. *)
Definition timer_cleared (w : World) : World :=
  if truthy (tokenTimeoutHandle (this w))
  then assigned (set_tokenTimeoutHandle None) (snd (emit ClearTimeout w))
  else w.

(** *** The callback parser *)


(** *** The refresh *)

(** What a call does to the queue, to the pending requests and to the
    effects: it leaves the queue alone, or joins a queue that is not
    empty, or starts the queue and calls [adapter.refreshTokens]. *)
Inductive call_effect (w w' : World) : Prop :=
| call_not_enqueued (evs : list Event) :
    events w' = events w ++ evs ->
    dispatches evs = 0 ->
    refreshQueue (this w') = refreshQueue (this w) ->
    inflight w' = inflight w ->
    fresh w' = S (fresh w) ->
    call_effect w w'
| call_joins :
    events w' = events w ->
    refreshQueue (this w) <> [] ->
    refreshQueue (this w') = refreshQueue (this w) ++ [fresh w] ->
    inflight w' = inflight w ->
    fresh w' = S (fresh w) ->
    call_effect w w'
| call_dispatches (url body : string) (timeLocal : num) :
    events w' = events w ++ [AdapterRefreshTokens url body] ->
    refreshQueue (this w) = [] ->
    refreshQueue (this w') = [fresh w] ->
    inflight w' = inflight w ++ [timeLocal] ->
    fresh w' = S (fresh w) ->
    call_effect w w'.

(** The world after [drain]: the queue is empty and every deferred that was in
    it is settled, the last one first. *)
Definition drained (settle : Deferred -> Event) (w : World) : World :=
  {| this := set_refreshQueue [] (this w);
     events := events w ++ map settle (reverse (refreshQueue (this w)));
     ticks := ticks w; inflight := inflight w; fresh := fresh w |}.

Definition resolve_true (p : Deferred) : Event := Resolve p true.
Definition reject_true (p : Deferred) : Event := Reject p (VBool true).

(** [w'] differs from [w] in token state, timer, clock reads and quiet
    effects only. *)
Definition undisturbed (w w' : World) : Prop :=
  bystander w' = bystander w
  /\ exists evs, events w' = events w ++ evs /\ Forall quiet evs.

(** The world in which the [catch] block starts draining. *)
Definition caught (w : World) : World :=
  if onAuthRefreshError (this w) then snd (emit OnAuthRefreshError w) else w.

(** How the refresh failed, if it did: the call threw, or the response
    carries an [error]. *)
Definition failed (outcome : Settled) : Prop :=
  match outcome with
  | Throw _ => True
  | Ok tokenResponse => truthy (TokenResponse.error tokenResponse) = true
  end.

(** The world in which the suspended method resumes. *)
Definition resumed (w : World) : World :=
  mkWorld (this w) (events w) (ticks w) (tail (inflight w)) (fresh w).

(** Every deferred in the queue is a different one, made before now; and
    either nobody waits and no refresh call is pending, or somebody waits
    and exactly one call is pending. *)
Definition coherent (w : World) : Prop :=
  NoDup (refreshQueue (this w))
  /\ Forall (fun d => d < fresh w) (refreshQueue (this w))
  /\ ((refreshQueue (this w) = [] /\ inflight w = [])
      \/ (refreshQueue (this w) <> []
          /\ exists timeLocal, inflight w = [timeLocal])).

Section Vocabulary.

Variable clock : nat -> Z.
Variable decodeToken : string -> Result (option TokenParsed.t).

(** [expiresIn] of [isTokenExpired] before [minValidity] is subtracted. *)
Definition expiresIn_of (w : World) (skew : num) : num :=
  add (sub (nullish (tokenParsed (this w) ≫= TokenParsed.exp) (of_Z 0))
           (ceil (scale (1 # 1000) (of_Z (clock (ticks w))))))
      skew.

(** A token slot holds [raw] and the claims the decoder returned for it,
    or holds nothing. *)
Definition slot_of (requested : option string)
    (raw : option string) (parsed : option TokenParsed.t) : Prop :=
  raw = or_undefined requested
  /\ (is_Some parsed -> is_Some raw)
  /\ (forall s, raw = Some s -> decodeToken s = Ok parsed).

End Vocabulary.

(** *** What [setToken] commits *)

(** [timeSkew] as [setToken] computes it from [timeLocal] and the [iat]
    claim. *)
Definition skew_of (timeLocal : num) (claims : TokenParsed.t) : num :=
  sub (floor (scale (1 # 1000) timeLocal))
      (nullish (TokenParsed.iat claims) (of_Z 0)).

(** [timeSkew] after [setToken] has stored an access token: a [timeLocal]
    that is given and truthy replaces it. *)
Definition skew_after (timeLocal : option num) (claims : TokenParsed.t)
    (before : option num) : option num :=
  match timeLocal with
  | Some tl => if truthy tl then Some (skew_of tl claims) else before
  | None => before
  end.

(** The delay, in milliseconds, after which the token expires. *)
Definition expiry_delay (claims : TokenParsed.t) (skew now : num) : num :=
  scale 1000
    (add (sub (nullish (TokenParsed.exp claims) (of_Z 0))
              (scale (1 # 1000) now))
         skew).

(** The client after the assignments [setToken] makes once the access
    token [raw] has been decoded to [claims]. *)
Definition adopted (claims : TokenParsed.t) (timeLocal : option num)
    (kc : KeycloakClient) : KeycloakClient :=
  let kc :=
    set_resourceAccess (TokenParsed.resource_access claims)
      (set_realmAccess (TokenParsed.realm_access claims)
         (set_subject (TokenParsed.sub claims)
            (set_authenticated (Some true) kc))) in
  match timeLocal with
  | Some tl =>
      if truthy tl then set_timeSkew (Some (skew_of tl claims)) kc else kc
  | None => kc
  end.

(** The world after the expiry notification of [setToken]. *)
Definition expiry_scheduled (now : num) (claims : TokenParsed.t) (w : World)
    : World :=
  match timeSkew (this w) with
  | None => w
  | Some skew =>
      if onTokenExpired (this w) then
        let w1 :=
          mkWorld (this w) (events w) (S (ticks w)) (inflight w) (fresh w) in
        let expiresIn := expiry_delay claims skew now in
        if le expiresIn (of_Z 0) then snd (emit OnTokenExpired w1)
        else
          assigned (set_tokenTimeoutHandle (Some {| delay := expiresIn |}))
            (snd (emit (SetTimeout expiresIn) w1))
      else w
  end.

(** The client after [delete] of the access token and what derives from
    it. *)
Definition dropped (kc : KeycloakClient) : KeycloakClient :=
  set_authenticated (Some false)
    (set_resourceAccess None
       (set_realmAccess None
          (set_subject None (set_tokenParsed None (set_token None kc))))).

(** The token state of a session that holds nothing, with the skew it
    keeps. *)
Definition logged_out (skew : option num) : TokenState :=
  {| ts_token := None; ts_tokenParsed := None;
     ts_refreshToken := None; ts_refreshTokenParsed := None;
     ts_idToken := None; ts_idTokenParsed := None;
     ts_authenticated := Some false; ts_subject := None;
     ts_realmAccess := None; ts_resourceAccess := None;
     ts_timeSkew := skew |}.

Section Committed.

Variable decodeToken : string -> Result (option TokenParsed.t).

(** The decoder does not throw on the token that is requested. *)
Definition decodes (requested : option string) : Prop :=
  forall s, or_undefined requested = Some s -> exists c, decodeToken s = Ok c.

(** The claims the decoder finds in the token that is requested. *)
Definition claims_of (requested : option string) : option TokenParsed.t :=
  match or_undefined requested with
  | Some s => match decodeToken s with Ok c => c | Throw _ => None end
  | None => None
  end.

(** The token state after [setToken(t, r, i, tl)] has returned normally in
    a session whose skew was [skew]. *)
Definition committed (t r i : option string) (tl : option num)
    (skew : option num) : TokenState :=
  match claims_of t with
  | Some claims =>
      {| ts_token := or_undefined t; ts_tokenParsed := Some claims;
         ts_refreshToken := or_undefined r;
         ts_refreshTokenParsed := claims_of r;
         ts_idToken := or_undefined i; ts_idTokenParsed := claims_of i;
         ts_authenticated := Some true;
         ts_subject := TokenParsed.sub claims;
         ts_realmAccess := TokenParsed.realm_access claims;
         ts_resourceAccess := TokenParsed.resource_access claims;
         ts_timeSkew := skew_after tl claims skew |}
  | None =>
      {| ts_token := None; ts_tokenParsed := None;
         ts_refreshToken := or_undefined r;
         ts_refreshTokenParsed := claims_of r;
         ts_idToken := or_undefined i; ts_idTokenParsed := claims_of i;
         ts_authenticated := Some false; ts_subject := None;
         ts_realmAccess := None; ts_resourceAccess := None;
         ts_timeSkew := skew |}
  end.

(** [setToken(t, r, i)] returns normally: the decoder throws on none of the
    tokens and finds claims in the access token when one is given. *)
Definition storable (t r i : option string) : Prop :=
  decodes r /\ decodes i
  /\ (forall raw, or_undefined t = Some raw ->
                  exists claims, decodeToken raw = Ok (Some claims)).

End Committed.

(** What [setToken] does about expiry once the pending timer is cleared,
    as the effects [fired] and the timer handle it leaves: nothing, or the
    [onTokenExpired] handler is called at once, or one timer is armed with
    a delay that is not [<= 0] and its handle is kept. *)
Definition expiry_outcome (fired : list Event) (handle : option Timeout)
    : Prop :=
  (fired = [] /\ handle = None)
  \/ (fired = [OnTokenExpired] /\ handle = None)
  \/ (exists expiresIn,
        fired = [SetTimeout expiresIn]
        /\ le expiresIn (of_Z 0) = false
        /\ handle = Some {| delay := expiresIn |}).

(** The effects seen, the timer handle and whether expiry is listened
    to. *)
Definition timer_view (w : World) :=
  (events w, tokenTimeoutHandle (this w), onTokenExpired (this w)).

(** The client after [setToken(null, null, null)]. *)
Definition signed_out (kc : KeycloakClient) : KeycloakClient :=
  dropped
    (set_idTokenParsed None
       (set_idToken None
          (set_refreshTokenParsed None (set_refreshToken None kc)))).

(** The refresh succeeds: the token endpoint answers without an [error]
    and [setToken] accepts the tokens of the answer. *)
Definition succeeded (decodeToken : string -> Result (option TokenParsed.t))
    (outcome : Settled) : Prop :=
  match outcome with
  | Ok tokenResponse =>
      truthy (TokenResponse.error tokenResponse) = false
      /\ storable decodeToken (TokenResponse.access_token tokenResponse)
           (TokenResponse.refresh_token tokenResponse)
           (TokenResponse.id_token tokenResponse)
  | Throw _ => False
  end.

(** *** The commit step *)

(** An effect of the expiry timer. *)
Definition timer_event (e : Event) : Prop :=
  match e with
  | ClearTimeout | OnTokenExpired | SetTimeout _ => True
  | _ => False
  end.

(** Some claims held by the session carry a nonce that is not the stored
    one: the condition of [authSuccess]. *)
Definition nonce_mismatch (kc : KeycloakClient) (oauthObj : OAuthResponse)
    : bool :=
  nonce_differs (tokenParsed kc) oauthObj
  || nonce_differs (refreshTokenParsed kc) oauthObj
  || nonce_differs (idTokenParsed kc) oauthObj.

(** The world after a clock reading. *)
Definition ticked (w : World) : World :=
  mkWorld (this w) (events w) (S (ticks w)) (inflight w) (fresh w).

(** The [timeLocal] that [authSuccess] and the refresh pass to [setToken]:
    the midpoint between [timeLocal] and the clock reading of [w]. *)
Definition midpoint (clock : nat -> Z) (timeLocal : num) (w : World) : num :=
  scale (1 # 2) (add timeLocal (of_Z (clock (ticks w)))).

(** *** The callback *)

(** The world after [processCallback] has passed [kc_action_status] on to
    the [onActionUpdate] handler. *)
Definition announced (oauth : OAuthResponse) (w : World) : World :=
  if truthy (prop oauth "kc_action_status") && onActionUpdate (this w)
  then snd (emit (OnActionUpdate (prop oauth "kc_action_status")) w)
  else w.

(** The condition of the fast path of [processCallback]: outside the
    standard flow, the callback carries an access or an id token. *)
Definition carries_tokens (kc : KeycloakClient) (oauth : OAuthResponse)
    : bool :=
  negb (bool_decide (flow kc = Some standard))
  && (truthy (prop oauth "access_token") || truthy (prop oauth "id_token")).

(** The response of the token endpoint merged into the callback
    parameters, as [processCallback] passes it to [authSuccess]. *)
Definition with_tokens (tokenResponse : TokenResponse.t)
    (oauth : OAuthResponse) : OAuthResponse :=
  <["id_token" :=
      of_opt (or_undefined (TokenResponse.id_token tokenResponse))]>
  (<["refresh_token" :=
       of_opt (or_undefined (TokenResponse.refresh_token tokenResponse))]>
   (<["access_token" :=
        of_opt (or_undefined (TokenResponse.access_token tokenResponse))]>
    oauth)).

(** The calls of [adapter.fetchTokens] among the effects, as the URL and
    the body of each. *)
Definition fetch_call (e : Event) : option (string * string) :=
  match e with
  | AdapterFetchTokens url body => Some (url, body)
  | _ => None
  end.

Definition fetch_calls (evs : list Event) : list (string * string) :=
  omap fetch_call evs.

(** *** Starting with stored tokens *)

(** Which handlers are set, and whether login is required. *)
Definition handlers (w : World) :=
  (onAuthSuccess (this w), onAuthError (this w),
   onAuthRefreshSuccess (this w), onAuthRefreshError (this w),
   onAuthLogout (this w), loginRequired (this w)).

(** The world after a forced [updateToken] that found the queue empty:
    the deferred is queued, [adapter.refreshTokens] is called and the
    method waits for the answer. *)
Definition dispatched (clock : nat -> Z)
    (formatQuerystringParameters : JsMap.t -> string) (w : World) : World :=
  {| this := set_refreshQueue [fresh w] (this w);
     events :=
       events w
       ++ [AdapterRefreshTokens (token_endpoint (endpoints (this w)))
             (formatQuerystringParameters (refresh_params (this w)))];
     ticks := S (ticks w);
     inflight := inflight w ++ [of_Z (clock (ticks w))];
     fresh := S (fresh w) |}.

(** The options carry an access and a refresh token that [setToken]
    accepts. *)
Definition stored_tokens
    (decodeToken : string -> Result (option TokenParsed.t))
    (initOptions : InitOptions.t) : Prop :=
  truthy (InitOptions.token initOptions) = true
  /\ truthy (InitOptions.refreshToken initOptions) = true
  /\ storable decodeToken (InitOptions.token initOptions)
       (InitOptions.refreshToken initOptions)
       (InitOptions.idToken initOptions).

(** Nobody waits for a refresh and no refresh call is pending. *)
Definition idle (w : World) : Prop :=
  refreshQueue (this w) = [] /\ inflight w = [].

(** An effect that neither settles a deferred nor tells a handler how the
    authentication ended. *)
Definition not_a_verdict (e : Event) : Prop :=
  settlement e = None
  /\ e <> OnAuthSuccess
  /\ forall error description, e <> OnAuthError error description.

(** *** Configuration by [init] *)

(** The flow and the response type of a client agree: both are unset, or
    the response type is the one [init] assigns with the flow. *)
Definition flow_agrees (kc : KeycloakClient) : Prop :=
  match flow kc, responseType kc with
  | Some flow', Some type => type = responseType_of flow'
  | None, None => True
  | _, _ => False
  end.

(** An option that [init] checks is not given, is empty, or is one of the
    values allowed. *)
Definition absent_or_in (allowed : list string) (value : option string)
    : Prop :=
  match or_undefined value with
  | Some given => given ∈ allowed
  | None => True
  end.

(** The value a checked option stands for, when it is given and allowed. *)
Definition chosen {A} (read : string -> option A) (value : option string)
    : option A :=
  or_undefined value ≫= read.

(** What [init] settles about the protocol: the properties that its checked
    options and its defaults decide. *)
Definition protocol (kc : KeycloakClient) :=
  (authenticated kc, responseMode kc, responseType kc, flow kc,
   callbackStorage kc).

(** ** Properties *)

(** *** Arithmetic of [num] *)

Lemma Qle_bool_false (x y : Q) : Qle_bool x y = false -> (y < x)%Q.
Proof.
  intros H. apply Qnot_le_lt. intros Hle.
  apply Qle_bool_iff in Hle. congruence.
Qed.

Lemma Qltb_true (x y : Q) : Qltb x y = true <-> (x < y)%Q.
Proof.
  unfold Qltb. split.
  - intros H. apply negb_true_iff in H. now apply Qle_bool_false.
  - intros H. apply negb_true_iff. destruct (Qle_bool y x) eqn:E; [|done].
    apply Qle_bool_iff in E. lra.
Qed.

Lemma verdict_monotone (e m1 m2 : num) :
  verdict e (Some m1) = Ok true ->
  ge m2 m1 = true ->
  verdict e (Some m2) = Ok true.
Proof.
  unfold verdict, ge, truthy, num_truthy.
  destruct m1 as [| | |q1], m2 as [| | |q2], e as [| | |x]; simpl;
    try discriminate; try done;
    repeat match goal with
      | |- context [Qeq_bool ?q 0] => destruct (Qeq_bool q 0) eqn:?
      end; simpl; try discriminate; try done.
  (* what is left has [e], [m1] and [m2] finite *)
  all: intros H1 Hle; apply Qle_bool_iff in Hle;
    injection H1 as H1; apply Qltb_true in H1; f_equal; apply Qltb_true;
    repeat match goal with
      | H : Qeq_bool _ _ = true |- _ => apply Qeq_bool_eq in H
      end;
    unfold inject_Z in *; lra.
Qed.

(** *** The monad and its frames *)

Lemma run_bind {A B} (m : M A) (f : A -> M B) (w : World) :
  (m ≫= f) w =
    match m w with
    | (Ok a, w') => f a w'
    | (Throw e, w') => (Throw e, w')
    end.
Proof. reflexivity. Qed.

Lemma notify_run (handler : KeycloakClient -> bool) (e : Event) (w : World) :
  notify handler e w
  = (Ok tt, if handler (this w) then snd (emit e w) else w).
Proof.
  unfold notify. rewrite run_bind.
  change (get_this w) with (Ok (this w), w). cbv beta iota.
  by destruct (handler (this w)).
Qed.

Section Frames.

Context {B : Type} (view : World -> B).

Lemma keeps_ret {A} (a : A) : keeps view (mret a).
Proof. intros w. reflexivity. Qed.

Lemma keeps_throw {A} (e : Exn) : keeps view (@throw A e).
Proof. intros w. reflexivity. Qed.

Lemma keeps_get_this : keeps view get_this.
Proof. intros w. reflexivity. Qed.

Lemma keeps_bind {A C} (m : M A) (f : A -> M C) :
  keeps view m -> (forall a, keeps view (f a)) -> keeps view (m ≫= f).
Proof.
  intros Hm Hf w. rewrite run_bind. specialize (Hm w).
  destruct (m w) as [[a|e] w']; simpl in *; [|done].
  rewrite <- Hm. apply Hf.
Qed.

Lemma keeps_try_catch {A} (m : M A) (h : Exn -> M A) :
  keeps view m -> (forall e, keeps view (h e)) -> keeps view (try_catch m h).
Proof.
  intros Hm Hh w. unfold try_catch. specialize (Hm w).
  destruct (m w) as [[a|e] w']; simpl in *; [done|].
  rewrite <- Hm. apply Hh.
Qed.

Lemma keeps_when (c : bool) (m : M unit) :
  keeps view m -> keeps view (when c m).
Proof. intros Hm. destruct c; [exact Hm | apply keeps_ret]. Qed.

Lemma keeps_modify (f : KeycloakClient -> KeycloakClient) :
  (forall w, view (snd (modify f w)) = view w) -> keeps view (modify f).
Proof. intros H w. apply H. Qed.

Lemma keeps_emit (e : Event) :
  (forall w, view (snd (emit e w)) = view w) -> keeps view (emit e).
Proof. intros H w. apply H. Qed.

Lemma keeps_notify (handler : KeycloakClient -> bool) (e : Event) :
  (forall w, view (snd (emit e w)) = view w) ->
  keeps view (notify handler e).
Proof.
  intros H. unfold notify. apply keeps_bind; [apply keeps_get_this|].
  intros kc. destruct (handler kc); [by apply keeps_emit | apply keeps_ret].
Qed.

Lemma keeps_getTime (clock : nat -> Z) :
  (forall w, view (snd (getTime clock w)) = view w) ->
  keeps view (getTime clock).
Proof. intros H w. apply H. Qed.

Lemma keeps_call_decodeToken decodeToken (raw : string) :
  keeps view (call_decodeToken decodeToken raw).
Proof.
  unfold call_decodeToken.
  destruct (decodeToken raw); [apply keeps_ret | apply keeps_throw].
Qed.

End Frames.

Section Effects.

Context (Q : Event -> Prop).

Lemma emits_silent {A} (m : M A) :
  keeps events m -> emits Q m.
Proof.
  intros H w. exists []. rewrite H, app_nil_r. by split.
Qed.

Lemma emits_bind {A C} (m : M A) (f : A -> M C) :
  emits Q m -> (forall a, emits Q (f a)) -> emits Q (m ≫= f).
Proof.
  intros Hm Hf w. rewrite run_bind. destruct (Hm w) as (evs & E & HQ).
  destruct (m w) as [[a|e] w']; simpl in *; [|by exists evs].
  destruct (Hf a w') as (evs' & E' & HQ'). exists (evs ++ evs').
  rewrite E', E, app_assoc. split; [done | by apply Forall_app].
Qed.

Lemma emits_try_catch {A} (m : M A) (h : Exn -> M A) :
  emits Q m -> (forall e, emits Q (h e)) -> emits Q (try_catch m h).
Proof.
  intros Hm Hh w. unfold try_catch. destruct (Hm w) as (evs & E & HQ).
  destruct (m w) as [[a|e] w']; simpl in *; [by exists evs|].
  destruct (Hh e w') as (evs' & E' & HQ'). exists (evs ++ evs').
  rewrite E', E, app_assoc. split; [done | by apply Forall_app].
Qed.

Lemma emits_when (c : bool) (m : M unit) :
  emits Q m -> emits Q (when c m).
Proof.
  intros Hm. destruct c; [exact Hm|]. apply emits_silent, keeps_ret.
Qed.

Lemma emits_emit (e : Event) : Q e -> emits Q (emit e).
Proof. intros He w. exists [e]. split; [done | by constructor]. Qed.

Lemma emits_notify (handler : KeycloakClient -> bool) (e : Event) :
  Q e -> emits Q (notify handler e).
Proof.
  intros He. unfold notify.
  apply emits_bind; [apply emits_silent, keeps_get_this|].
  intros kc. destruct (handler kc); [by apply emits_emit|].
  apply emits_silent, keeps_ret.
Qed.

End Effects.

(** Descend through the structure of a method.  A method that is not one of
    the primitives is looked up among the lemmas already proved, and opened
    when none applies. *)
Create HintDb frames.

Ltac head_of t :=
  lazymatch t with
  | ?f _ => head_of f
  | _ => t
  end.

Ltac frame_step :=
  lazymatch goal with
  | |- keeps _ (mret _) => apply keeps_ret
  | |- keeps _ (throw _) => apply keeps_throw
  | |- keeps _ get_this => apply keeps_get_this
  | |- keeps _ (call_decodeToken _ _) => apply keeps_call_decodeToken
  | |- keeps _ (_ ≫= _) => apply keeps_bind; [|intros ?]
  | |- keeps _ (try_catch _ _) => apply keeps_try_catch; [|intros ?]
  | |- keeps _ (when _ _) => apply keeps_when
  | |- keeps _ (modify _) => apply keeps_modify; intros ?; reflexivity
  | |- keeps _ (emit _) => apply keeps_emit; intros ?; reflexivity
  | |- keeps _ (notify _ _) => apply keeps_notify; intros ?; reflexivity
  | |- keeps _ (getTime _) => apply keeps_getTime; intros ?; reflexivity
  | |- keeps _ (match ?x with _ => _ end) => destruct x
  | |- keeps _ ?m =>
      first [ solve [auto with frames]
            | let h := head_of m in unfold h ]
  end.

Ltac frame := repeat frame_step.

Ltac effects_step :=
  lazymatch goal with
  | |- emits _ (_ ≫= _) => apply emits_bind; [|intros ?]
  | |- emits _ (try_catch _ _) => apply emits_try_catch; [|intros ?]
  | |- emits _ (when _ _) => apply emits_when
  | |- emits _ (emit _) => apply emits_emit; by split
  | |- emits _ (notify _ _) => apply emits_notify; by split
  | |- emits _ (match ?x with _ => _ end) => destruct x
  | |- emits _ (mret _) => apply emits_silent, keeps_ret
  | |- emits _ (throw _) => apply emits_silent, keeps_throw
  | |- emits _ get_this => apply emits_silent, keeps_get_this
  | |- emits _ (call_decodeToken _ _) =>
      apply emits_silent, keeps_call_decodeToken
  | |- emits _ (modify _) => apply emits_silent, keeps_modify; by intros ?
  | |- emits _ (getTime _) => apply emits_silent, keeps_getTime; by intros ?
  | |- emits _ ?m =>
      first [ solve [auto with frames]
            | let h := head_of m in unfold h ]
  end.

Ltac effects := repeat effects_step.

Lemma bystander_refreshQueue (w w' : World) :
  bystander w' = bystander w -> refreshQueue (this w') = refreshQueue (this w).
Proof.
  intros H. change (refreshQueue (outside_tokens (this w'))
                    = refreshQueue (outside_tokens (this w))).
  unfold bystander in H. congruence.
Qed.

Lemma bystander_inflight (w w' : World) :
  bystander w' = bystander w -> inflight w' = inflight w.
Proof. unfold bystander. congruence. Qed.

Lemma bystander_fresh (w w' : World) :
  bystander w' = bystander w -> fresh w' = fresh w.
Proof. unfold bystander. congruence. Qed.

Lemma bystander_onAuthRefreshError (w w' : World) :
  bystander w' = bystander w ->
  onAuthRefreshError (this w') = onAuthRefreshError (this w).
Proof.
  intros H. change (onAuthRefreshError (outside_tokens (this w'))
                    = onAuthRefreshError (outside_tokens (this w))).
  unfold bystander in H. congruence.
Qed.

Lemma set_refreshQueue_same (kc : KeycloakClient) (q : list Deferred) :
  refreshQueue kc = q -> set_refreshQueue q kc = kc.
Proof. intros <-. by destruct kc. Qed.

(** *** Reading the effects *)

Lemma new_events_app (w w' : World) (evs : list Event) :
  events w' = events w ++ evs -> new_events w w' = evs.
Proof. intros E. unfold new_events. by rewrite E, drop_app_length. Qed.

Lemma settled_app (evs evs' : list Event) :
  settled (evs ++ evs') = settled evs ++ settled evs'.
Proof. apply omap_app. Qed.

Lemma settled_cons (e : Event) (evs : list Event) :
  settled (e :: evs)
  = match settlement e with
    | Some s => s :: settled evs
    | None => settled evs
    end.
Proof. reflexivity. Qed.

Lemma settled_quiet (evs : list Event) : Forall quiet evs -> settled evs = [].
Proof.
  induction 1 as [|e evs [He _] _ IH]; [done|].
  by rewrite settled_cons, He.
Qed.

Lemma settled_map (settle : Deferred -> Event) (o : Outcome)
    (q : list Deferred) :
  (forall d, settlement (settle d) = Some (d, o)) ->
  settled (map settle q) = map (fun d => (d, o)) q.
Proof.
  intros H. induction q as [|d q IH]; [done|].
  cbn [map]. by rewrite settled_cons, H, IH.
Qed.

Lemma dispatches_app (evs evs' : list Event) :
  dispatches (evs ++ evs') = dispatches evs + dispatches evs'.
Proof. unfold dispatches. by rewrite filter_app, length_app. Qed.

Lemma dispatches_quiet (evs : list Event) :
  Forall quiet evs -> dispatches evs = 0.
Proof.
  induction 1 as [|e evs [_ He] _ IH]; [done|].
  unfold dispatches in *. rewrite filter_cons.
  destruct (decide (is_dispatch e = true)); [congruence | done].
Qed.

Lemma dispatches_map (settle : Deferred -> Event) (q : list Deferred) :
  (forall d, is_dispatch (settle d) = false) ->
  dispatches (map settle q) = 0.
Proof.
  intros H. induction q as [|d q IH]; [done|].
  unfold dispatches in *. cbn [map]. rewrite filter_cons.
  destruct (decide (is_dispatch (settle d) = true)) as [E|]; [|done].
  rewrite H in E. discriminate.
Qed.

(** *** [Map] *)

Lemma JsMap_get_set_eq (key : string) (v : JsVal) (m : JsMap.t) :
  JsMap.get key (JsMap.set key v m) = Some v.
Proof.
  induction m as [|[k x] m IH]; cbn.
  - by rewrite String.eqb_refl.
  - destruct (String.eqb k key) eqn:E; cbn; rewrite E; [done | exact IH].
Qed.

Lemma JsMap_get_set_ne (key key' : string) (v : JsVal) (m : JsMap.t) :
  key <> key' -> JsMap.get key' (JsMap.set key v m) = JsMap.get key' m.
Proof.
  intros Hne. induction m as [|[k x] m IH]; cbn.
  - destruct (String.eqb key key') eqn:E; [|done].
    by apply String.eqb_eq in E.
  - destruct (String.eqb k key) eqn:E; cbn.
    + apply String.eqb_eq in E as ->.
      destruct (String.eqb key key') eqn:E'; [|done].
      by apply String.eqb_eq in E'.
    + by rewrite IH.
Qed.

Section Properties.

Variable clock : nat -> Z.
Variable decodeToken : string -> Result (option TokenParsed.t).
Variable formatQuerystringParameters : JsMap.t -> string.
Variable adapter_redirectUri : option JsMap.t -> string.
Variable generatePkceChallenge : KeycloakPkceMethod -> string -> string.
Variable Number_toString : num -> string.

(** **** Expiry queries *)

Lemma isTokenExpired_result (w : World) (minValidity : option num) :
  result_of (isTokenExpired clock minValidity) w =
    if may_query_expiry (this w) then
      match timeSkew (this w) with
      | None => Ok true
      | Some skew => verdict (expiresIn_of clock w skew) minValidity
      end
    else Throw NotAuthenticated.
Proof.
  unfold result_of, isTokenExpired, may_query_expiry, expiresIn_of,
    verdict, mbind, M_bind, mret, M_ret, get_this, throw, getTime.
  simpl.
  destruct (truthy (tokenParsed (this w))); simpl; [|done].
  destruct (truthy (refreshToken (this w))); simpl;
    [|destruct (bool_decide (flow (this w) = Some implicit)); simpl; [|done]];
    (destruct (timeSkew (this w)) as [skew|]; simpl; [|done];
     destruct minValidity as [mv|]; simpl; [|done];
     destruct (truthy mv); simpl; [|done];
     destruct (isNaN mv); done).
Qed.

(** C9: for the same claims, skew and clock reading, if
    [isTokenExpired(m1)] returns true and [m2 >= m1], then
    [isTokenExpired(m2)] returns true. *)
Theorem isTokenExpired_monotone (w : World) (m1 m2 : num) :
  result_of (isTokenExpired clock (Some m1)) w = Ok true ->
  ge m2 m1 = true ->
  result_of (isTokenExpired clock (Some m2)) w = Ok true.
Proof.
  rewrite !isTokenExpired_result.
  destruct (may_query_expiry (this w)); [|discriminate].
  destruct (timeSkew (this w)) as [skew|]; [|done].
  apply verdict_monotone.
Qed.

(** C8, amended: with the ['Not authenticated'] precondition satisfied and
    [minValidity] positive or negative infinity, [isTokenExpired] does not
    fail.  It returns true when [timeSkew] is unknown, and otherwise whether
    [exp - ceil(now / 1000) + timeSkew - minValidity < 0], which for finite
    [exp] and [timeSkew] is true at positive and false at negative
    infinity. *)
Theorem isTokenExpired_infinite_minValidity (w : World) (mv : num) :
  mv = PInf \/ mv = NInf ->
  may_query_expiry (this w) = true ->
  result_of (isTokenExpired clock (Some mv)) w =
    Ok (match timeSkew (this w) with
        | None => true
        | Some skew => lt (sub (expiresIn_of clock w skew) mv) (of_Z 0)
        end)
  /\ (forall skew,
        timeSkew (this w) = Some skew ->
        isFinite (expiresIn_of clock w skew) = true ->
        result_of (isTokenExpired clock (Some mv)) w
        = Ok (match mv with PInf => true | _ => false end)).
Proof.
  intros Hmv Hpre. rewrite isTokenExpired_result, Hpre.
  destruct (timeSkew (this w)) as [skew|].
  - split.
    + destruct Hmv as [-> | ->]; reflexivity.
    + intros ? [= <-] Hfin.
      destruct (expiresIn_of clock w skew); try discriminate.
      destruct Hmv as [-> | ->]; reflexivity.
  - split; [reflexivity | discriminate].
Qed.

(** **** The token lifecycle leaves the queue and the pending calls alone *)

Lemma setToken_bystander t r i tl :
  keeps bystander (setToken clock decodeToken t r i tl).
Proof. frame. Qed.

Lemma setToken_quiet t r i tl :
  emits quiet (setToken clock decodeToken t r i tl).
Proof. effects. Qed.

Hint Resolve setToken_bystander setToken_quiet : frames.

Lemma clearToken_bystander : keeps bystander (clearToken clock decodeToken).
Proof. frame. Qed.

Lemma clearToken_quiet : emits quiet (clearToken clock decodeToken).
Proof. effects. Qed.

Hint Resolve clearToken_bystander clearToken_quiet : frames.

(** **** What [setToken] stores *)

Lemma store_refreshToken_run (r : option string) (w : World) :
  store_refreshToken decodeToken r w =
    match or_undefined r with
    | None =>
        (Ok tt,
         assigned (fun kc => set_refreshTokenParsed None
                               (set_refreshToken None kc)) w)
    | Some raw =>
        match decodeToken raw with
        | Ok c =>
            (Ok tt,
             assigned (fun kc => set_refreshTokenParsed c
                                   (set_refreshToken (Some raw) kc)) w)
        | Throw e => (Throw e, assigned (set_refreshToken (Some raw)) w)
        end
    end.
Proof.
  unfold store_refreshToken, call_decodeToken.
  destruct (or_undefined r) as [raw|]; [|reflexivity].
  rewrite !run_bind. cbn [modify]. by destruct (decodeToken raw).
Qed.

Lemma store_idToken_run (i : option string) (w : World) :
  store_idToken decodeToken i w =
    match or_undefined i with
    | None =>
        (Ok tt,
         assigned (fun kc => set_idTokenParsed None (set_idToken None kc)) w)
    | Some raw =>
        match decodeToken raw with
        | Ok c =>
            (Ok tt,
             assigned (fun kc => set_idTokenParsed c
                                   (set_idToken (Some raw) kc)) w)
        | Throw e => (Throw e, assigned (set_idToken (Some raw)) w)
        end
    end.
Proof.
  unfold store_idToken, call_decodeToken.
  destruct (or_undefined i) as [raw|]; [|reflexivity].
  rewrite !run_bind. cbn [modify]. by destruct (decodeToken raw).
Qed.

Lemma adopt_claims_raw_and_parsed claims tl :
  keeps raw_and_parsed (adopt_claims clock claims tl).
Proof. frame. Qed.

Lemma store_token_run (t : option string) (tl : option num) (w : World) :
  store_token clock decodeToken t tl w =
    match or_undefined t with
    | None => drop_token w
    | Some raw =>
        match decodeToken raw with
        | Ok (Some claims) =>
            adopt_claims clock claims tl
              (assigned (fun kc => set_tokenParsed (Some claims)
                                     (set_token (Some raw) kc)) w)
        | Ok None =>
            (Throw MalformedToken,
             assigned (fun kc => set_tokenParsed None
                                   (set_token (Some raw) kc)) w)
        | Throw e => (Throw e, assigned (set_token (Some raw)) w)
        end
    end.
Proof.
  unfold store_token, call_decodeToken.
  destruct (or_undefined t) as [raw|]; [|reflexivity].
  rewrite !run_bind. cbn [modify].
  by destruct (decodeToken raw) as [[claims|]|e].
Qed.

Lemma setToken_run t r i tl (w : World) :
  setToken clock decodeToken t r i tl w =
    (store_refreshToken decodeToken r;;
     store_idToken decodeToken i;;
     store_token clock decodeToken t tl) (timer_cleared w).
Proof.
  unfold setToken, timer_cleared. rewrite run_bind.
  change (get_this w) with (Ok (this w), w). cbv beta iota.
  rewrite (run_bind (when _ _)).
  by destruct (truthy (tokenTimeoutHandle (this w))).
Qed.

Lemma slot_of_stored (requested : option string) (s : string)
    (c : option TokenParsed.t) :
  or_undefined requested = Some s ->
  decodeToken s = Ok c ->
  slot_of decodeToken requested (Some s) c.
Proof.
  intros E D. repeat split; [done | eauto |].
  by intros ? [= <-].
Qed.

Lemma slot_of_empty (requested : option string) :
  or_undefined requested = None -> slot_of decodeToken requested None None.
Proof. intros E. repeat split; [done | by intros [? [=]] | done]. Qed.

Lemma store_token_pairs (t : option string) (tl : option num) (w : World) :
  fst (store_token clock decodeToken t tl w) = Ok tt ->
  let w' := snd (store_token clock decodeToken t tl w) in
  (is_Some (token (this w')) <-> is_Some (tokenParsed (this w')))
  /\ refreshToken (this w') = refreshToken (this w)
  /\ refreshTokenParsed (this w') = refreshTokenParsed (this w)
  /\ idToken (this w') = idToken (this w)
  /\ idTokenParsed (this w') = idTokenParsed (this w).
Proof.
  rewrite store_token_run. destruct (or_undefined t) as [raw|].
  - destruct (decodeToken raw) as [[claims|]|e]; try discriminate.
    intros _. set (w1 := assigned _ w).
    pose proof (adopt_claims_raw_and_parsed claims tl w1) as K.
    unfold raw_and_parsed in K. injection K as K1 K2 K3 K4 K5 K6.
    cbv zeta. rewrite K1, K2, K3, K4, K5, K6.
    repeat split; eauto.
  - intros _. cbn. repeat split; by intros [? [=]].
Qed.

Lemma store_idToken_then_token (t i : option string) (tl : option num)
    (w : World) :
  fst ((store_idToken decodeToken i;;
        store_token clock decodeToken t tl) w) = Ok tt ->
  let w' := snd ((store_idToken decodeToken i;;
                  store_token clock decodeToken t tl) w) in
  (is_Some (token (this w')) <-> is_Some (tokenParsed (this w')))
  /\ refreshToken (this w') = refreshToken (this w)
  /\ refreshTokenParsed (this w') = refreshTokenParsed (this w)
  /\ slot_of decodeToken i (idToken (this w')) (idTokenParsed (this w')).
Proof.
  rewrite run_bind, store_idToken_run.
  destruct (or_undefined i) as [raw|] eqn:Ei;
    [destruct (decodeToken raw) as [c|e] eqn:D; [|discriminate]|];
    intros Hok; set (w1 := assigned _ w) in *;
    destruct (store_token_pairs t tl w1 Hok) as (Hp & K1 & K2 & K3 & K4);
    cbv zeta; rewrite K1, K2, K3, K4;
    (split; [exact Hp|]); (split; [reflexivity|]); (split; [reflexivity|]).
  - by apply slot_of_stored.
  - by apply slot_of_empty.
Qed.

(** C7, amended: after a [setToken] call that returns normally, the
    access token has claims if and only if it has a raw string; for the
    refresh and the id token, claims exist only if the raw string exists,
    and they are exactly what the decoder returned for it, so a decoder
    that finds no claims leaves the raw token without claims. *)
Theorem setToken_pairing t r i tl (w : World) :
  result_of (setToken clock decodeToken t r i tl) w = Ok tt ->
  let kc := this (exec (setToken clock decodeToken t r i tl) w) in
  (is_Some (token kc) <-> is_Some (tokenParsed kc))
  /\ (is_Some (refreshTokenParsed kc) -> is_Some (refreshToken kc))
  /\ (is_Some (idTokenParsed kc) -> is_Some (idToken kc))
  /\ refreshToken kc = or_undefined r
  /\ idToken kc = or_undefined i
  /\ (forall raw, refreshToken kc = Some raw ->
                  decodeToken raw = Ok (refreshTokenParsed kc))
  /\ (forall raw, idToken kc = Some raw ->
                  decodeToken raw = Ok (idTokenParsed kc)).
Proof.
  unfold result_of, exec. rewrite setToken_run.
  generalize (timer_cleared w). clear w. intros w.
  rewrite run_bind, store_refreshToken_run.
  destruct (or_undefined r) as [raw|] eqn:Er;
    [destruct (decodeToken raw) as [c|e] eqn:D; [|discriminate]|];
    intros Hok; set (w1 := assigned _ w) in *;
    destruct (store_idToken_then_token t i tl w1 Hok)
      as (Hp & K1 & K2 & Hi1 & Hi2 & Hi3);
    cbv zeta; rewrite K1, K2.
  - destruct (slot_of_stored r raw c Er D) as (Hr1 & Hr2 & Hr3).
    split; [exact Hp|]. split; [exact Hr2|]. split; [exact Hi2|].
    split; [reflexivity|]. split; [exact Hi1|]. split; [exact Hr3 | exact Hi3].
  - destruct (slot_of_empty r Er) as (Hr1 & Hr2 & Hr3).
    split; [exact Hp|]. split; [exact Hr2|]. split; [exact Hi2|].
    split; [reflexivity|]. split; [exact Hi1|]. split; [exact Hr3 | exact Hi3].
Qed.

(** **** The code exchange *)

(** C5: if the authorization-code exchange call fails during
    [processCallback], the auth-error notification is emitted, the call
    fails with [TokenExchangeError], and the token state of the session
    (in fact the whole client object) is as it was before the call. *)
Theorem processCallback_exchange_failure (w : World) (oauth : OAuthResponse)
    (err : Exn) :
  exchanges_code (this w) oauth = true ->
  let m := processCallback clock decodeToken formatQuerystringParameters
             oauth (Throw err) in
  result_of m w = Throw (TokenExchangeError err)
  /\ token_state (this (exec m w)) = token_state (this w)
  /\ this (exec m w) = this w
  /\ new_events w (exec m w)
     = (if truthy (prop oauth "kc_action_status") && onActionUpdate (this w)
        then [OnActionUpdate (prop oauth "kc_action_status")] else [])
       ++ [AdapterFetchTokens (token_endpoint (endpoints (this w)))
             (formatQuerystringParameters (exchange_params (this w) oauth))]
       ++ (if onAuthError (this w)
           then [OnAuthError (inr err)
                   "Failed to refresh token during callback processing"]
           else []).
Proof.
  unfold exchanges_code. intros H.
  apply andb_prop in H as [H Hcode]. apply andb_prop in H as [Herr Hfast].
  apply negb_true_iff in Herr, Hfast.
  cbv zeta. unfold result_of, exec, processCallback.
  rewrite run_bind.
  change (getTime clock w) with
    (Ok (of_Z (clock (ticks w))),
     mkWorld (this w) (events w) (S (ticks w)) (inflight w) (fresh w)).
  cbv beta iota zeta. rewrite Herr.
  rewrite run_bind.
  set (w0 := mkWorld _ _ _ _ _).
  assert (exists w1,
    when (truthy (prop oauth "kc_action_status"))
      (notify onActionUpdate (OnActionUpdate (prop oauth "kc_action_status")))
      w0 = (Ok tt, w1)
    /\ this w1 = this w
    /\ events w1
       = events w
         ++ (if truthy (prop oauth "kc_action_status")
                && onActionUpdate (this w)
             then [OnActionUpdate (prop oauth "kc_action_status")] else []))
    as (w1 & -> & Hthis & Hev).
  { unfold when. destruct (truthy (prop oauth "kc_action_status")).
    - rewrite notify_run. eexists. split; [reflexivity|]. subst w0.
      cbn [this andb].
      destruct (onActionUpdate (this w)); cbn [this events emit snd];
        by rewrite ?app_nil_r.
    - eexists. split; [reflexivity|]. subst w0.
      cbn [this events andb]. by rewrite app_nil_r. }
  cbv beta iota. rewrite run_bind.
  change (get_this w1) with (Ok (this w1), w1). cbv beta iota.
  rewrite Hthis, Hfast, Hcode.
  unfold try_catch. rewrite run_bind. cbn [emit throw]. cbv beta iota.
  rewrite run_bind, notify_run. cbn [this]. rewrite Hthis.
  unfold new_events.
  destruct (onAuthError (this w)); cbn [fst snd this events emit throw];
    rewrite ?Hev, <- ?app_assoc, drop_app_length;
    rewrite ?app_nil_r; by rewrite ?Hthis.
Qed.

(** **** The callback parser *)





(** **** The login URL *)

Lemma set_rest_other (rest params : JsMap.t) (key : string) :
  key ∉ map fst rest ->
  JsMap.get key (set_rest Number_toString rest params)
  = JsMap.get key params.
Proof.
  revert params. induction rest as [|[k v] rest IH]; intros params Hnot;
    [done|].
  cbn [map fst] in Hnot. apply not_elem_of_cons in Hnot as [Hne Hnot].
  unfold set_rest in *. cbn [fold_left fst snd].
  rewrite IH by done. by apply JsMap_get_set_ne.
Qed.



(** **** One call of [updateToken] *)

Lemma isTokenExpired_but_ticks (minValidity : option num) :
  keeps but_ticks (isTokenExpired clock minValidity).
Proof. frame. Qed.

Lemma updateToken_effect (minValidity : option num) (w : World) :
  call_effect w
    (exec (updateToken clock formatQuerystringParameters minValidity) w).
Proof.
  unfold exec, updateToken. rewrite run_bind. cbn [new_Deferred].
  cbv beta iota zeta. rewrite run_bind.
  set (w0 := mkWorld _ _ _ _ (S (fresh w))).
  change (get_this w0) with (Ok (this w), w0). cbv beta iota.
  destruct (truthy (refreshToken (this w))); cbn [negb].
  2: { rewrite run_bind. cbn [emit]. cbv beta iota. cbn [mret M_ret snd].
       by apply (call_not_enqueued _ _
                   [Reject (fresh w) (VStr "missing refreshToken")]). }
  rewrite run_bind. unfold try_catch, runUpdateToken.
  rewrite run_bind.
  change (get_this w0) with (Ok (this w), w0). cbv beta iota.
  rewrite run_bind.
  set (mv := nullish minValidity (of_Z 5)).
  set (decide_refresh :=
         if JsNum.eqb mv (of_Z (-1)) then mret true
         else if negb (truthy (tokenParsed (this w))) then mret true
         else isTokenExpired clock (Some mv)).
  assert (but_ticks (snd (decide_refresh w0)) = but_ticks w0) as Hsame.
  { subst decide_refresh.
    destruct (JsNum.eqb mv (of_Z (-1))); [done|].
    destruct (negb (truthy (tokenParsed (this w)))); [done|].
    apply isTokenExpired_but_ticks. }
  destruct (decide_refresh w0) as [[shouldRefreshToken|e] w1];
    cbn [snd] in Hsame; injection Hsame as H1 H2 H3 H4; subst w0;
    cbn [this events inflight fresh] in *.
  2: { apply (call_not_enqueued _ _ []); cbn [mret M_ret snd];
         rewrite ?app_nil_r; first [reflexivity | congruence]. }
  destruct shouldRefreshToken; cbn [negb].
  2: { cbn [emit]. cbv beta iota. cbn [mret M_ret snd].
       apply (call_not_enqueued _ _ [Resolve (fresh w) false]);
         cbn [this events inflight fresh]; first [reflexivity | congruence]. }
  rewrite run_bind. cbn [modify]. cbv beta iota. rewrite run_bind.
  set (w2 := mkWorld _ _ _ _ _).
  change (get_this w2) with (Ok (this w2), w2). cbv beta iota.
  subst w2. cbn [this]. rewrite H1.
  change (refreshQueue (set_refreshQueue ?q _)) with q.
  destruct (refreshQueue (this w)) as [|d q] eqn:Eq.
  - cbn [app length Nat.eqb when]. rewrite run_bind.
    cbn [getTime]. cbv beta iota. rewrite run_bind. cbn [emit].
    cbv beta iota. cbn [suspend mret M_ret snd].
    eapply call_dispatches; cbn [this events inflight fresh];
      rewrite ?H2, ?H3, ?H4, ?Eq; try reflexivity.
  - assert (Nat.eqb (length ((d :: q) ++ [fresh w])) 1 = false) as ->.
    { rewrite length_app. cbn. destruct (length q); [done|]. cbn.
      by destruct n. }
    cbn [when mret M_ret snd].
    apply call_joins; cbn [this events inflight fresh];
      rewrite ?Eq; try done.
Qed.

(** **** Draining the queue *)

Lemma drain_loop_run (settle : Deferred -> Event) (q : list Deferred) :
  forall (passes : nat) (w : World),
    refreshQueue (this w) = q ->
    length q < passes ->
    drain_loop passes settle w = (Ok tt, drained settle w).
Proof.
  induction q as [|d q IH] using rev_ind; intros passes w Hq Hlen.
  - destruct passes as [|passes]; [simpl in Hlen; lia|].
    simpl. rewrite run_bind. unfold refreshQueue_pop at 1.
    rewrite run_bind. unfold get_this at 1. simpl. rewrite Hq. simpl.
    unfold drained. rewrite Hq, app_nil_r. simpl.
    rewrite set_refreshQueue_same by done. by destruct w.
  - destruct passes as [|passes]; [simpl in Hlen; lia|].
    rewrite length_app in Hlen. simpl in Hlen.
    simpl. rewrite run_bind. unfold refreshQueue_pop at 1.
    rewrite run_bind. unfold get_this at 1. simpl.
    rewrite Hq, reverse_app. simpl.
    rewrite !run_bind. simpl. rewrite reverse_involutive.
    rewrite (IH passes) by (simpl; done || lia).
    unfold drained. simpl. rewrite Hq, reverse_app. simpl.
    by rewrite <- app_assoc.
Qed.

Lemma drain_run (settle : Deferred -> Event) (w : World) :
  drain settle w = (Ok tt, drained settle w).
Proof.
  unfold drain. rewrite run_bind.
  change (get_this w) with (Ok (this w), w). cbv beta iota.
  apply (drain_loop_run settle (refreshQueue (this w))); [done | lia].
Qed.

(** **** When the refresh call settles *)

Lemma undisturbed_refl (w : World) : undisturbed w w.
Proof. split; [done|]. exists []. by rewrite app_nil_r. Qed.

Lemma undisturbed_trans (w1 w2 w3 : World) :
  undisturbed w1 w2 -> undisturbed w2 w3 -> undisturbed w1 w3.
Proof.
  intros [B1 (evs1 & E1 & Q1)] [B2 (evs2 & E2 & Q2)]. split; [congruence|].
  exists (evs1 ++ evs2). rewrite E2, E1, app_assoc.
  split; [done | by apply Forall_app].
Qed.

Lemma undisturbed_by {A} (m : M A) (w : World) :
  keeps bystander m -> emits quiet m -> undisturbed w (snd (m w)).
Proof. intros Hk He. split; [apply Hk | apply He]. Qed.

Lemma refresh_try_run (timeLocal : num) (outcome : Settled) (w : World) :
  (exists w', refresh_try clock decodeToken timeLocal outcome w
              = (Ok tt, drained resolve_true w')
              /\ undisturbed w w')
  \/ (exists e w', refresh_try clock decodeToken timeLocal outcome w
                   = (Throw e, w')
                   /\ undisturbed w w').
Proof.
  unfold refresh_try. destruct outcome as [tokenResponse|err].
  - destruct (or_undefined (TokenResponse.error tokenResponse)) as [error|].
    + right. rewrite run_bind.
      pose proof (undisturbed_by (clearToken clock decodeToken) w
                    clearToken_bystander clearToken_quiet) as Hu.
      destruct (clearToken clock decodeToken w) as [[[]|e] w']; eauto.
    + rewrite run_bind.
      change (getTime clock w) with
        (Ok (of_Z (clock (ticks w))),
         mkWorld (this w) (events w) (S (ticks w)) (inflight w) (fresh w)).
      cbv beta iota zeta.
      set (w0 := mkWorld _ _ _ _ _).
      assert (undisturbed w w0) as H0.
      { split; [reflexivity|]. exists []. by rewrite app_nil_r. }
      rewrite run_bind.
      match goal with
      | |- context [setToken clock decodeToken ?t ?r ?i ?tl w0] =>
          pose proof (undisturbed_by (setToken clock decodeToken t r i tl) w0
                        (setToken_bystander t r i tl)
                        (setToken_quiet t r i tl)) as Hu;
          destruct (setToken clock decodeToken t r i tl w0) as [[[]|e] w1]
      end; simpl in Hu.
      * left. rewrite run_bind, notify_run. cbv beta iota.
        rewrite drain_run. eexists. split; [reflexivity|].
        eapply undisturbed_trans; [exact H0|].
        eapply undisturbed_trans; [exact Hu|].
        destruct (onAuthRefreshSuccess (this w1)); [|apply undisturbed_refl].
        split; [done|]. exists [OnAuthRefreshSuccess].
        split; [done|]. by repeat constructor.
      * right. exists e, w1. split; [done|].
        eapply undisturbed_trans; [exact H0 | exact Hu].
  - right. exists err, w. split; [done | apply undisturbed_refl].
Qed.

Lemma refresh_catch_run (err : Exn) (w : World) :
  refresh_catch err w = (Ok tt, drained reject_true (caught w)).
Proof.
  unfold refresh_catch. rewrite run_bind, notify_run. cbv beta iota.
  by rewrite drain_run.
Qed.

Lemma undisturbed_caught (w : World) : undisturbed w (caught w).
Proof.
  unfold caught. destruct (onAuthRefreshError (this w));
    [|apply undisturbed_refl].
  split; [done|]. exists [OnAuthRefreshError].
  split; [done|]. by repeat constructor.
Qed.

(** Whatever the outcome, the method ends by draining the queue, settling
    every deferred in it the same way. *)
Lemma refreshTokens_settled_run (timeLocal : num) (outcome : Settled)
    (w : World) :
  exists (settle : Deferred -> Event) (w' : World),
    (settle = resolve_true \/ settle = reject_true)
    /\ refreshTokens_settled clock decodeToken timeLocal outcome w
       = (Ok tt, drained settle w')
    /\ undisturbed w w'.
Proof.
  unfold refreshTokens_settled, try_catch.
  destruct (refresh_try_run timeLocal outcome w)
    as [(w' & -> & Hu) | (e & w' & -> & Hu)].
  - exists resolve_true, w'. auto.
  - exists reject_true, (caught w'). rewrite refresh_catch_run.
    split; [auto|]. split; [done|].
    eapply undisturbed_trans; [exact Hu | apply undisturbed_caught].
Qed.

Lemma classic_failed (outcome : Settled) :
  failed outcome \/ ~ failed outcome.
Proof.
  destruct outcome as [tokenResponse|err]; [|by left].
  cbn. destruct (truthy (TokenResponse.error tokenResponse)); [by left|].
  by right.
Qed.

Lemma or_undefined_truthy (o : option string) :
  truthy o = true -> or_undefined o = o.
Proof. unfold or_undefined. by intros ->. Qed.

Lemma refresh_failed_run (timeLocal : num) (outcome : Settled) (w : World) :
  failed outcome ->
  refreshTokens_settled clock decodeToken timeLocal outcome w
  = (Ok tt,
     drained reject_true
       (caught match outcome with
               | Throw _ => w
               | Ok _ => snd (clearToken clock decodeToken w)
               end)).
Proof.
  intros Hf. unfold refreshTokens_settled, try_catch, refresh_try.
  destruct outcome as [tokenResponse|err]; simpl in Hf.
  - rewrite (or_undefined_truthy _ Hf).
    destruct (TokenResponse.error tokenResponse) as [error|]; [|done].
    rewrite run_bind.
    destruct (clearToken clock decodeToken w) as [[[]|e] w'];
      apply refresh_catch_run.
  - apply refresh_catch_run.
Qed.

Lemma clearToken_clears (w : World) :
  truthy (token (this w)) = true ->
  tokens_absent (this (snd (clearToken clock decodeToken w)))
  /\ authenticated (this (snd (clearToken clock decodeToken w)))
     = Some false.
Proof.
  intros Ht. unfold clearToken. rewrite run_bind.
  change (get_this w) with (Ok (this w), w). cbv beta iota. rewrite Ht.
  clear Ht. destruct w as [kc evs n pending d]. destruct kc.
  destruct tokenTimeoutHandle0, onAuthLogout0, loginRequired0 as [[]|];
    cbv; by repeat split.
Qed.

Lemma drained_caught_token_state (settle : Deferred -> Event) (w : World) :
  token_state (this (drained settle (caught w))) = token_state (this w).
Proof. unfold caught. by destruct (onAuthRefreshError (this w)). Qed.

Lemma resume_refresh_run (outcome : Settled) (w : World)
    (timeLocal : num) (others : list num) :
  inflight w = timeLocal :: others ->
  resume_refresh clock decodeToken outcome w
  = refreshTokens_settled clock decodeToken timeLocal outcome (resumed w).
Proof. intros E. unfold resume_refresh, resumed. by rewrite E. Qed.

(** What is seen when the queue of [w0] is drained from [w']. *)
Lemma drained_observed (settle : Deferred -> Event) (o : Outcome)
    (w w' : World) :
  (forall d, settlement (settle d) = Some (d, o)) ->
  (forall d, is_dispatch (settle d) = false) ->
  refreshQueue (this w') = refreshQueue (this w) ->
  (exists evs, events w' = events w ++ evs /\ Forall quiet evs) ->
  settled (new_events w (drained settle w'))
  = map (fun d => (d, o)) (reverse (refreshQueue (this w)))
  /\ dispatches (new_events w (drained settle w')) = 0
  /\ refreshQueue (this (drained settle w')) = [].
Proof.
  intros Hs Hd Hq (evs & E & Hquiet).
  rewrite (new_events_app w (drained settle w')
             (evs ++ map settle (reverse (refreshQueue (this w))))).
  - rewrite settled_app, dispatches_app, (settled_quiet evs Hquiet),
      (dispatches_quiet evs Hquiet), (settled_map settle o),
      dispatches_map by done.
    done.
  - unfold drained. simpl. by rewrite E, Hq, app_assoc.
Qed.

Lemma undisturbed_resumed (w w' : World) :
  undisturbed (resumed w) w' ->
  refreshQueue (this w') = refreshQueue (this w)
  /\ inflight w' = tail (inflight w)
  /\ fresh w' = fresh w
  /\ exists evs, events w' = events w ++ evs /\ Forall quiet evs.
Proof.
  intros [Hb He]. split; [|split; [|split]].
  - apply (bystander_refreshQueue (resumed w) w' Hb).
  - apply (bystander_inflight (resumed w) w' Hb).
  - apply (bystander_fresh (resumed w) w' Hb).
  - exact He.
Qed.

(** C4, amended: when the in-flight refresh completes, the queued waiters
    are resolved (on success) or rejected (on failure) last in, first out:
    in the reverse of the order in which they were enqueued, because the
    queue is emptied with [pop()]. *)
Theorem refresh_settles_in_reverse_order (w : World) (outcome : Settled) :
  inflight w <> [] ->
  exists o : Outcome,
    (o = Resolved true \/ o = Rejected (VBool true))
    /\ settled (new_events w
                  (exec (resume_refresh clock decodeToken outcome) w))
       = map (fun d => (d, o)) (reverse (refreshQueue (this w))).
Proof.
  intros Hin. destruct (inflight w) as [|timeLocal others] eqn:E; [done|].
  unfold exec. rewrite (resume_refresh_run outcome w timeLocal others E).
  destruct (refreshTokens_settled_run timeLocal outcome (resumed w))
    as (settle & w' & Hsettle & -> & Hu).
  apply undisturbed_resumed in Hu as (Hq & _ & _ & Hev). cbn [snd].
  destruct Hsettle as [-> | ->].
  - exists (Resolved true). split; [by left|].
    by apply (drained_observed resolve_true (Resolved true) w w').
  - exists (Rejected (VBool true)). split; [by right|].
    by apply (drained_observed reject_true (Rejected (VBool true)) w w').
Qed.

(** C3, amended: when the in-flight refresh fails, the auth-refresh-error
    notification fires and every queued waiter is rejected, which empties
    the queue.  If the failure is an [error] field in the response and the
    session holds an access token, the token set is cleared; if the call
    of [refreshTokens] itself throws, the token state is left as it was. *)
Theorem refresh_failure_cleanup (w : World) (outcome : Settled) :
  inflight w <> [] ->
  failed outcome ->
  let w' := exec (resume_refresh clock decodeToken outcome) w in
  match outcome with
  | Throw _ => token_state (this w') = token_state (this w)
  | Ok _ =>
      truthy (token (this w)) = true ->
      tokens_absent (this w') /\ authenticated (this w') = Some false
  end
  /\ (onAuthRefreshError (this w) = true ->
      In OnAuthRefreshError (new_events w w'))
  /\ settled (new_events w w')
     = map (fun d => (d, Rejected (VBool true)))
           (reverse (refreshQueue (this w)))
  /\ refreshQueue (this w') = [].
Proof.
  intros Hin Hfail w'. subst w'.
  destruct (inflight w) as [|timeLocal others] eqn:E; [done|].
  unfold exec. rewrite (resume_refresh_run outcome w timeLocal others E).
  rewrite (refresh_failed_run timeLocal outcome (resumed w) Hfail). cbn [snd].
  set (w0 := match outcome with
             | Throw _ => resumed w
             | Ok _ => snd (clearToken clock decodeToken (resumed w))
             end).
  assert (undisturbed (resumed w) w0) as Hu0.
  { subst w0. destruct outcome; [|apply undisturbed_refl].
    apply undisturbed_by; [apply clearToken_bystander|apply clearToken_quiet]. }
  assert (undisturbed (resumed w) (caught w0)) as Hu.
  { eapply undisturbed_trans; [exact Hu0 | apply undisturbed_caught]. }
  pose proof (bystander_onAuthRefreshError _ _ (proj1 Hu0)) as Hhandler.
  apply undisturbed_resumed in Hu as (Hq & _ & _ & Hev).
  apply undisturbed_resumed in Hu0 as (_ & _ & _ & (evs0 & Hev0 & _)).
  destruct (drained_observed reject_true (Rejected (VBool true)) w (caught w0))
    as (Hsettled & _ & Hempty); try done.
  split; [|split; [|split]]; try done.
  - rewrite drained_caught_token_state. subst w0.
    destruct outcome as [tokenResponse|err]; [|done].
    intros Ht.
    destruct (clearToken_clears (resumed w) Ht) as [Habs Hauth].
    unfold caught.
    by destruct (onAuthRefreshError
                   (this (snd (clearToken clock decodeToken (resumed w))))).
  - intros Hreg. change (onAuthRefreshError (this (resumed w)))
      with (onAuthRefreshError (this w)) in Hhandler.
    rewrite (new_events_app w (drained reject_true (caught w0))
               (evs0 ++ [OnAuthRefreshError]
                ++ map reject_true (reverse (refreshQueue (this w))))).
    + apply in_or_app. right. by left.
    + unfold drained. cbn [events]. rewrite Hq. unfold caught.
      rewrite Hhandler, Hreg. cbn [emit snd events].
      by rewrite Hev0, <- !app_assoc.
Qed.

(** **** Single flight *)

Lemma call_effect_dispatch (w w' : World) :
  call_effect w w' ->
  dispatches (new_events w w') <> 0 -> refreshQueue (this w) = [].
Proof.
  intros [evs Hev Hd _ _ _ | Hev _ _ _ _ | url body t _ Hq _ _ _] Hne; [| |done].
  - by rewrite (new_events_app w w' evs Hev) in Hne.
  - rewrite (new_events_app w w' []) in Hne; [done|].
    by rewrite app_nil_r.
Qed.

Lemma Forall_lt_S (q : list Deferred) (n : nat) :
  Forall (fun d => d < n) q -> Forall (fun d => d < S n) q.
Proof. intros H. eapply Forall_impl; [exact H|]. intros d Hd. cbn in *. lia. Qed.

Lemma NoDup_snoc_fresh (q : list Deferred) (n : nat) :
  NoDup q -> Forall (fun d => d < n) q -> NoDup (q ++ [n]).
Proof.
  intros Hnd Hlt. apply NoDup_app. split; [done|]. split.
  - intros d Hd ->%list_elem_of_singleton.
    rewrite Forall_forall in Hlt. specialize (Hlt _ Hd). lia.
  - apply NoDup_singleton.
Qed.

Lemma call_effect_coherent (w w' : World) :
  coherent w ->
  call_effect w w' ->
  coherent w'
  /\ (refreshQueue (this w) <> [] -> refreshQueue (this w') <> [])
  /\ exists evs,
       events w' = events w ++ evs
       /\ dispatches evs + length (inflight w) = length (inflight w').
Proof.
  intros (Hnd & Hlt & Hco)
    [evs Hev Hd Hq Hin Hf | Hev Hne Hq Hin Hf | url body t Hev Hempty Hq Hin Hf].
  - split; [|split].
    + unfold coherent. rewrite Hq, Hin, Hf.
      split; [done|]. split; [by apply Forall_lt_S | done].
    + by rewrite Hq.
    + exists evs. by rewrite Hd, Hin.
  - split; [|split].
    + unfold coherent. rewrite Hq, Hin, Hf.
      split; [by apply NoDup_snoc_fresh|]. split.
      * apply Forall_app. split; [by apply Forall_lt_S|].
        apply Forall_singleton. lia.
      * right. destruct Hco as [[Hempty _]|[_ Hone]]; [done|].
        split; [|done]. by destruct (refreshQueue (this w)).
    + intros _. rewrite Hq. by destruct (refreshQueue (this w)).
    + exists []. by rewrite app_nil_r, Hin.
  - split; [|split].
    + unfold coherent. rewrite Hq, Hin, Hf.
      split; [apply NoDup_singleton|]. split.
      * apply Forall_singleton. lia.
      * right. destruct Hco as [[_ Hidle]|[Hne _]]; [|done].
        rewrite Hidle. split; [done|]. by exists t.
    + done.
    + eexists. split; [exact Hev|]. rewrite Hin, length_app.
      assert (dispatches [AdapterRefreshTokens url body] = 1) as ->
        by reflexivity.
      cbn [length]. lia.
Qed.

Lemma run_calls_effect (calls : list (option num)) :
  forall w : World,
    coherent w ->
    let w1 := run_calls clock formatQuerystringParameters calls w in
    coherent w1
    /\ (refreshQueue (this w) <> [] -> refreshQueue (this w1) <> [])
    /\ exists evs,
         events w1 = events w ++ evs
         /\ dispatches evs + length (inflight w) = length (inflight w1).
Proof.
  induction calls as [|c calls IH]; intros w Hco; cbn [run_calls].
  - split; [done|]. split; [done|]. exists []. by rewrite app_nil_r.
  - destruct (call_effect_coherent w _ Hco (updateToken_effect c w))
      as (Hco' & Hmono & evs & Hev & Hcount).
    destruct (IH _ Hco') as (Hco1 & Hmono1 & evs1 & Hev1 & Hcount1).
    split; [done|]. split; [by auto|].
    exists (evs ++ evs1). rewrite Hev1, Hev, app_assoc, dispatches_app.
    split; [done | lia].
Qed.

(** **** What [setToken] commits *)

Lemma schedule_expiry_run (claims : TokenParsed.t) (w : World) :
  schedule_expiry clock claims w
  = (Ok tt, expiry_scheduled (of_Z (clock (ticks w))) claims w).
Proof.
  unfold schedule_expiry, expiry_scheduled. rewrite run_bind.
  change (get_this w) with (Ok (this w), w). cbv beta iota.
  destruct (timeSkew (this w)) as [skew|]; [|done].
  destruct (onTokenExpired (this w)); [|done].
  cbn [when]. rewrite run_bind.
  change (getTime clock w) with
    (Ok (of_Z (clock (ticks w))),
     mkWorld (this w) (events w) (S (ticks w)) (inflight w) (fresh w)).
  cbv beta iota zeta. fold (expiry_delay claims skew (of_Z (clock (ticks w)))).
  destruct (le _ _); [done|]. by rewrite run_bind.
Qed.

Lemma adopt_claims_run (claims : TokenParsed.t) (tl : option num) (w : World) :
  adopt_claims clock claims tl w
  = schedule_expiry clock claims (assigned (adopted claims tl) w).
Proof.
  unfold adopt_claims, adopted. rewrite !run_bind. cbn [modify].
  cbv beta iota zeta.
  destruct tl as [tl|]; [destruct (truthy tl)|]; reflexivity.
Qed.

Lemma expiry_scheduled_token_state (now : num) (claims : TokenParsed.t)
    (w : World) :
  token_state (this (expiry_scheduled now claims w)) = token_state (this w).
Proof.
  unfold expiry_scheduled. destruct (timeSkew (this w)); [|done].
  destruct (onTokenExpired (this w)); [|done].
  cbv zeta. by destruct (le _ _).
Qed.

Lemma timer_cleared_token_state (w : World) :
  token_state (this (timer_cleared w)) = token_state (this w).
Proof.
  unfold timer_cleared. by destruct (truthy (tokenTimeoutHandle (this w))).
Qed.

Lemma token_state_adopted (claims : TokenParsed.t) (tl : option num)
    (kc : KeycloakClient) :
  token_state (adopted claims tl kc)
  = {| ts_token := token kc; ts_tokenParsed := tokenParsed kc;
       ts_refreshToken := refreshToken kc;
       ts_refreshTokenParsed := refreshTokenParsed kc;
       ts_idToken := idToken kc; ts_idTokenParsed := idTokenParsed kc;
       ts_authenticated := Some true;
       ts_subject := TokenParsed.sub claims;
       ts_realmAccess := TokenParsed.realm_access claims;
       ts_resourceAccess := TokenParsed.resource_access claims;
       ts_timeSkew := skew_after tl claims (timeSkew kc) |}.
Proof.
  unfold adopted, skew_after.
  destruct tl as [tl|]; [destruct (truthy tl)|]; reflexivity.
Qed.

Lemma timer_cleared_timeSkew (w : World) :
  timeSkew (this (timer_cleared w)) = timeSkew (this w).
Proof.
  unfold timer_cleared. by destruct (truthy (tokenTimeoutHandle (this w))).
Qed.

Lemma setToken_token_state t r i tl (w : World) :
  result_of (setToken clock decodeToken t r i tl) w = Ok tt ->
  token_state (this (exec (setToken clock decodeToken t r i tl) w))
  = committed decodeToken t r i tl (timeSkew (this w)).
Proof.
  unfold result_of, exec. rewrite setToken_run.
  rewrite <- (timer_cleared_timeSkew w).
  generalize (timer_cleared w). clear w. intros w.
  rewrite run_bind, store_refreshToken_run.
  unfold committed, claims_of.
  destruct (or_undefined r) as [rr|];
    [destruct (decodeToken rr) as [cr|e]; [|discriminate]|];
    cbv beta iota;
    (rewrite run_bind, store_idToken_run;
     destruct (or_undefined i) as [ii|];
       [destruct (decodeToken ii) as [ci|e]; [|discriminate]|];
       cbv beta iota;
       (rewrite store_token_run;
        destruct (or_undefined t) as [raw|];
          [destruct (decodeToken raw) as [[claims|]|e]; try discriminate|];
          intros _)).
  all: first
    [ rewrite adopt_claims_run, schedule_expiry_run; cbn [snd];
      rewrite expiry_scheduled_token_state; cbn [assigned this];
      rewrite token_state_adopted; reflexivity
    | reflexivity ].
Qed.


Lemma setToken_returns t r i tl (w : World) :
  result_of (setToken clock decodeToken t r i tl) w = Ok tt
  <-> storable decodeToken t r i.
Proof.
  unfold result_of, storable, decodes. rewrite setToken_run.
  generalize (timer_cleared w). clear w. intros w.
  rewrite run_bind, store_refreshToken_run. split.
  - destruct (or_undefined r) as [rr|];
      [destruct (decodeToken rr) as [cr|e] eqn:Dr; [|discriminate]|];
      cbv beta iota;
      (rewrite run_bind, store_idToken_run;
       destruct (or_undefined i) as [ii|];
         [destruct (decodeToken ii) as [ci|e] eqn:Di; [|discriminate]|];
         cbv beta iota;
         (rewrite store_token_run;
          destruct (or_undefined t) as [raw|];
            [destruct (decodeToken raw) as [[claims|]|e] eqn:D;
               try discriminate|];
            intros _));
      repeat split; intros s [= <-]; eauto.
  - intros (Hr & Hi & Ht).
    destruct (or_undefined r) as [rr|];
      [destruct (Hr rr eq_refl) as [cr ->]|]; cbv beta iota;
      (rewrite run_bind, store_idToken_run;
       destruct (or_undefined i) as [ii|];
         [destruct (Hi ii eq_refl) as [ci ->]|]; cbv beta iota;
         (rewrite store_token_run;
          destruct (or_undefined t) as [raw|];
            [destruct (Ht raw eq_refl) as [claims ->];
             by rewrite adopt_claims_run, schedule_expiry_run
            |reflexivity])).
Qed.

(** X1: after a [setToken] call that returns normally, [authenticated]
    tells whether an access token is held.  With an access token, its
    claims were found by the decoder, [subject], [realmAccess] and
    [resourceAccess] are those of the claims, and [timeSkew] is
    [floor(timeLocal / 1000) - (iat ?? 0)] when a truthy [timeLocal] is
    given and is left alone otherwise.  Without one, the access token,
    its claims and what derives from them are absent and [timeSkew] is
    kept. *)
Theorem setToken_commits_access_token t r i tl (w : World) :
  result_of (setToken clock decodeToken t r i tl) w = Ok tt ->
  let kc' := this (exec (setToken clock decodeToken t r i tl) w) in
  match or_undefined t with
  | Some raw =>
      exists claims,
        decodeToken raw = Ok (Some claims)
        /\ token kc' = Some raw
        /\ tokenParsed kc' = Some claims
        /\ authenticated kc' = Some true
        /\ subject kc' = TokenParsed.sub claims
        /\ realmAccess kc' = TokenParsed.realm_access claims
        /\ resourceAccess kc' = TokenParsed.resource_access claims
        /\ timeSkew kc' = skew_after tl claims (timeSkew (this w))
  | None =>
      token kc' = None
      /\ tokenParsed kc' = None
      /\ authenticated kc' = Some false
      /\ subject kc' = None
      /\ realmAccess kc' = None
      /\ resourceAccess kc' = None
      /\ timeSkew kc' = timeSkew (this w)
  end.
Proof.
  intros Hok kc'.
  pose proof (setToken_token_state t r i tl w Hok) as Hstate.
  apply setToken_returns in Hok as (_ & _ & Ht).
  fold kc' in Hstate. unfold committed, claims_of in Hstate.
  destruct (or_undefined t) as [raw|].
  - destruct (Ht raw eq_refl) as [claims D]. rewrite D in Hstate.
    exists claims. split; [exact D|].
    pose proof (f_equal ts_token Hstate).
    pose proof (f_equal ts_tokenParsed Hstate).
    pose proof (f_equal ts_authenticated Hstate).
    pose proof (f_equal ts_subject Hstate).
    pose proof (f_equal ts_realmAccess Hstate).
    pose proof (f_equal ts_resourceAccess Hstate).
    pose proof (f_equal ts_timeSkew Hstate).
    by repeat split.
  - pose proof (f_equal ts_token Hstate).
    pose proof (f_equal ts_tokenParsed Hstate).
    pose proof (f_equal ts_authenticated Hstate).
    pose proof (f_equal ts_subject Hstate).
    pose proof (f_equal ts_realmAccess Hstate).
    pose proof (f_equal ts_resourceAccess Hstate).
    pose proof (f_equal ts_timeSkew Hstate).
    by repeat split.
Qed.

(** X2: when the decoder finds no claims in the access token (and does
    not throw on the refresh and the id token), [setToken] throws
    ['Invalid tokenParsed'] after it has replaced the refresh and the id
    token and stored the raw access token: the raw token is held without
    claims, while [authenticated], [subject], the roles and [timeSkew]
    still are what they were before the call. *)
Theorem setToken_malformed_token t r i tl (w : World) (raw : string) :
  or_undefined t = Some raw ->
  decodeToken raw = Ok None ->
  decodes decodeToken r ->
  decodes decodeToken i ->
  let m := setToken clock decodeToken t r i tl in
  let kc := this w in
  let kc' := this (exec m w) in
  result_of m w = Throw MalformedToken
  /\ token kc' = Some raw
  /\ tokenParsed kc' = None
  /\ refreshToken kc' = or_undefined r
  /\ idToken kc' = or_undefined i
  /\ authenticated kc' = authenticated kc
  /\ subject kc' = subject kc
  /\ realmAccess kc' = realmAccess kc
  /\ resourceAccess kc' = resourceAccess kc
  /\ timeSkew kc' = timeSkew kc.
Proof.
  intros Et D Hr Hi. unfold decodes in Hr, Hi.
  cbv zeta. unfold result_of, exec. rewrite setToken_run.
  change (authenticated (this w))
    with (ts_authenticated (token_state (this w))).
  change (subject (this w)) with (ts_subject (token_state (this w))).
  change (realmAccess (this w)) with (ts_realmAccess (token_state (this w))).
  change (resourceAccess (this w))
    with (ts_resourceAccess (token_state (this w))).
  change (timeSkew (this w)) with (ts_timeSkew (token_state (this w))).
  rewrite <- (timer_cleared_token_state w).
  generalize (timer_cleared w). clear w. intros w.
  rewrite run_bind, store_refreshToken_run.
  destruct (or_undefined r) as [rr|];
    [destruct (Hr rr eq_refl) as [cr ->]|]; cbv beta iota;
    (rewrite run_bind, store_idToken_run;
     destruct (or_undefined i) as [ii|];
       [destruct (Hi ii eq_refl) as [ci ->]|]; cbv beta iota;
       rewrite store_token_run, Et, D; by repeat split).
Qed.

(** **** The expiry timer *)

Lemma store_refreshToken_timer (r : option string) :
  keeps timer_view (store_refreshToken decodeToken r).
Proof. frame. Qed.

Lemma store_idToken_timer (i : option string) :
  keeps timer_view (store_idToken decodeToken i).
Proof. frame. Qed.

Lemma expiry_scheduled_timer (now : num) (claims : TokenParsed.t)
    (w : World) :
  tokenTimeoutHandle (this w) = None ->
  exists fired : list Event,
    events (expiry_scheduled now claims w) = events w ++ fired
    /\ (onTokenExpired (this w) = false -> fired = [])
    /\ expiry_outcome fired
         (tokenTimeoutHandle (this (expiry_scheduled now claims w))).
Proof.
  intros Hnone. unfold expiry_scheduled, expiry_outcome.
  destruct (timeSkew (this w)) as [skew|];
    [|exists []; rewrite app_nil_r; auto].
  destruct (onTokenExpired (this w));
    [|exists []; rewrite app_nil_r; auto].
  cbv zeta. destruct (le (expiry_delay claims skew now) (of_Z 0)) eqn:E.
  - exists [OnTokenExpired]. split; [reflexivity|]. split; [done|].
    right. left. split; [reflexivity | exact Hnone].
  - exists [SetTimeout (expiry_delay claims skew now)].
    split; [reflexivity|]. split; [done|].
    right. right. eexists. by repeat split.
Qed.

(** X3: [setToken] keeps at most one expiry timer.  The timer that was
    pending is cleared first; after that the call either does nothing
    about expiry, or calls the [onTokenExpired] handler at once, or arms
    one timer whose delay is not [<= 0], and the handle kept in the
    session is that of the timer armed by this call, if any.  Without an
    [onTokenExpired] handler nothing is called or armed. *)
Theorem setToken_one_timer t r i tl (w : World) :
  let w' := exec (setToken clock decodeToken t r i tl) w in
  exists fired : list Event,
    new_events w w'
    = (if truthy (tokenTimeoutHandle (this w)) then [ClearTimeout] else [])
      ++ fired
    /\ (onTokenExpired (this w) = false -> fired = [])
    /\ expiry_outcome fired (tokenTimeoutHandle (this w')).
Proof.
  cbv zeta. unfold exec. rewrite setToken_run.
  set (clear := if truthy (tokenTimeoutHandle (this w))
                then [ClearTimeout] else []).
  assert (timer_view (timer_cleared w)
          = (events w ++ clear, None, onTokenExpired (this w))) as Hview.
  { subst clear. unfold timer_cleared, timer_view.
    destruct (tokenTimeoutHandle (this w)) as [handle|] eqn:E; [done|].
    cbn. by rewrite app_nil_r, E. }
  generalize dependent (timer_cleared w). intros w0 Hview.
  assert (forall w1 : World,
    timer_view w1 = timer_view w0 ->
    exists fired : list Event,
      new_events w w1 = clear ++ fired
      /\ (onTokenExpired (this w) = false -> fired = [])
      /\ expiry_outcome fired (tokenTimeoutHandle (this w1))) as Hquiet.
  { intros w1 E. rewrite Hview in E. injection E as E1 E2 E3.
    exists []. split; [|split; [done|by left]].
    apply new_events_app. by rewrite E1, app_nil_r. }
  rewrite run_bind. pose proof (store_refreshToken_timer r w0) as K1.
  destruct (store_refreshToken decodeToken r w0) as [[[]|e] w1];
    cbn [snd] in K1; [|by apply Hquiet].
  rewrite run_bind. pose proof (store_idToken_timer i w1) as K2.
  destruct (store_idToken decodeToken i w1) as [[[]|e] w2];
    cbn [snd] in K2; [|apply Hquiet; etrans; [exact K2 | exact K1]].
  rewrite store_token_run.
  destruct (or_undefined t) as [raw|];
    [destruct (decodeToken raw) as [[claims|]|e]|];
    [|apply Hquiet; etrans; [|etrans; [exact K2 | exact K1]]; reflexivity..].
  rewrite adopt_claims_run, schedule_expiry_run. cbn [snd].
  set (w3 := assigned _ _).
  assert (timer_view w3 = timer_view w0) as K3.
  { etrans; [|etrans; [exact K2 | exact K1]]. subst w3. unfold adopted.
    destruct tl as [tl|]; [destruct (truthy tl)|]; reflexivity. }
  rewrite Hview in K3.
  pose proof (f_equal (fun v => fst (fst v)) K3) as E1.
  pose proof (f_equal (fun v => snd (fst v)) K3) as E2.
  pose proof (f_equal snd K3) as E3.
  cbn [fst snd timer_view] in E1, E2, E3.
  destruct (expiry_scheduled_timer (of_Z (clock (ticks w3))) claims w3 E2)
    as (fired & Hev & Hoff & Hout).
  exists fired. split; [|split; [|exact Hout]].
  - apply new_events_app. by rewrite Hev, E1, app_assoc.
  - intros Hno. apply Hoff. congruence.
Qed.

(** **** [clearToken] *)

Lemma setToken_null_run (w : World) :
  setToken clock decodeToken None None None None w
  = (Ok tt, assigned signed_out (timer_cleared w)).
Proof. by rewrite setToken_run. Qed.

Lemma token_state_signed_out (kc : KeycloakClient) :
  token_state (signed_out kc) = logged_out (timeSkew kc).
Proof. reflexivity. Qed.

Lemma clearToken_noop (w : World) :
  truthy (token (this w)) = false ->
  clearToken clock decodeToken w = (Ok tt, w).
Proof.
  intros Ht. unfold clearToken. rewrite run_bind.
  change (get_this w) with (Ok (this w), w). cbv beta iota. by rewrite Ht.
Qed.

Lemma clearToken_run (w : World) :
  truthy (token (this w)) = true ->
  clearToken clock decodeToken w
  = (Ok tt,
     let w1 := assigned signed_out (timer_cleared w) in
     let w2 := if onAuthLogout (this w) then snd (emit OnAuthLogout w1)
               else w1 in
     if truthy (loginRequired (this w)) then snd (emit AdapterLogin w2)
     else w2).
Proof.
  intros Ht. unfold clearToken. rewrite run_bind.
  change (get_this w) with (Ok (this w), w). cbv beta iota. rewrite Ht.
  cbn [when]. rewrite run_bind, setToken_null_run. cbv beta iota.
  rewrite run_bind, notify_run. cbv beta iota zeta.
  set (w1 := assigned signed_out (timer_cleared w)).
  assert (onAuthLogout (this w1) = onAuthLogout (this w)
          /\ loginRequired (this w1) = loginRequired (this w)) as [E1 E2].
  { subst w1. unfold timer_cleared.
    by destruct (truthy (tokenTimeoutHandle (this w))). }
  rewrite E1. rewrite run_bind.
  destruct (onAuthLogout (this w)).
  - change (get_this (snd (emit OnAuthLogout w1)))
      with (Ok (this w1), snd (emit OnAuthLogout w1)).
    cbv beta iota. rewrite E2.
    by destruct (truthy (loginRequired (this w))).
  - change (get_this w1) with (Ok (this w1), w1).
    cbv beta iota. rewrite E2.
    by destruct (truthy (loginRequired (this w))).
Qed.

(** X4: on a session that holds an access token, [clearToken] returns
    normally and leaves no token, no claims, no subject and no roles, with
    [authenticated] false; [timeSkew] is kept.  The pending expiry timer is
    cleared, then the [onAuthLogout] handler is called if one is set, then
    [login] is called if login is required; nothing else happens. *)
Theorem clearToken_logs_out (w : World) :
  truthy (token (this w)) = true ->
  let w' := exec (clearToken clock decodeToken) w in
  result_of (clearToken clock decodeToken) w = Ok tt
  /\ token_state (this w') = logged_out (timeSkew (this w))
  /\ tokenTimeoutHandle (this w') = None
  /\ new_events w w'
     = (if truthy (tokenTimeoutHandle (this w)) then [ClearTimeout] else [])
       ++ (if onAuthLogout (this w) then [OnAuthLogout] else [])
       ++ (if truthy (loginRequired (this w)) then [AdapterLogin] else []).
Proof.
  intros Ht. cbv zeta. unfold result_of, exec.
  rewrite (clearToken_run w Ht). cbn [fst snd].
  split; [reflexivity|].
  set (w1 := assigned signed_out (timer_cleared w)).
  assert (token_state (this w1) = logged_out (timeSkew (this w))
          /\ tokenTimeoutHandle (this w1) = None
          /\ events w1
             = events w ++ (if truthy (tokenTimeoutHandle (this w))
                            then [ClearTimeout] else []))
    as (Hstate & Hhandle & Hev).
  { subst w1. cbn [assigned this events].
    rewrite token_state_signed_out, timer_cleared_timeSkew.
    unfold timer_cleared.
    destruct (tokenTimeoutHandle (this w)) as [handle|] eqn:E.
    - by repeat split.
    - cbn. by rewrite app_nil_r, E. }
  cbv zeta.
  destruct (onAuthLogout (this w)), (truthy (loginRequired (this w)));
    (split; [exact Hstate|]); (split; [exact Hhandle|]);
    apply new_events_app; cbn [emit snd events]; rewrite Hev;
    rewrite <- ?app_assoc; cbn [app]; by rewrite ?app_nil_r.
Qed.

(** X5: [clearToken] is idempotent: a second call right after the first
    changes nothing and calls no handler again. *)
Theorem clearToken_idempotent (w : World) :
  exec (clearToken clock decodeToken) (exec (clearToken clock decodeToken) w)
  = exec (clearToken clock decodeToken) w.
Proof.
  unfold exec. destruct (truthy (token (this w))) eqn:Ht.
  - rewrite (clearToken_noop (snd (clearToken clock decodeToken w)));
      [done|].
    rewrite (clearToken_run w Ht). cbn [snd]. cbv zeta.
    by destruct (onAuthLogout (this w)), (truthy (loginRequired (this w))).
  - rewrite (clearToken_noop w Ht). cbn [snd].
    by rewrite (clearToken_noop w Ht).
Qed.

(** **** Role checks *)

Lemma indexOf_found (role : string) (a : list string) :
  match JsArray.indexOf role a with Some _ => true | None => false end = true
  <-> role ∈ a.
Proof.
  induction a as [|y a IH]; cbn [JsArray.indexOf].
  - split; [discriminate | by intros ?%elem_of_nil].
  - destruct (String.eqb y role) eqn:E.
    + apply String.eqb_eq in E as ->. split; [intros _; left | done].
    + apply String.eqb_neq in E. rewrite elem_of_cons, <- IH.
      destruct (JsArray.indexOf role a); split; try done; try tauto.
      intros [->|]; done.
Qed.

Lemma clientId_or_empty (kc : KeycloakClient) :
  (if truthy (clientId kc) then clientId kc else "") = clientId kc.
Proof.
  unfold truthy, string_truthy.
  destruct (String.eqb (clientId kc) "") eqn:E; [|done].
  by apply String.eqb_eq in E.
Qed.

Lemma bystander_clientId (w w' : World) :
  bystander w' = bystander w -> clientId (this w') = clientId (this w).
Proof.
  intros H. change (clientId (outside_tokens (this w'))
                    = clientId (outside_tokens (this w))).
  unfold bystander in H. congruence.
Qed.

(** X6: after [setToken] has stored an access token, the role checks
    answer from the claims of that token.  [hasRealmRole] holds exactly
    for the roles listed in its [realm_access].  [hasResourceRole], where
    a resource that is not given or is empty stands for the client id,
    returns true exactly for the roles its [resource_access] lists under
    the resource; it throws a [TypeError] exactly when [resource_access]
    is present, has no entry of its own under the resource, and the
    resource is the name of a property of [Object.prototype], such as
    [toString]. *)
Theorem roles_follow_access_token t r i tl (w : World) (raw : string)
    (claims : TokenParsed.t) :
  result_of (setToken clock decodeToken t r i tl) w = Ok tt ->
  or_undefined t = Some raw ->
  decodeToken raw = Ok (Some claims) ->
  let kc' := this (exec (setToken clock decodeToken t r i tl) w) in
  (forall role,
     hasRealmRole kc' role = true
     <-> exists access,
           TokenParsed.realm_access claims = Some access
           /\ role ∈ roles access)
  /\ (forall role resource,
        let name := nullish (or_undefined resource) (clientId (this w)) in
        (hasResourceRole kc' role resource = Returns true
         <-> exists byResource access,
               TokenParsed.resource_access claims = Some byResource
               /\ byResource !! name = Some access
               /\ role ∈ roles access)
        /\ (hasResourceRole kc' role resource = TypeError
            <-> exists byResource,
                  TokenParsed.resource_access claims = Some byResource
                  /\ byResource !! name = None
                  /\ name ∈ Object_prototype)).
Proof.
  intros Hok Et D kc'.
  pose proof (setToken_token_state t r i tl w Hok) as Hstate.
  pose proof (bystander_clientId _ _ (setToken_bystander t r i tl w)) as Hid.
  fold (exec (setToken clock decodeToken t r i tl) w) in Hid.
  fold kc' in Hstate, Hid.
  unfold committed, claims_of in Hstate. rewrite Et, D in Hstate.
  pose proof (f_equal ts_realmAccess Hstate) as Hrealm.
  pose proof (f_equal ts_resourceAccess Hstate) as Hresource.
  cbn [ts_realmAccess ts_resourceAccess token_state] in Hrealm, Hresource.
  split.
  - intros role. unfold hasRealmRole. rewrite Hrealm.
    destruct (TokenParsed.realm_access claims) as [access|].
    + rewrite indexOf_found. split; [eauto|]. by intros (? & [= <-] & ?).
    + split; [discriminate | by intros (? & [=] & _)].
  - intros role resource name. unfold hasResourceRole.
    rewrite Hresource, clientId_or_empty, Hid.
    destruct (TokenParsed.resource_access claims) as [byResource|].
    2: { split; [split; [discriminate | by intros (? & ? & [=] & _)]|].
         split; [discriminate | by intros (? & [=] & _)]. }
    cbv zeta.
    change (match or_undefined resource with
            | Some resource' => resource'
            | None => clientId (this w)
            end) with name.
    destruct (byResource !! name) as [access|] eqn:E.
    + pose proof (indexOf_found role (roles access)) as Hfound.
      split.
      * destruct (JsArray.indexOf role (roles access)) as [n|].
        -- split; [intros _; exists byResource, access|done].
           split; [done|]. split; [done|]. by apply Hfound.
        -- split; [discriminate|].
           intros (byResource' & access' & [= <-] & E' & Hin).
           assert (access = access') as <- by congruence.
           apply Hfound in Hin. discriminate.
      * split; [discriminate|].
        intros (byResource' & [= <-] & E' & _). congruence.
    + split.
      * destruct (bool_decide (name ∈ Object_prototype));
          (split; [discriminate|]);
          intros (byResource' & access' & [= <-] & E' & _); congruence.
      * destruct (bool_decide (name ∈ Object_prototype)) eqn:Ein.
        -- apply bool_decide_eq_true_1 in Ein.
           split; [intros _; by exists byResource | done].
        -- apply bool_decide_eq_false_1 in Ein.
           split; [discriminate|].
           by intros (byResource' & [= <-] & _ & ?).
Qed.

(** X7: once the access token is gone, no role check succeeds: after
    [clearToken] on a session that held one, and after a [setToken] call
    without an access token that returns normally, [hasRealmRole] and
    [hasResourceRole] return false for every role and resource. *)
Theorem roles_end_with_access_token (w : World) :
  (truthy (token (this w)) = true ->
   forall role resource,
     hasRealmRole (this (exec (clearToken clock decodeToken) w)) role = false
     /\ hasResourceRole (this (exec (clearToken clock decodeToken) w))
          role resource = Returns false)
  /\ (forall t r i tl,
        result_of (setToken clock decodeToken t r i tl) w = Ok tt ->
        or_undefined t = None ->
        forall role resource,
          hasRealmRole (this (exec (setToken clock decodeToken t r i tl) w))
            role = false
          /\ hasResourceRole
               (this (exec (setToken clock decodeToken t r i tl) w))
               role resource = Returns false).
Proof.
  assert (forall kc skew,
    token_state kc = logged_out skew ->
    forall role resource,
      hasRealmRole kc role = false
      /\ hasResourceRole kc role resource = Returns false)
    as Hnone.
  { intros kc skew Hstate role resource.
    pose proof (f_equal ts_realmAccess Hstate) as Hrealm.
    pose proof (f_equal ts_resourceAccess Hstate) as Hresource.
    cbn [ts_realmAccess ts_resourceAccess token_state logged_out]
      in Hrealm, Hresource.
    unfold hasRealmRole, hasResourceRole. by rewrite Hrealm, Hresource. }
  split.
  - intros Ht. unfold exec. rewrite (clearToken_run w Ht). cbn [snd].
    apply (Hnone _ (timeSkew (this w))). cbv zeta.
    rewrite <- timer_cleared_timeSkew.
    by destruct (onAuthLogout (this w)), (truthy (loginRequired (this w))).
  - intros t r i tl Hok Et role resource.
    pose proof (setToken_token_state t r i tl w Hok) as Hstate.
    unfold committed, claims_of in Hstate. rewrite Et in Hstate.
    pose proof (f_equal ts_realmAccess Hstate) as Hrealm.
    pose proof (f_equal ts_resourceAccess Hstate) as Hresource.
    cbn [ts_realmAccess ts_resourceAccess token_state] in Hrealm, Hresource.
    unfold hasRealmRole, hasResourceRole. by rewrite Hrealm, Hresource.
Qed.

(** **** More on expiry queries *)

Lemma verdict_returns (e : num) (minValidity : option num) :
  exists b, verdict e minValidity = Ok b.
Proof.
  unfold verdict. destruct minValidity as [[| | |q]|]; cbn; eauto.
  destruct (negb (Qeq_bool q 0)); eauto.
Qed.

(** X8: [isTokenExpired] is a query: it changes nothing in the session and
    has no effect besides reading the clock.  It fails only with
    ['Not authenticated'], exactly when no access-token claims are held or
    no refresh token is held outside the implicit flow; for no argument
    does it fail with ['Invalid minValidity']. *)
Theorem isTokenExpired_is_a_query (w : World) (minValidity : option num) :
  let m := isTokenExpired clock minValidity in
  this (exec m w) = this w
  /\ new_events w (exec m w) = []
  /\ result_of m w <> Throw InvalidMinValidity
  /\ (may_query_expiry (this w) = true -> exists b, result_of m w = Ok b)
  /\ (may_query_expiry (this w) = false ->
      result_of m w = Throw NotAuthenticated).
Proof.
  cbv zeta.
  pose proof (isTokenExpired_but_ticks minValidity w) as Hsame.
  unfold but_ticks in Hsame. injection Hsame as Hthis Hev _ _.
  split; [exact Hthis|]. split.
  { apply new_events_app. unfold exec. by rewrite Hev, app_nil_r. }
  rewrite isTokenExpired_result.
  destruct (may_query_expiry (this w)).
  - destruct (timeSkew (this w)) as [skew|].
    + destruct (verdict_returns (expiresIn_of clock w skew) minValidity)
        as [b ->].
      split; [discriminate|]. split; [eauto | discriminate].
    + split; [discriminate|]. split; [eauto | discriminate].
  - split; [discriminate|]. split; [discriminate | done].
Qed.

Lemma verdict_later (e skew : num) (z1 z2 : Z) (minValidity : option num) :
  (z1 <= z2)%Z ->
  verdict (add (sub e (of_Z z1)) skew) minValidity = Ok true ->
  verdict (add (sub e (of_Z z2)) skew) minValidity = Ok true.
Proof.
  intros Hz. rewrite Zle_Qle in Hz. unfold verdict, of_Z.
  set (q1 := inject_Z z1) in *. set (q2 := inject_Z z2) in *.
  destruct minValidity as [[| | |m]|], e as [| | |x], skew as [| | |s];
    cbn; try discriminate; try done;
    repeat match goal with
      | |- context [Qeq_bool ?q 0] => destruct (Qeq_bool q 0) eqn:?
      end; cbn; try discriminate; try done.
  all: intros [= H]; apply Qltb_true in H; f_equal; apply Qltb_true;
    unfold inject_Z in *; lra.
Qed.

(** X9: an expired token stays expired.  For the same session and the
    same [minValidity], if [isTokenExpired] returns true at one reading of
    the clock, it returns true at every later reading. *)
Theorem isTokenExpired_stays_expired (w1 w2 : World)
    (minValidity : option num) :
  this w2 = this w1 ->
  (clock (ticks w1) <= clock (ticks w2))%Z ->
  result_of (isTokenExpired clock minValidity) w1 = Ok true ->
  result_of (isTokenExpired clock minValidity) w2 = Ok true.
Proof.
  intros Hthis Hclock. rewrite !isTokenExpired_result, Hthis.
  destruct (may_query_expiry (this w1)); [|discriminate].
  destruct (timeSkew (this w1)) as [skew|]; [|done].
  unfold expiresIn_of. rewrite Hthis.
  cbn [scale ceil of_Z].
  apply verdict_later, Qceiling_resp_le.
  rewrite Zle_Qle in Hclock. lra.
Qed.

(** **** One call of [updateToken], in full *)

(** X10: [updateToken] never loses the deferred it makes.  The call
    returns it, and by then it has been rejected with
    ['missing refreshToken'] (no refresh token is held), or resolved with
    [false] (the refresh is not forced and the token is still valid for
    [minValidity]), or appended to the refresh queue without being
    settled.  In the first two cases the session is unchanged. *)
Theorem updateToken_never_loses_its_deferred (minValidity : option num)
    (w : World) :
  let m := updateToken clock formatQuerystringParameters minValidity in
  let d := fresh w in
  let w' := exec m w in
  result_of m w = Ok d
  /\ ((truthy (refreshToken (this w)) = false
       /\ new_events w w' = [Reject d (VStr "missing refreshToken")]
       /\ this w' = this w)
      \/ (truthy (refreshToken (this w)) = true
          /\ JsNum.eqb (nullish minValidity (of_Z 5)) (of_Z (-1)) = false
          /\ (exists skew,
                timeSkew (this w) = Some skew
                /\ verdict (expiresIn_of clock w skew)
                     (Some (nullish minValidity (of_Z 5)))
                   = Ok false)
          /\ new_events w w' = [Resolve d false]
          /\ this w' = this w)
      \/ (truthy (refreshToken (this w)) = true
          /\ refreshQueue (this w') = refreshQueue (this w) ++ [d]
          /\ settled (new_events w w') = [])).
Proof.
  cbv zeta. unfold result_of, exec, updateToken.
  rewrite run_bind. cbn [new_Deferred]. cbv beta iota zeta.
  rewrite run_bind.
  set (w0 := mkWorld _ _ _ _ (S (fresh w))).
  change (get_this w0) with (Ok (this w), w0). cbv beta iota.
  destruct (truthy (refreshToken (this w))) eqn:Hr; cbn [negb].
  2: { rewrite run_bind. cbn [emit]. cbv beta iota. cbn [mret M_ret fst snd].
       split; [reflexivity|]. left. split; [reflexivity|].
       split; [|reflexivity]. by apply new_events_app. }
  rewrite run_bind. unfold try_catch, runUpdateToken.
  rewrite run_bind.
  change (get_this w0) with (Ok (this w), w0). cbv beta iota.
  rewrite run_bind.
  set (mv := nullish minValidity (of_Z 5)).
  set (decide_refresh :=
         if JsNum.eqb mv (of_Z (-1)) then mret true
         else if negb (truthy (tokenParsed (this w))) then mret true
         else isTokenExpired clock (Some mv)).
  assert (exists (b : bool) (w1 : World),
    decide_refresh w0 = (Ok b, w1)
    /\ but_ticks w1 = but_ticks w0
    /\ (b = false ->
        JsNum.eqb mv (of_Z (-1)) = false
        /\ exists skew,
             timeSkew (this w) = Some skew
             /\ verdict (expiresIn_of clock w skew) (Some mv) = Ok false))
    as (b & w1 & -> & Hsame & Hvalid).
  { subst decide_refresh.
    destruct (JsNum.eqb mv (of_Z (-1))) eqn:Hforced;
      [exists true, w0; by repeat split|].
    destruct (truthy (tokenParsed (this w))) eqn:Hparsed; cbn [negb];
      [|exists true, w0; by repeat split].
    pose proof (isTokenExpired_but_ticks (Some mv) w0) as Hsame.
    pose proof (isTokenExpired_result w0 (Some mv)) as Hres.
    unfold result_of in Hres.
    destruct (isTokenExpired clock (Some mv) w0) as [res w1].
    cbn [fst snd] in Hsame, Hres. subst res.
    unfold may_query_expiry. change (this w0) with (this w).
    rewrite Hparsed, Hr. cbn [andb orb].
    destruct (timeSkew (this w)) as [skew|] eqn:Hskew;
      [|exists true, w1; by repeat split].
    change (expiresIn_of clock w0 skew) with (expiresIn_of clock w skew).
    destruct (verdict_returns (expiresIn_of clock w skew) (Some mv))
      as [b Hb].
    rewrite Hb. exists b, w1. split; [done|]. split; [done|].
    intros ->. split; [done|]. by exists skew. }
  unfold but_ticks in Hsame. injection Hsame as H1 H2 H3 H4.
  subst w0. cbn [this events inflight fresh] in *.
  destruct b; cbn [negb].
  2: { cbn [emit]. cbv beta iota. cbn [mret M_ret fst snd this].
       split; [reflexivity|]. right. left.
       destruct (Hvalid eq_refl) as [Hforced Hstill].
       split; [done|]. split; [done|]. split; [done|].
       split; [|done]. apply new_events_app. cbn [events]. by rewrite H2. }
  rewrite run_bind. cbn [modify]. cbv beta iota. rewrite run_bind.
  set (w2 := mkWorld _ _ _ _ _).
  change (get_this w2) with (Ok (this w2), w2). cbv beta iota.
  subst w2. cbn [this]. rewrite H1.
  change (refreshQueue (set_refreshQueue ?q _)) with q.
  destruct (Nat.eqb (length (refreshQueue (this w) ++ [fresh w])) 1).
  - cbn [when]. rewrite run_bind.
    cbn [getTime]. cbv beta iota. rewrite run_bind. cbn [emit].
    cbv beta iota. cbn [suspend mret M_ret fst snd this events].
    split; [reflexivity|]. right. right. split; [done|].
    change (refreshQueue (set_refreshQueue ?q _)) with q.
    split; [done|].
    erewrite new_events_app; [|cbn [events]; by rewrite H2]. reflexivity.
  - cbn [when mret M_ret fst snd this events].
    split; [reflexivity|]. right. right. split; [done|].
    change (refreshQueue (set_refreshQueue ?q _)) with q.
    split; [done|].
    erewrite new_events_app; [|cbn [events]; by rewrite H2, app_nil_r].
    reflexivity.
Qed.

(** **** When the refresh succeeds *)

Lemma bystander_outside (w w' : World) :
  bystander w' = bystander w ->
  outside_tokens (this w') = outside_tokens (this w).
Proof. unfold bystander. congruence. Qed.

Lemma token_state_drained (settle : Deferred -> Event) (w : World) :
  token_state (this (drained settle w)) = token_state (this w).
Proof. reflexivity. Qed.

Lemma refresh_succeeded_run (timeLocal : num) (response : TokenResponse.t)
    (w : World) :
  truthy (TokenResponse.error response) = false ->
  storable decodeToken (TokenResponse.access_token response)
    (TokenResponse.refresh_token response)
    (TokenResponse.id_token response) ->
  let midpoint := scale (1 # 2) (add timeLocal (of_Z (clock (ticks w)))) in
  let w1 :=
    exec (setToken clock decodeToken (TokenResponse.access_token response)
            (TokenResponse.refresh_token response)
            (TokenResponse.id_token response) (Some midpoint))
      (mkWorld (this w) (events w) (S (ticks w)) (inflight w) (fresh w)) in
  refreshTokens_settled clock decodeToken timeLocal (Ok response) w
  = (Ok tt,
     drained resolve_true
       (if onAuthRefreshSuccess (this w1)
        then snd (emit OnAuthRefreshSuccess w1) else w1)).
Proof.
  intros Herr Hstorable. cbv zeta.
  unfold refreshTokens_settled, try_catch, refresh_try.
  assert (or_undefined (TokenResponse.error response) = None) as ->
    by (unfold or_undefined; by rewrite Herr).
  rewrite run_bind.
  change (getTime clock w) with
    (Ok (of_Z (clock (ticks w))),
     mkWorld (this w) (events w) (S (ticks w)) (inflight w) (fresh w)).
  cbv beta iota zeta. rewrite run_bind.
  set (w0 := mkWorld _ _ _ _ _).
  set (m := setToken clock decodeToken _ _ _ _).
  pose proof (proj2 (setToken_returns _ _ _
                       (Some (scale (1 # 2)
                                (add timeLocal (of_Z (clock (ticks w))))))
                       w0) Hstorable) as Hret.
  fold m in Hret. unfold result_of, exec in *.
  destruct (m w0) as [res w1]. cbn [fst snd] in *. subst res.
  rewrite run_bind, notify_run. cbv beta iota. by rewrite drain_run.
Qed.

(** X11: when the pending refresh call is answered without an [error] and
    with an access token the decoder finds claims in, the session holds
    the tokens of the response, [authenticated] is true, and [timeSkew] is
    computed from the midpoint between the time of the call and the time
    of the answer, [floor(((timeLocal + now) / 2) / 1000) - iat].  The
    [onAuthRefreshSuccess] handler is called if one is set, every waiter is
    resolved with [true], the last one first, and the queue is empty. *)
Theorem refresh_success_commits (w : World) (timeLocal : num)
    (others : list num) (response : TokenResponse.t) (raw : string)
    (claims : TokenParsed.t) :
  inflight w = timeLocal :: others ->
  truthy (TokenResponse.error response) = false ->
  or_undefined (TokenResponse.access_token response) = Some raw ->
  decodeToken raw = Ok (Some claims) ->
  decodes decodeToken (TokenResponse.refresh_token response) ->
  decodes decodeToken (TokenResponse.id_token response) ->
  let w' := exec (resume_refresh clock decodeToken (Ok response)) w in
  let midpoint := scale (1 # 2) (add timeLocal (of_Z (clock (ticks w)))) in
  token (this w') = Some raw
  /\ tokenParsed (this w') = Some claims
  /\ refreshToken (this w')
     = or_undefined (TokenResponse.refresh_token response)
  /\ idToken (this w') = or_undefined (TokenResponse.id_token response)
  /\ authenticated (this w') = Some true
  /\ timeSkew (this w')
     = (if truthy midpoint then Some (skew_of midpoint claims)
        else timeSkew (this w))
  /\ (onAuthRefreshSuccess (this w) = true ->
      In OnAuthRefreshSuccess (new_events w w'))
  /\ settled (new_events w w')
     = map (fun d => (d, Resolved true)) (reverse (refreshQueue (this w)))
  /\ refreshQueue (this w') = []
  /\ inflight w' = others.
Proof.
  intros Hin Herr Et D Hr Hi. cbv zeta. unfold exec.
  rewrite (resume_refresh_run (Ok response) w timeLocal others Hin).
  assert (storable decodeToken (TokenResponse.access_token response)
            (TokenResponse.refresh_token response)
            (TokenResponse.id_token response)) as Hstorable.
  { split; [exact Hr|]. split; [exact Hi|].
    intros raw' E. rewrite Et in E. injection E as <-. eauto. }
  rewrite (refresh_succeeded_run timeLocal response (resumed w) Herr
             Hstorable).
  cbn [snd]. cbv zeta.
  change (ticks (resumed w)) with (ticks w).
  set (midpoint := scale (1 # 2) (add timeLocal (of_Z (clock (ticks w))))).
  set (w0 := mkWorld _ _ _ _ _).
  set (m := setToken clock decodeToken _ _ _ _).
  pose proof (proj2 (setToken_returns _ _ _ (Some midpoint) w0) Hstorable)
    as Hret.
  pose proof (setToken_token_state _ _ _ _ w0 Hret) as Hstate.
  pose proof (undisturbed_by m w0 (setToken_bystander _ _ _ _)
                (setToken_quiet _ _ _ _)) as Hu.
  fold m in Hstate. fold (exec m w0) in Hu.
  set (w1 := exec m w0) in *.
  unfold committed, claims_of in Hstate. rewrite Et, D in Hstate.
  set (w2 := if onAuthRefreshSuccess (this w1)
             then snd (emit OnAuthRefreshSuccess w1) else w1).
  assert (token_state (this w2) = token_state (this w1)) as Hsame.
  { subst w2. by destruct (onAuthRefreshSuccess (this w1)). }
  assert (undisturbed w1 w2) as Hu2.
  { subst w2. destruct (onAuthRefreshSuccess (this w1));
      [|apply undisturbed_refl].
    split; [done|]. exists [OnAuthRefreshSuccess].
    split; [done|]. by repeat constructor. }
  assert (undisturbed (resumed w) w0) as Hu0.
  { split; [reflexivity|]. exists []. by rewrite app_nil_r. }
  pose proof (bystander_outside _ _ (proj1 Hu)) as Hout.
  assert (onAuthRefreshSuccess (this w1) = onAuthRefreshSuccess (this w))
    as Hhandler.
  { change (onAuthRefreshSuccess (outside_tokens (this w1))
            = onAuthRefreshSuccess (outside_tokens (this w0))).
    by rewrite Hout. }
  assert (undisturbed (resumed w) w2) as Hall.
  { eapply undisturbed_trans; [exact Hu0|].
    eapply undisturbed_trans; [exact Hu | exact Hu2]. }
  apply undisturbed_resumed in Hall as (Hq & Hinf & _ & Hev).
  destruct (drained_observed resolve_true (Resolved true) w w2)
    as (Hsettled & _ & Hempty); try done.
  rewrite <- Hsame in Hstate.
  pose proof (f_equal ts_token Hstate).
  pose proof (f_equal ts_tokenParsed Hstate).
  pose proof (f_equal ts_refreshToken Hstate).
  pose proof (f_equal ts_idToken Hstate).
  pose proof (f_equal ts_authenticated Hstate).
  pose proof (f_equal ts_timeSkew Hstate) as Hskew.
  cbn [ts_timeSkew token_state skew_after] in Hskew.
  repeat (split; [done|]).
  split; [|split; [exact Hsettled|split; [exact Hempty|]]].
  - intros Hset.
    destruct Hu as [_ (evs1 & Hev1 & _)].
    rewrite (new_events_app w (drained resolve_true w2)
               (evs1 ++ [OnAuthRefreshSuccess]
                ++ map resolve_true (reverse (refreshQueue (this w))))).
    + apply in_or_app. right. by left.
    + unfold drained. cbn [events]. rewrite Hq. subst w2.
      rewrite Hhandler, Hset. cbn [emit snd events].
      by rewrite Hev1, <- !app_assoc.
  - cbn [drained inflight]. by rewrite Hinf, Hin.
Qed.


(** **** Every waiter of a refresh gets the same outcome *)

Lemma succeeded_not_failed (outcome : Settled) :
  succeeded decodeToken outcome -> ~ failed outcome.
Proof.
  destruct outcome as [tokenResponse|err]; [|done].
  cbn [succeeded failed]. intros [Herr _] Hf. congruence.
Qed.

Lemma classic_succeeded (w : World) (outcome : Settled) :
  succeeded decodeToken outcome \/ ~ succeeded decodeToken outcome.
Proof.
  destruct outcome as [tokenResponse|err]; [|right; intros H; exact H].
  cbn [succeeded].
  destruct (truthy (TokenResponse.error tokenResponse));
    [right; by intros [? _]|].
  pose proof (setToken_returns (TokenResponse.access_token tokenResponse)
                (TokenResponse.refresh_token tokenResponse)
                (TokenResponse.id_token tokenResponse) None w) as Hret.
  destruct (result_of _ _) as [[]|e].
  - left. split; [done | by apply Hret].
  - right. intros [_ Hst]. apply Hret in Hst. discriminate.
Qed.

(** When the token endpoint answers without an [error], the waiters are
    resolved if [setToken] accepts the tokens of the answer, and rejected
    if it throws. *)
Lemma refresh_answered_run (timeLocal : num) (response : TokenResponse.t)
    (w : World) :
  truthy (TokenResponse.error response) = false ->
  (storable decodeToken (TokenResponse.access_token response)
     (TokenResponse.refresh_token response)
     (TokenResponse.id_token response)
   /\ exists w',
        refreshTokens_settled clock decodeToken timeLocal (Ok response) w
        = (Ok tt, drained resolve_true w')
        /\ undisturbed w w')
  \/ (~ storable decodeToken (TokenResponse.access_token response)
         (TokenResponse.refresh_token response)
         (TokenResponse.id_token response)
      /\ exists w',
           refreshTokens_settled clock decodeToken timeLocal (Ok response) w
           = (Ok tt, drained reject_true w')
           /\ undisturbed w w').
Proof.
  intros Herr. unfold refreshTokens_settled, try_catch, refresh_try.
  assert (or_undefined (TokenResponse.error response) = None) as ->
    by (unfold or_undefined; by rewrite Herr).
  rewrite run_bind.
  change (getTime clock w) with
    (Ok (of_Z (clock (ticks w))),
     mkWorld (this w) (events w) (S (ticks w)) (inflight w) (fresh w)).
  cbv beta iota zeta.
  set (w0 := mkWorld _ _ _ _ _).
  assert (undisturbed w w0) as H0.
  { split; [reflexivity|]. exists []. by rewrite app_nil_r. }
  rewrite run_bind.
  set (tl := Some (scale (1 # 2) (add timeLocal (of_Z (clock (ticks w)))))).
  pose proof (setToken_returns (TokenResponse.access_token response)
                (TokenResponse.refresh_token response)
                (TokenResponse.id_token response) tl w0) as Hret.
  pose proof (undisturbed_by
                (setToken clock decodeToken
                   (TokenResponse.access_token response)
                   (TokenResponse.refresh_token response)
                   (TokenResponse.id_token response) tl) w0
                (setToken_bystander _ _ _ _) (setToken_quiet _ _ _ _))
    as Hu.
  unfold result_of in Hret.
  destruct (setToken clock decodeToken _ _ _ tl w0) as [[[]|e] w1];
    cbn [fst snd] in Hret, Hu.
  - left. split; [by apply Hret|].
    rewrite run_bind, notify_run. cbv beta iota. rewrite drain_run.
    eexists. split; [reflexivity|].
    eapply undisturbed_trans; [exact H0|].
    eapply undisturbed_trans; [exact Hu|].
    destruct (onAuthRefreshSuccess (this w1)); [|apply undisturbed_refl].
    split; [done|]. exists [OnAuthRefreshSuccess].
    split; [done|]. by repeat constructor.
  - right. split; [intros Hst; apply Hret in Hst; discriminate|].
    rewrite refresh_catch_run. eexists. split; [reflexivity|].
    eapply undisturbed_trans; [exact H0|].
    eapply undisturbed_trans; [exact Hu | apply undisturbed_caught].
Qed.

(** C1: take a session in which nobody waits, or somebody waits with one
    refresh call pending.  After any number of [updateToken] calls made
    before the response arrives, still at most one call is pending; the
    calls made exactly one [adapter.refreshTokens] call if they started
    the queue and none otherwise; a call dispatches only when it finds the
    queue empty; and when the response arrives every enqueued deferred,
    each a different one, is settled, all with the same outcome, without
    another network call, leaving the queue empty.  The outcome is
    resolved with [true] when the refresh succeeds, and rejected in every
    other case: the call fails, the answer carries an [error], or
    [setToken] throws on the tokens of the answer. *)
Theorem single_flight_refresh (w : World) (calls : list (option num))
    (outcome : Settled) :
  coherent w ->
  let w1 := run_calls clock formatQuerystringParameters calls w in
  let w2 := exec (resume_refresh clock decodeToken outcome) w1 in
  coherent w1
  /\ (refreshQueue (this w) = [] -> refreshQueue (this w1) <> [] ->
      dispatches (new_events w w1) = 1)
  /\ (refreshQueue (this w) <> [] \/ refreshQueue (this w1) = [] ->
      dispatches (new_events w w1) = 0)
  /\ (forall before c after,
        calls = before ++ c :: after ->
        let wb := run_calls clock formatQuerystringParameters before w in
        dispatches
          (new_events wb
             (exec (updateToken clock formatQuerystringParameters c) wb))
        <> 0 ->
        refreshQueue (this wb) = [])
  /\ dispatches (new_events w1 w2) = 0
  /\ (exists o : Outcome,
        (o = Resolved true \/ o = Rejected (VBool true))
        /\ (failed outcome -> o = Rejected (VBool true))
        /\ (succeeded decodeToken outcome -> o = Resolved true)
        /\ (~ succeeded decodeToken outcome -> o = Rejected (VBool true))
        /\ settled (new_events w1 w2)
           = map (fun d => (d, o)) (reverse (refreshQueue (this w1))))
  /\ NoDup (refreshQueue (this w1))
  /\ refreshQueue (this w2) = []
  /\ inflight w2 = [].
Proof.
  intros Hco w1 w2.
  destruct (run_calls_effect calls w Hco) as (Hco1 & Hmono & evs & Hev & Hn).
  fold w1 in Hco1, Hmono, Hev, Hn.
  rewrite (new_events_app w w1 evs Hev).
  split; [exact Hco1|].
  destruct Hco as (_ & _ & Hco). destruct Hco1 as (Hnd1 & _ & Hco1).
  split; [|split; [|split]].
  - intros Hidle Hbusy.
    destruct Hco as [[_ E]|[? _]]; [|done].
    destruct Hco1 as [[? _]|[_ [t E1]]]; [done|].
    rewrite E, E1 in Hn. cbn in Hn. lia.
  - intros Hcase.
    destruct Hco as [[Hq E]|[Hq [t E]]];
      destruct Hco1 as [[Hq1 E1]|[Hq1 [t1 E1]]];
      rewrite E, E1 in Hn; cbn in Hn; try lia.
    destruct Hcase; done.
  - intros before c after -> wb. apply call_effect_dispatch, updateToken_effect.
  - subst w2. unfold exec.
    destruct Hco1 as [[Hq1 E1]|[Hq1 [t E1]]].
    + (* nobody waits: no suspended method to resume *)
      unfold resume_refresh. rewrite E1. cbn [snd].
      assert (new_events w1 w1 = []) as ->.
      { apply new_events_app. by rewrite app_nil_r. }
      rewrite Hq1. split; [done|].
      split; [|split; [apply NoDup_nil_2 | done]].
      destruct (classic_succeeded w outcome) as [Hs|Hs].
      * exists (Resolved true).
        split; [by left|].
        split; [intros Hf; by destruct (succeeded_not_failed outcome Hs)|].
        split; [done|]. split; [intros Hnot; by destruct Hnot | done].
      * exists (Rejected (VBool true)).
        split; [by right|]. split; [done|].
        split; [intros Hy; by destruct Hs | done].
    + rewrite (resume_refresh_run outcome w1 t [] E1).
      assert (exists (settle : Deferred -> Event) (o : Outcome) (w' : World),
        (o = Resolved true \/ o = Rejected (VBool true))
        /\ (failed outcome -> o = Rejected (VBool true))
        /\ (succeeded decodeToken outcome -> o = Resolved true)
        /\ (~ succeeded decodeToken outcome -> o = Rejected (VBool true))
        /\ (forall d, settlement (settle d) = Some (d, o))
        /\ (forall d, is_dispatch (settle d) = false)
        /\ refreshTokens_settled clock decodeToken t outcome (resumed w1)
           = (Ok tt, drained settle w')
        /\ undisturbed (resumed w1) w')
        as (settle & o & w' & Ho & Hfail & Hyes & Hno & Hs & Hd & -> & Hu).
      { destruct (classic_failed outcome) as [Hf|Hf].
        - exists reject_true, (Rejected (VBool true)). eexists.
          split; [by right|]. split; [done|].
          split; [intros Hs; by destruct (succeeded_not_failed outcome Hs)|].
          split; [done|]. split; [done|]. split; [done|].
          split; [apply (refresh_failed_run t outcome (resumed w1) Hf)|].
          eapply undisturbed_trans; [|apply undisturbed_caught].
          destruct outcome; [|apply undisturbed_refl].
          apply undisturbed_by;
            [apply clearToken_bystander | apply clearToken_quiet].
        - destruct outcome as [tokenResponse|err]; [|by destruct Hf].
          cbn [failed] in Hf.
          assert (truthy (TokenResponse.error tokenResponse) = false)
            as Herr by (by destruct (truthy _)).
          destruct (refresh_answered_run t tokenResponse (resumed w1) Herr)
            as [(Hst & w' & E & Hu) | (Hst & w' & E & Hu)].
          + exists resolve_true, (Resolved true), w'.
            split; [by left|]. split; [by intros ?|]. split; [done|].
            split; [intros Hnot; destruct Hnot; by split|].
            split; [done|]. split; [done|]. split; [exact E | exact Hu].
          + exists reject_true, (Rejected (VBool true)), w'.
            split; [by right|]. split; [done|].
            split; [by intros [_ ?]|]. split; [done|].
            split; [done|]. split; [done|]. split; [exact E | exact Hu]. }
      cbn [snd].
      apply undisturbed_resumed in Hu as (Hq & Hin & _ & Hev').
      destruct (drained_observed settle o w1 w' Hs Hd Hq Hev')
        as (Hsettled & Hnone & Hempty).
      split; [exact Hnone|]. split; [by exists o|]. split; [exact Hnd1|].
      split; [exact Hempty|].
      cbn [drained inflight]. by rewrite Hin, E1.
Qed.

(** **** The commit step, [authSuccess] *)

(** As [effects], for a property of the effects that [tac] proves of each
    one. *)
Ltac emits_step tac :=
  lazymatch goal with
  | |- emits _ (_ ≫= _) => apply emits_bind; [|intros ?]
  | |- emits _ (try_catch _ _) => apply emits_try_catch; [|intros ?]
  | |- emits _ (when _ _) => apply emits_when
  | |- emits _ (emit _) => apply emits_emit; tac
  | |- emits _ (notify _ _) => apply emits_notify; tac
  | |- emits _ (match ?x with _ => _ end) => destruct x
  | |- emits _ (mret _) => apply emits_silent, keeps_ret
  | |- emits _ (throw _) => apply emits_silent, keeps_throw
  | |- emits _ get_this => apply emits_silent, keeps_get_this
  | |- emits _ (call_decodeToken _ _) =>
      apply emits_silent, keeps_call_decodeToken
  | |- emits _ (modify _) => apply emits_silent, keeps_modify; by intros ?
  | |- emits _ (getTime _) => apply emits_silent, keeps_getTime; by intros ?
  | |- emits _ ?m => let h := head_of m in unfold h
  end.

Ltac emits_only tac := repeat (emits_step tac).

Lemma setToken_timer_events t r i tl :
  emits timer_event (setToken clock decodeToken t r i tl).
Proof. emits_only ltac:(exact I). Qed.

Lemma authSuccess_run (oauthObj : OAuthResponse) (timeLocal : num)
    (fulfillPromise : bool) (w : World) :
  authSuccess clock decodeToken oauthObj timeLocal fulfillPromise w
  = match setToken clock decodeToken (str_prop oauthObj "access_token")
            (str_prop oauthObj "refresh_token")
            (str_prop oauthObj "id_token")
            (Some (midpoint clock timeLocal w)) (ticked w) with
    | (Ok _, w1) =>
        if truthy (useNonce (this w1)) && nonce_mismatch (this w1) oauthObj
        then
          match clearToken clock decodeToken w1 with
          | (Ok _, w2) => (Throw NonceMismatch, w2)
          | (Throw e, w2) => (Throw e, w2)
          end
        else
          (Ok tt,
           if fulfillPromise && onAuthSuccess (this w1)
           then snd (emit OnAuthSuccess w1) else w1)
    | (Throw e, w1) => (Throw e, w1)
    end.
Proof.
  unfold authSuccess, midpoint. rewrite run_bind.
  change (getTime clock w) with (Ok (of_Z (clock (ticks w))), ticked w).
  cbv beta iota zeta. rewrite run_bind.
  destruct (setToken _ _ _ _ _ _ _) as [[[]|e] w1]; [|done].
  rewrite run_bind.
  change (get_this w1) with (Ok (this w1), w1). cbv beta iota.
  fold (nonce_mismatch (this w1) oauthObj).
  destruct (truthy (useNonce (this w1)) && nonce_mismatch (this w1) oauthObj).
  - rewrite run_bind. by destruct (clearToken clock decodeToken w1) as [[[]|e] w2].
  - destruct fulfillPromise; cbn [when andb]; [|done].
    by rewrite notify_run.
Qed.

Lemma or_undefined_Some (o : option string) (s : string) :
  or_undefined o = Some s -> o = Some s /\ truthy o = true.
Proof.
  unfold or_undefined. destruct (truthy o) eqn:E; [|discriminate].
  by intros ->.
Qed.

Lemma timer_events_only (evs : list Event) (e : Event) :
  Forall timer_event evs -> In e evs -> timer_event e.
Proof. intros H Hin. rewrite Forall_forall in H. by apply H, list_elem_of_In. Qed.

Lemma setToken_committed t r i tl (w : World) :
  result_of (setToken clock decodeToken t r i tl) w = Ok tt ->
  let kc' := this (exec (setToken clock decodeToken t r i tl) w) in
  token kc' = or_undefined t
  /\ tokenParsed kc' = claims_of decodeToken t
  /\ refreshToken kc' = or_undefined r
  /\ refreshTokenParsed kc' = claims_of decodeToken r
  /\ idToken kc' = or_undefined i
  /\ idTokenParsed kc' = claims_of decodeToken i.
Proof.
  intros Hok kc'.
  pose proof (setToken_token_state t r i tl w Hok) as Hstate.
  apply setToken_returns in Hok as (_ & _ & Ht).
  fold kc' in Hstate. unfold committed in Hstate.
  assert (claims_of decodeToken t = None -> or_undefined t = None) as Hnone.
  { unfold claims_of. destruct (or_undefined t) as [raw|]; [|done].
    destruct (Ht raw eq_refl) as [claims ->]. discriminate. }
  destruct (claims_of decodeToken t) as [claims|];
    [|rewrite Hnone by done];
    pose proof (f_equal ts_token Hstate);
    pose proof (f_equal ts_tokenParsed Hstate);
    pose proof (f_equal ts_refreshToken Hstate);
    pose proof (f_equal ts_refreshTokenParsed Hstate);
    pose proof (f_equal ts_idToken Hstate);
    pose proof (f_equal ts_idTokenParsed Hstate);
    by repeat split.
Qed.

Lemma clearToken_after (w : World) :
  truthy (token (this w)) = true ->
  let w' := snd (clearToken clock decodeToken w) in
  fst (clearToken clock decodeToken w) = Ok tt
  /\ token_state (this w') = logged_out (timeSkew (this w))
  /\ exists evs,
       events w' = events w ++ evs
       /\ ~ In OnAuthSuccess evs
       /\ (onAuthLogout (this w) = true -> In OnAuthLogout evs).
Proof.
  intros Ht. rewrite (clearToken_run w Ht). cbn [fst snd]. cbv zeta.
  split; [reflexivity|]. split.
  { rewrite <- timer_cleared_timeSkew.
    by destruct (onAuthLogout (this w)), (truthy (loginRequired (this w))). }
  set (clear := if truthy (tokenTimeoutHandle (this w))
                then [ClearTimeout] else []).
  assert (events (assigned signed_out (timer_cleared w)) = events w ++ clear)
    as Hev.
  { subst clear. unfold timer_cleared.
    destruct (truthy (tokenTimeoutHandle (this w))); [done|].
    cbn [assigned events]. by rewrite app_nil_r. }
  assert (~ In OnAuthSuccess clear) as Hclear.
  { subst clear. destruct (truthy (tokenTimeoutHandle (this w)));
      cbn; intuition discriminate. }
  exists (clear
          ++ (if onAuthLogout (this w) then [OnAuthLogout] else [])
          ++ (if truthy (loginRequired (this w)) then [AdapterLogin] else [])).
  split; [|split].
  - destruct (onAuthLogout (this w)), (truthy (loginRequired (this w)));
      cbn [emit snd events]; rewrite Hev;
      rewrite <- ?app_assoc; cbn [app]; by rewrite ?app_nil_r.
  - intros Hin. apply in_app_or in Hin as [Hin|Hin]; [done|].
    destruct (onAuthLogout (this w)), (truthy (loginRequired (this w)));
      cbn in Hin; intuition discriminate.
  - intros ->. apply in_or_app. right. by left.
Qed.

(** X12: with nonce checking enabled, when the callback carries an access
    token and the claims of its access, refresh or id token have a nonce
    that is not the stored one, [authSuccess] fails with
    ['invalid nonce, token cleared'] and the session holds no token and no
    claims, with [authenticated] false.  The [onAuthSuccess] handler is not
    called; the [onAuthLogout] handler is, if one is set. *)
Theorem authSuccess_nonce_mismatch_clears (oauthObj : OAuthResponse)
    (timeLocal : num) (fulfillPromise : bool) (w : World) (raw : string) :
  truthy (useNonce (this w)) = true ->
  or_undefined (str_prop oauthObj "access_token") = Some raw ->
  storable decodeToken (str_prop oauthObj "access_token")
    (str_prop oauthObj "refresh_token") (str_prop oauthObj "id_token") ->
  nonce_differs (claims_of decodeToken (str_prop oauthObj "access_token"))
    oauthObj
  || nonce_differs (claims_of decodeToken (str_prop oauthObj "refresh_token"))
       oauthObj
  || nonce_differs (claims_of decodeToken (str_prop oauthObj "id_token"))
       oauthObj
  = true ->
  let m := authSuccess clock decodeToken oauthObj timeLocal fulfillPromise in
  let w' := exec m w in
  result_of m w = Throw NonceMismatch
  /\ tokens_absent (this w')
  /\ authenticated (this w') = Some false
  /\ subject (this w') = None
  /\ realmAccess (this w') = None
  /\ resourceAccess (this w') = None
  /\ ~ In OnAuthSuccess (new_events w w')
  /\ (onAuthLogout (this w) = true -> In OnAuthLogout (new_events w w')).
Proof.
  intros Hnonce Et Hstorable Hdiffers. cbv zeta.
  unfold result_of, exec. rewrite authSuccess_run.
  set (t := str_prop oauthObj "access_token") in *.
  set (r := str_prop oauthObj "refresh_token") in *.
  set (i := str_prop oauthObj "id_token") in *.
  set (tl := Some (midpoint clock timeLocal w)).
  pose proof (proj2 (setToken_returns t r i tl (ticked w)) Hstorable) as Hret.
  pose proof (setToken_committed t r i tl (ticked w) Hret)
    as (Ha & Hap & _ & Hrp & _ & Hip).
  pose proof (setToken_bystander t r i tl (ticked w)) as Hby.
  destruct (setToken_timer_events t r i tl (ticked w))
    as (evs1 & Hev1 & Htimer).
  set (m := setToken clock decodeToken t r i tl) in *.
  unfold result_of, exec in *.
  destruct (m (ticked w)) as [res w1]. cbn [fst snd] in *. subst res.
  apply bystander_outside in Hby.
  assert (useNonce (this w1) = useNonce (this w)) as ->.
  { change (useNonce (outside_tokens (this w1))
            = useNonce (outside_tokens (this (ticked w)))).
    by rewrite Hby. }
  assert (onAuthLogout (this w1) = onAuthLogout (this w)) as Hlogout.
  { change (onAuthLogout (outside_tokens (this w1))
            = onAuthLogout (outside_tokens (this (ticked w)))).
    by rewrite Hby. }
  unfold nonce_mismatch. rewrite Hap, Hrp, Hip, Hdiffers, Hnonce.
  cbn [andb].
  assert (truthy (token (this w1)) = true) as Htoken.
  { rewrite Ha, Et. apply or_undefined_Some in Et as [-> Ht]. exact Ht. }
  destruct (clearToken_after w1 Htoken)
    as (Hres & Hstate & evs2 & Hev2 & Hno & Hout).
  destruct (clearToken clock decodeToken w1) as [res w2].
  cbn [fst snd] in *. subst res.
  split; [reflexivity|].
  pose proof (f_equal ts_token Hstate).
  pose proof (f_equal ts_tokenParsed Hstate).
  pose proof (f_equal ts_refreshToken Hstate).
  pose proof (f_equal ts_refreshTokenParsed Hstate).
  pose proof (f_equal ts_idToken Hstate).
  pose proof (f_equal ts_idTokenParsed Hstate).
  pose proof (f_equal ts_authenticated Hstate).
  pose proof (f_equal ts_subject Hstate).
  pose proof (f_equal ts_realmAccess Hstate).
  pose proof (f_equal ts_resourceAccess Hstate).
  split; [by repeat split|]. repeat (split; [done|]).
  cbn [snd].
  rewrite (new_events_app w w2 (evs1 ++ evs2))
    by (rewrite Hev2, Hev1; cbn [ticked events]; by rewrite app_assoc).
  split.
  - intros Hin. apply in_app_or in Hin as [Hin|Hin]; [|done].
    by apply (timer_events_only _ _ Htimer) in Hin.
  - intros Hset. apply in_or_app. right. apply Hout. congruence.
Qed.

Lemma nonce_agrees (parsed : option TokenParsed.t) (oauthObj : OAuthResponse)
    (claims : TokenParsed.t) :
  nonce_differs parsed oauthObj = false ->
  parsed = Some claims ->
  strict_eq (of_opt (TokenParsed.nonce claims)) (prop oauthObj "storedNonce")
  = true.
Proof. intros H ->. cbn in H. by apply negb_false_iff in H. Qed.

(** X13: when [authSuccess] returns normally, the session holds the
    tokens of the response, and with nonce checking enabled the claims of
    every token it holds carry the stored nonce.  The [onAuthSuccess]
    handler is called exactly when the caller asked for it and a handler is
    set. *)
Theorem authSuccess_accepts_only_the_stored_nonce (oauthObj : OAuthResponse)
    (timeLocal : num) (fulfillPromise : bool) (w : World) :
  let m := authSuccess clock decodeToken oauthObj timeLocal fulfillPromise in
  let w' := exec m w in
  result_of m w = Ok tt ->
  token (this w') = or_undefined (str_prop oauthObj "access_token")
  /\ refreshToken (this w') = or_undefined (str_prop oauthObj "refresh_token")
  /\ idToken (this w') = or_undefined (str_prop oauthObj "id_token")
  /\ (truthy (useNonce (this w)) = true ->
      forall claims,
        tokenParsed (this w') = Some claims
        \/ refreshTokenParsed (this w') = Some claims
        \/ idTokenParsed (this w') = Some claims ->
        strict_eq (of_opt (TokenParsed.nonce claims))
                  (prop oauthObj "storedNonce") = true)
  /\ (In OnAuthSuccess (new_events w w')
      <-> fulfillPromise = true /\ onAuthSuccess (this w) = true).
Proof.
  cbv zeta. unfold result_of, exec. rewrite authSuccess_run.
  set (t := str_prop oauthObj "access_token") in *.
  set (r := str_prop oauthObj "refresh_token") in *.
  set (i := str_prop oauthObj "id_token") in *.
  set (tl := Some (midpoint clock timeLocal w)).
  pose proof (setToken_committed t r i tl (ticked w)) as Hcommitted.
  pose proof (setToken_bystander t r i tl (ticked w)) as Hby.
  destruct (setToken_timer_events t r i tl (ticked w))
    as (evs1 & Hev1 & Htimer).
  set (m := setToken clock decodeToken t r i tl) in *.
  unfold result_of, exec in *.
  destruct (m (ticked w)) as [[[]|e] w1]; cbn [fst snd] in *;
    [|discriminate].
  destruct (Hcommitted eq_refl) as (Ha & _ & Hr & _ & Hi & _).
  clear Hcommitted. apply bystander_outside in Hby.
  assert (useNonce (this w1) = useNonce (this w)) as ->.
  { change (useNonce (outside_tokens (this w1))
            = useNonce (outside_tokens (this (ticked w)))).
    by rewrite Hby. }
  assert (onAuthSuccess (this w1) = onAuthSuccess (this w)) as ->.
  { change (onAuthSuccess (outside_tokens (this w1))
            = onAuthSuccess (outside_tokens (this (ticked w)))).
    by rewrite Hby. }
  destruct (truthy (useNonce (this w)) && nonce_mismatch (this w1) oauthObj)
    eqn:Hcheck.
  { by destruct (clearToken clock decodeToken w1) as [[[]|e] w2]. }
  intros _. cbn [snd].
  set (w2 := if fulfillPromise && onAuthSuccess (this w)
             then snd (emit OnAuthSuccess w1) else w1).
  assert (this w2 = this w1) as Hthis.
  { subst w2. by destruct (fulfillPromise && onAuthSuccess (this w)). }
  rewrite Hthis. repeat (split; [done|]). split.
  - intros Hnonce claims Hheld. rewrite Hnonce in Hcheck.
    cbn [andb] in Hcheck. unfold nonce_mismatch in Hcheck.
    apply orb_false_elim in Hcheck as [Hcheck Hid].
    apply orb_false_elim in Hcheck as [Haccess Hrefresh].
    destruct Hheld as [H|[H|H]]; eauto using nonce_agrees.
  - rewrite (new_events_app w w2
               (evs1 ++ if fulfillPromise && onAuthSuccess (this w)
                        then [OnAuthSuccess] else [])).
    + split.
      * intros Hin. apply in_app_or in Hin as [Hin|Hin].
        -- by apply (timer_events_only _ _ Htimer) in Hin.
        -- destruct fulfillPromise, (onAuthSuccess (this w)); by cbn in Hin.
      * intros [-> ->]. apply in_or_app. right. by left.
    + subst w2. destruct (fulfillPromise && onAuthSuccess (this w));
        cbn [emit snd events]; rewrite Hev1; cbn [ticked events];
        by rewrite <- ?app_assoc, ?app_nil_r.
Qed.

(** **** [processCallback], branch by branch *)

Lemma announced_run (oauth : OAuthResponse) (w : World) :
  when (truthy (prop oauth "kc_action_status"))
    (notify onActionUpdate (OnActionUpdate (prop oauth "kc_action_status"))) w
  = (Ok tt, announced oauth w).
Proof.
  unfold when, announced.
  destruct (truthy (prop oauth "kc_action_status")); [|done].
  by rewrite notify_run.
Qed.

Lemma announced_this (oauth : OAuthResponse) (w : World) :
  this (announced oauth w) = this w.
Proof.
  unfold announced.
  by destruct (truthy (prop oauth "kc_action_status")
               && onActionUpdate (this w)).
Qed.

Lemma announced_events (oauth : OAuthResponse) (w : World) :
  events (announced oauth w)
  = events w
    ++ (if truthy (prop oauth "kc_action_status") && onActionUpdate (this w)
        then [OnActionUpdate (prop oauth "kc_action_status")] else []).
Proof.
  unfold announced.
  destruct (truthy (prop oauth "kc_action_status")
            && onActionUpdate (this w)); [done|].
  by rewrite app_nil_r.
Qed.

Lemma processCallback_run (oauth : OAuthResponse) (fetched : Settled)
    (w : World) :
  processCallback clock decodeToken formatQuerystringParameters oauth fetched w
  = let timeLocal := of_Z (clock (ticks w)) in
    let w1 := announced oauth (ticked w) in
    if truthy (prop oauth "error") then
      if negb (strict_eq (prop oauth "prompt") (VStr "none")) then
        (Throw (AuthorizationError (prop oauth "error_description")),
         if onAuthError (this w)
         then snd (emit (OnAuthError (inl (prop oauth "error"))
                           (nullish (as_string
                                       (prop oauth "error_description"))
                                    "auth error")) w1)
         else w1)
      else (Ok tt, w1)
    else if carries_tokens (this w) oauth then
      authSuccess clock decodeToken oauth timeLocal true w1
    else if negb (bool_decide (flow (this w) = Some implicit))
            && truthy (prop oauth "code") then
      try_catch
        (emit (AdapterFetchTokens (token_endpoint (endpoints (this w)))
                 (formatQuerystringParameters
                    (exchange_params (this w) oauth)));;
         match fetched with
         | Throw err => throw err
         | Ok tokenResponse =>
             authSuccess clock decodeToken (with_tokens tokenResponse oauth)
               timeLocal (bool_decide (flow (this w) = Some standard))
         end)
        (fun err =>
           notify onAuthError
             (OnAuthError (inr err)
                "Failed to refresh token during callback processing");;
           throw (TokenExchangeError err))
        w1
    else (Ok tt, w1).
Proof.
  unfold processCallback. rewrite run_bind.
  change (getTime clock w) with (Ok (of_Z (clock (ticks w))), ticked w).
  cbv beta iota zeta. rewrite run_bind, announced_run. cbv beta iota.
  pose proof (announced_this oauth (ticked w)) as Hthis.
  change (this (ticked w)) with (this w) in Hthis.
  destruct (truthy (prop oauth "error")).
  - destruct (negb (strict_eq (prop oauth "prompt") (VStr "none"))); [|done].
    rewrite run_bind, notify_run. cbv beta iota. by rewrite Hthis.
  - rewrite run_bind.
    change (get_this (announced oauth (ticked w)))
      with (Ok (this (announced oauth (ticked w))),
            announced oauth (ticked w)).
    cbv beta iota. rewrite Hthis. unfold carries_tokens.
    destruct (negb (bool_decide (flow (this w) = Some standard))
              && (truthy (prop oauth "access_token")
                  || truthy (prop oauth "id_token"))); [done|].
    by destruct (negb (bool_decide (flow (this w) = Some implicit))
                 && truthy (prop oauth "code")).
Qed.

(** X14: a callback that carries an [error] never touches the session and
    never calls the token endpoint.  [processCallback] passes on
    [kc_action_status], then, unless the stored [prompt] is ['none'], calls
    the [onAuthError] handler with the error and its description
    (['auth error'] when there is none) and fails; with [prompt] ['none']
    it returns normally without calling the handler. *)
Theorem processCallback_error_response (w : World) (oauth : OAuthResponse)
    (fetched : Settled) :
  truthy (prop oauth "error") = true ->
  let m := processCallback clock decodeToken formatQuerystringParameters
             oauth fetched in
  let silent := strict_eq (prop oauth "prompt") (VStr "none") in
  this (exec m w) = this w
  /\ result_of m w
     = (if silent then Ok tt
        else Throw (AuthorizationError (prop oauth "error_description")))
  /\ new_events w (exec m w)
     = (if truthy (prop oauth "kc_action_status") && onActionUpdate (this w)
        then [OnActionUpdate (prop oauth "kc_action_status")] else [])
       ++ (if negb silent && onAuthError (this w)
           then [OnAuthError (inl (prop oauth "error"))
                   (nullish (as_string (prop oauth "error_description"))
                            "auth error")]
           else []).
Proof.
  intros Herr. cbv zeta. unfold result_of, exec.
  rewrite processCallback_run. cbv zeta. rewrite Herr.
  pose proof (announced_this oauth (ticked w)) as Hthis.
  pose proof (announced_events oauth (ticked w)) as Hev.
  change (this (ticked w)) with (this w) in Hthis, Hev.
  change (events (ticked w)) with (events w) in Hev.
  destruct (strict_eq (prop oauth "prompt") (VStr "none")); cbn [negb andb].
  - cbn [fst snd]. split; [exact Hthis|]. split; [reflexivity|].
    apply new_events_app. by rewrite Hev, app_nil_r.
  - cbn [fst snd]. destruct (onAuthError (this w)).
    + split; [exact Hthis|]. split; [reflexivity|].
      apply new_events_app. cbn [emit snd events].
      by rewrite Hev, <- app_assoc.
    + split; [exact Hthis|]. split; [reflexivity|].
      apply new_events_app. by rewrite Hev, app_nil_r.
Qed.

Lemma fetch_calls_app (evs evs' : list Event) :
  fetch_calls (evs ++ evs') = fetch_calls evs ++ fetch_calls evs'.
Proof. apply omap_app. Qed.

Lemma fetch_calls_cons (e : Event) (evs : list Event) :
  fetch_calls (e :: evs)
  = match fetch_call e with
    | Some call => call :: fetch_calls evs
    | None => fetch_calls evs
    end.
Proof. reflexivity. Qed.

Lemma fetch_calls_none (evs : list Event) :
  Forall (fun e => fetch_call e = None) evs -> fetch_calls evs = [].
Proof.
  induction 1 as [|e evs He _ IH]; [done|].
  by rewrite fetch_calls_cons, He.
Qed.

Lemma authSuccess_fetches_nothing (oauthObj : OAuthResponse)
    (timeLocal : num) (fulfillPromise : bool) :
  emits (fun e => fetch_call e = None)
    (authSuccess clock decodeToken oauthObj timeLocal fulfillPromise).
Proof. emits_only ltac:(reflexivity). Qed.

Lemma announced_fetches_nothing (oauth : OAuthResponse) (w : World) :
  exists evs,
    events (announced oauth (ticked w)) = events w ++ evs
    /\ Forall (fun e => fetch_call e = None) evs.
Proof.
  exists (if truthy (prop oauth "kc_action_status") && onActionUpdate (this w)
          then [OnActionUpdate (prop oauth "kc_action_status")] else []).
  split; [exact (announced_events oauth (ticked w))|].
  destruct (_ && _); by repeat constructor.
Qed.

(** X15: [processCallback] calls [adapter.fetchTokens] exactly when the
    callback carries no [error], does not carry tokens to commit directly
    and, outside the implicit flow, carries a [code]; it then calls it
    once, with the token endpoint and the parameters of the code exchange.
    In the implicit flow it never calls it. *)
Theorem processCallback_fetches_at_most_once (w : World)
    (oauth : OAuthResponse) (fetched : Settled) :
  let m := processCallback clock decodeToken formatQuerystringParameters
             oauth fetched in
  fetch_calls (new_events w (exec m w))
  = (if exchanges_code (this w) oauth
     then [(token_endpoint (endpoints (this w)),
            formatQuerystringParameters (exchange_params (this w) oauth))]
     else [])
  /\ (flow (this w) = Some implicit ->
      fetch_calls (new_events w (exec m w)) = []).
Proof.
  cbv zeta.
  assert (fetch_calls
            (new_events w
               (exec (processCallback clock decodeToken
                        formatQuerystringParameters oauth fetched) w))
          = if exchanges_code (this w) oauth
            then [(token_endpoint (endpoints (this w)),
                   formatQuerystringParameters
                     (exchange_params (this w) oauth))]
            else []) as Hcalls.
  { unfold exec. rewrite processCallback_run. cbv zeta.
    unfold exchanges_code. fold (carries_tokens (this w) oauth).
    destruct (announced_fetches_nothing oauth w) as (evs0 & Hev0 & Hnone0).
    set (w1 := announced oauth (ticked w)) in *.
    destruct (truthy (prop oauth "error")); cbn [negb andb].
    { destruct (negb (strict_eq (prop oauth "prompt") (VStr "none")));
        [destruct (onAuthError (this w))|]; cbn [snd].
      - erewrite new_events_app;
          [|cbn [emit snd events]; by rewrite Hev0, <- app_assoc].
        rewrite fetch_calls_app, (fetch_calls_none evs0) by done. done.
      - erewrite new_events_app by exact Hev0. by apply fetch_calls_none.
      - erewrite new_events_app by exact Hev0. by apply fetch_calls_none. }
    destruct (carries_tokens (this w) oauth); cbn [negb andb].
    { destruct (authSuccess_fetches_nothing oauth (of_Z (clock (ticks w)))
                  true w1) as (evs1 & Hev1 & Hnone1).
      erewrite new_events_app; [|by rewrite Hev1, Hev0, <- app_assoc].
      apply fetch_calls_none. by apply Forall_app. }
    destruct (negb (bool_decide (flow (this w) = Some implicit))
              && truthy (prop oauth "code")); cbn [snd].
    2: { erewrite new_events_app by exact Hev0. by apply fetch_calls_none. }
    set (call := AdapterFetchTokens _ _).
    set (body := match fetched with Ok _ => _ | Throw _ => _ end).
    set (handler := fun err : Exn => _).
    assert (emits (fun e => fetch_call e = None) (try_catch body handler))
      as Hrest.
    { subst body handler. apply emits_try_catch.
      - destruct fetched; [apply authSuccess_fetches_nothing|].
        apply emits_silent, keeps_throw.
      - intros err. emits_only ltac:(reflexivity). }
    destruct (Hrest (snd (emit call w1))) as (evs1 & Hev1 & Hnone1).
    change (try_catch (emit call;; body) handler w1)
      with (try_catch body handler (snd (emit call w1))).
    erewrite new_events_app;
      [|rewrite Hev1; cbn [emit snd events]; by rewrite Hev0, <- !app_assoc].
    rewrite !fetch_calls_app, (fetch_calls_none evs0),
      (fetch_calls_none evs1) by done.
    reflexivity. }
  split; [exact Hcalls|].
  intros Himplicit. rewrite Hcalls. unfold exchanges_code.
  rewrite Himplicit.
  rewrite (bool_decide_eq_true_2 (Some implicit = Some implicit)) by done.
  cbn [negb andb]. by rewrite !andb_false_r.
Qed.

Lemma as_string_of_opt (o : option string) : as_string (of_opt o) = o.
Proof. by destruct o. Qed.

Lemma or_undefined_idemp (o : option string) :
  or_undefined (or_undefined o) = or_undefined o.
Proof.
  unfold or_undefined. destruct (truthy o) eqn:E; [by rewrite E | done].
Qed.

Lemma with_tokens_access_token (tokenResponse : TokenResponse.t)
    (oauth : OAuthResponse) :
  str_prop (with_tokens tokenResponse oauth) "access_token"
  = or_undefined (TokenResponse.access_token tokenResponse).
Proof.
  unfold str_prop, prop, with_tokens.
  rewrite !lookup_insert_ne by done.
  by rewrite lookup_insert_eq, as_string_of_opt.
Qed.

Lemma with_tokens_refresh_token (tokenResponse : TokenResponse.t)
    (oauth : OAuthResponse) :
  str_prop (with_tokens tokenResponse oauth) "refresh_token"
  = or_undefined (TokenResponse.refresh_token tokenResponse).
Proof.
  unfold str_prop, prop, with_tokens.
  rewrite lookup_insert_ne by done.
  by rewrite lookup_insert_eq, as_string_of_opt.
Qed.

Lemma with_tokens_id_token (tokenResponse : TokenResponse.t)
    (oauth : OAuthResponse) :
  str_prop (with_tokens tokenResponse oauth) "id_token"
  = or_undefined (TokenResponse.id_token tokenResponse).
Proof.
  unfold str_prop, prop, with_tokens.
  by rewrite lookup_insert_eq, as_string_of_opt.
Qed.

Lemma with_tokens_nonce (tokenResponse : TokenResponse.t)
    (oauth : OAuthResponse) (parsed : option TokenParsed.t) :
  nonce_differs parsed (with_tokens tokenResponse oauth)
  = nonce_differs parsed oauth.
Proof.
  unfold nonce_differs, prop, with_tokens.
  by rewrite !lookup_insert_ne by done.
Qed.

Lemma claims_of_or_undefined (o : option string) :
  claims_of decodeToken (or_undefined o) = claims_of decodeToken o.
Proof. unfold claims_of. by rewrite or_undefined_idemp. Qed.

Lemma storable_or_undefined (t r i : option string) :
  storable decodeToken t r i ->
  storable decodeToken (or_undefined t) (or_undefined r) (or_undefined i).
Proof.
  unfold storable, decodes. by rewrite !or_undefined_idemp.
Qed.

Lemma authSuccess_ok (oauthObj : OAuthResponse) (timeLocal : num)
    (fulfillPromise : bool) (w : World) :
  let t := str_prop oauthObj "access_token" in
  let r := str_prop oauthObj "refresh_token" in
  let i := str_prop oauthObj "id_token" in
  storable decodeToken t r i ->
  truthy (useNonce (this w))
  && (nonce_differs (claims_of decodeToken t) oauthObj
      || nonce_differs (claims_of decodeToken r) oauthObj
      || nonce_differs (claims_of decodeToken i) oauthObj) = false ->
  authSuccess clock decodeToken oauthObj timeLocal fulfillPromise w
  = (Ok tt,
     let w1 := exec (setToken clock decodeToken t r i
                       (Some (midpoint clock timeLocal w))) (ticked w) in
     if fulfillPromise && onAuthSuccess (this w)
     then snd (emit OnAuthSuccess w1) else w1).
Proof.
  intros t r i Hstorable Hcheck. rewrite authSuccess_run. fold t r i.
  set (tl := Some (midpoint clock timeLocal w)).
  pose proof (proj2 (setToken_returns t r i tl (ticked w)) Hstorable) as Hret.
  pose proof (setToken_committed t r i tl (ticked w) Hret)
    as (_ & Hap & _ & Hrp & _ & Hip).
  pose proof (setToken_bystander t r i tl (ticked w)) as Hby.
  unfold result_of, exec in *. cbv zeta.
  destruct (setToken clock decodeToken t r i tl (ticked w)) as [res w1].
  cbn [fst snd] in *. subst res.
  apply bystander_outside in Hby.
  assert (useNonce (this w1) = useNonce (this w)) as ->.
  { change (useNonce (outside_tokens (this w1))
            = useNonce (outside_tokens (this (ticked w)))).
    by rewrite Hby. }
  assert (onAuthSuccess (this w1) = onAuthSuccess (this w)) as ->.
  { change (onAuthSuccess (outside_tokens (this w1))
            = onAuthSuccess (outside_tokens (this (ticked w)))).
    by rewrite Hby. }
  unfold nonce_mismatch. by rewrite Hap, Hrp, Hip, Hcheck.
Qed.

Lemma announced_ticks (oauth : OAuthResponse) (w : World) :
  ticks (announced oauth w) = ticks w.
Proof.
  unfold announced.
  by destruct (truthy (prop oauth "kc_action_status")
               && onActionUpdate (this w)).
Qed.

(** What the exchange branch of [processCallback] does when the token
    endpoint answers and the tokens pass the checks of [authSuccess]. *)
Lemma processCallback_exchanged (w : World) (oauth : OAuthResponse)
    (tokenResponse : TokenResponse.t) :
  let t := TokenResponse.access_token tokenResponse in
  let r := TokenResponse.refresh_token tokenResponse in
  let i := TokenResponse.id_token tokenResponse in
  exchanges_code (this w) oauth = true ->
  storable decodeToken t r i ->
  truthy (useNonce (this w))
  && (nonce_differs (claims_of decodeToken t) oauth
      || nonce_differs (claims_of decodeToken r) oauth
      || nonce_differs (claims_of decodeToken i) oauth) = false ->
  exists (w0 : World) (evs0 : list Event),
    this w0 = this w
    /\ events w0 = events w ++ evs0
    /\ Forall (fun e => forall error description,
                         e <> OnAuthError error description) evs0
    /\ ~ In OnAuthSuccess evs0
    /\ ticks w0 = S (S (ticks w))
    /\ processCallback clock decodeToken formatQuerystringParameters oauth
         (Ok tokenResponse) w
       = (Ok tt,
          let w1 :=
            exec (setToken clock decodeToken (or_undefined t)
                    (or_undefined r) (or_undefined i)
                    (Some (scale (1 # 2)
                             (add (of_Z (clock (ticks w)))
                                  (of_Z (clock (S (ticks w))))))))
              w0 in
          if bool_decide (flow (this w) = Some standard)
             && onAuthSuccess (this w)
          then snd (emit OnAuthSuccess w1) else w1).
Proof.
  intros t r i Hexch Hstorable Hcheck.
  unfold exchanges_code in Hexch. fold (carries_tokens (this w) oauth) in Hexch.
  apply andb_prop in Hexch as [Hexch Hcode].
  apply andb_prop in Hexch as [Herr Hfast].
  apply negb_true_iff in Herr, Hfast.
  rewrite processCallback_run. cbv zeta. rewrite Herr, Hfast, Hcode.
  pose proof (announced_this oauth (ticked w)) as Hthis.
  pose proof (announced_events oauth (ticked w)) as Hev.
  pose proof (announced_ticks oauth (ticked w)) as Hticks.
  change (this (ticked w)) with (this w) in Hthis, Hev.
  change (events (ticked w)) with (events w) in Hev.
  change (ticks (ticked w)) with (S (ticks w)) in Hticks.
  set (w1 := announced oauth (ticked w)) in *.
  set (call := AdapterFetchTokens _ _).
  unfold try_catch. rewrite run_bind. cbn [emit]. cbv beta iota.
  set (w2 := mkWorld (this w1) (events w1 ++ [call]) (ticks w1) (inflight w1)
               (fresh w1)).
  rewrite (authSuccess_ok (with_tokens tokenResponse oauth)
             (of_Z (clock (ticks w)))
             (bool_decide (flow (this w) = Some standard)) w2).
  - exists (ticked w2),
      ((if truthy (prop oauth "kc_action_status") && onActionUpdate (this w)
        then [OnActionUpdate (prop oauth "kc_action_status")] else [])
       ++ [call]).
    split; [exact Hthis|]. split.
    { cbn [ticked events w2]. subst w2. cbn [events].
      by rewrite Hev, <- app_assoc. }
    split.
    { subst call. apply Forall_app.
      split; [destruct (truthy (prop oauth "kc_action_status")
                        && onActionUpdate (this w))|];
        repeat (apply Forall_cons; split; [intros ??; discriminate|]);
        apply Forall_nil_2. }
    split.
    { subst call. intros Hin. apply in_app_or in Hin as [Hin|Hin].
      - destruct (truthy (prop oauth "kc_action_status")
                  && onActionUpdate (this w));
          cbn in Hin; intuition discriminate.
      - cbn in Hin. intuition discriminate. }
    split; [cbn [ticked ticks w2]; subst w2; cbn [ticks]; by rewrite Hticks|].
    rewrite with_tokens_access_token, with_tokens_refresh_token,
      with_tokens_id_token.
    unfold midpoint. subst w2. cbn [ticks this]. by rewrite Hticks, Hthis.
  - rewrite with_tokens_access_token, with_tokens_refresh_token,
      with_tokens_id_token.
    by apply storable_or_undefined.
  - rewrite with_tokens_access_token, with_tokens_refresh_token,
      with_tokens_id_token, !with_tokens_nonce, !claims_of_or_undefined.
    subst w2. cbn [this]. by rewrite Hthis.
Qed.

Lemma committed_events (w0 w1 w2 : World) (evs0 evs1 : list Event)
    (notified : bool) (w : World) :
  events w0 = events w ++ evs0 ->
  events w1 = events w0 ++ evs1 ->
  Forall (fun e => forall error description,
                     e <> OnAuthError error description) evs0 ->
  ~ In OnAuthSuccess evs0 ->
  Forall timer_event evs1 ->
  w2 = (if notified then snd (emit OnAuthSuccess w1) else w1) ->
  (In OnAuthSuccess (new_events w w2) <-> notified = true)
  /\ (forall error description,
        ~ In (OnAuthError error description) (new_events w w2)).
Proof.
  intros Hev0 Hev1 Hnoerr Hnosucc Htimer ->.
  rewrite (new_events_app w _
             (evs0 ++ evs1 ++ if notified then [OnAuthSuccess] else [])).
  2: { destruct notified; cbn [emit snd events]; rewrite Hev1, Hev0;
         by rewrite <- ?app_assoc, ?app_nil_r. }
  split; [split|].
  - intros Hin. apply in_app_or in Hin as [Hin|Hin]; [done|].
    apply in_app_or in Hin as [Hin|Hin].
    + by apply (timer_events_only _ _ Htimer) in Hin.
    + destruct notified; [done | by cbn in Hin].
  - intros ->. apply in_or_app. right. apply in_or_app. right. by left.
  - intros error description Hin. apply in_app_or in Hin as [Hin|Hin].
    + rewrite Forall_forall in Hnoerr.
      apply list_elem_of_In in Hin. by apply (Hnoerr _ Hin error description).
    + apply in_app_or in Hin as [Hin|Hin].
      * by apply (timer_events_only _ _ Htimer) in Hin.
      * destruct notified; cbn in Hin; intuition discriminate.
Qed.

(** X16: when the code exchange is answered with an access token the
    decoder finds claims in, and (with nonce checking enabled) no token of
    the answer carries a nonce other than the stored one,
    [processCallback] returns normally with the tokens of the answer
    committed: [authenticated] is true and [timeSkew] is computed from the
    midpoint between the start of the method and the arrival of the
    answer.  The [onAuthSuccess] handler is called in the standard flow
    only, and [onAuthError] is not called. *)
Theorem processCallback_exchange_success (w : World) (oauth : OAuthResponse)
    (tokenResponse : TokenResponse.t) (raw : string)
    (claims : TokenParsed.t) :
  exchanges_code (this w) oauth = true ->
  or_undefined (TokenResponse.access_token tokenResponse) = Some raw ->
  decodeToken raw = Ok (Some claims) ->
  decodes decodeToken (TokenResponse.refresh_token tokenResponse) ->
  decodes decodeToken (TokenResponse.id_token tokenResponse) ->
  truthy (useNonce (this w))
  && (nonce_differs (Some claims) oauth
      || nonce_differs
           (claims_of decodeToken (TokenResponse.refresh_token tokenResponse))
           oauth
      || nonce_differs
           (claims_of decodeToken (TokenResponse.id_token tokenResponse))
           oauth) = false ->
  let m := processCallback clock decodeToken formatQuerystringParameters
             oauth (Ok tokenResponse) in
  let w' := exec m w in
  let timeLocal :=
    scale (1 # 2)
      (add (of_Z (clock (ticks w))) (of_Z (clock (S (ticks w))))) in
  result_of m w = Ok tt
  /\ token (this w') = Some raw
  /\ tokenParsed (this w') = Some claims
  /\ refreshToken (this w')
     = or_undefined (TokenResponse.refresh_token tokenResponse)
  /\ idToken (this w') = or_undefined (TokenResponse.id_token tokenResponse)
  /\ authenticated (this w') = Some true
  /\ timeSkew (this w')
     = (if truthy timeLocal then Some (skew_of timeLocal claims)
        else timeSkew (this w))
  /\ (In OnAuthSuccess (new_events w w')
      <-> flow (this w) = Some standard /\ onAuthSuccess (this w) = true)
  /\ (forall error description,
        ~ In (OnAuthError error description) (new_events w w')).
Proof.
  intros Hexch Et D Hr Hi Hcheck. cbv zeta.
  set (t := TokenResponse.access_token tokenResponse) in *.
  set (r := TokenResponse.refresh_token tokenResponse) in *.
  set (i := TokenResponse.id_token tokenResponse) in *.
  assert (claims_of decodeToken t = Some claims) as Hclaims.
  { unfold claims_of. by rewrite Et, D. }
  assert (storable decodeToken t r i) as Hstorable.
  { split; [exact Hr|]. split; [exact Hi|].
    intros raw' E. rewrite Et in E. injection E as <-. eauto. }
  rewrite <- Hclaims in Hcheck.
  destruct (processCallback_exchanged w oauth tokenResponse Hexch Hstorable
              Hcheck)
    as (w0 & evs0 & Hthis & Hev0 & Hnoerr & Hnosucc & _ & Hrun).
  unfold result_of, exec. rewrite Hrun. cbn [fst snd]. cbv zeta.
  fold t r i.
  set (tl := Some (scale (1 # 2)
                     (add (of_Z (clock (ticks w)))
                          (of_Z (clock (S (ticks w))))))).
  pose proof (proj2 (setToken_returns (or_undefined t) (or_undefined r)
                       (or_undefined i) tl w0)
                (storable_or_undefined t r i Hstorable)) as Hret.
  pose proof (setToken_token_state _ _ _ _ w0 Hret) as Hstate.
  destruct (setToken_timer_events (or_undefined t) (or_undefined r)
              (or_undefined i) tl w0) as (evs1 & Hev1 & Htimer).
  fold (exec (setToken clock decodeToken (or_undefined t) (or_undefined r)
                (or_undefined i) tl) w0) in Hev1.
  set (w1 := exec (setToken clock decodeToken (or_undefined t)
                     (or_undefined r) (or_undefined i) tl) w0) in *.
  unfold committed in Hstate.
  rewrite claims_of_or_undefined, Hclaims, !or_undefined_idemp, Et, Hthis
    in Hstate.
  set (notified := bool_decide (flow (this w) = Some standard)
                   && onAuthSuccess (this w)).
  set (w2 := if notified then snd (emit OnAuthSuccess w1) else w1).
  assert (token_state (this w2) = token_state (this w1)) as Hsame.
  { subst w2. by destruct notified. }
  rewrite <- Hsame in Hstate.
  pose proof (f_equal ts_token Hstate).
  pose proof (f_equal ts_tokenParsed Hstate).
  pose proof (f_equal ts_refreshToken Hstate).
  pose proof (f_equal ts_idToken Hstate).
  pose proof (f_equal ts_authenticated Hstate).
  pose proof (f_equal ts_timeSkew Hstate).
  repeat (split; [done|]).
  destruct (committed_events w0 w1 w2 evs0 evs1 notified w)
    as [Hsucc Herror]; try done.
  split; [|exact Herror].
  rewrite Hsucc. subst notified. rewrite andb_true_iff, bool_decide_eq_true.
  done.
Qed.

(** X17: [processCallback] does not look at the [error] of the answer of
    the token endpoint.  When the code exchange is answered without any
    token, whatever else the answer says, the method returns normally and
    does not call [onAuthError]; the session is left without tokens, with
    [authenticated] false, and in the standard flow the [onAuthSuccess]
    handler is called. *)
Theorem processCallback_answer_without_tokens (w : World)
    (oauth : OAuthResponse) (tokenResponse : TokenResponse.t) :
  exchanges_code (this w) oauth = true ->
  truthy (TokenResponse.access_token tokenResponse) = false ->
  truthy (TokenResponse.refresh_token tokenResponse) = false ->
  truthy (TokenResponse.id_token tokenResponse) = false ->
  let m := processCallback clock decodeToken formatQuerystringParameters
             oauth (Ok tokenResponse) in
  let w' := exec m w in
  result_of m w = Ok tt
  /\ token_state (this w') = logged_out (timeSkew (this w))
  /\ (In OnAuthSuccess (new_events w w')
      <-> flow (this w) = Some standard /\ onAuthSuccess (this w) = true)
  /\ (forall error description,
        ~ In (OnAuthError error description) (new_events w w')).
Proof.
  intros Hexch Ht Hr Hi. cbv zeta.
  set (t := TokenResponse.access_token tokenResponse) in *.
  set (r := TokenResponse.refresh_token tokenResponse) in *.
  set (i := TokenResponse.id_token tokenResponse) in *.
  assert (or_undefined t = None /\ or_undefined r = None
          /\ or_undefined i = None) as (Et & Er & Ei).
  { unfold or_undefined. by rewrite Ht, Hr, Hi. }
  assert (storable decodeToken t r i) as Hstorable.
  { unfold storable, decodes. rewrite Et, Er, Ei. by repeat split. }
  assert (claims_of decodeToken t = None /\ claims_of decodeToken r = None
          /\ claims_of decodeToken i = None) as (Ct & Cr & Ci).
  { unfold claims_of. by rewrite Et, Er, Ei. }
  destruct (processCallback_exchanged w oauth tokenResponse Hexch Hstorable)
    as (w0 & evs0 & Hthis & Hev0 & Hnoerr & Hnosucc & _ & Hrun).
  { fold t r i. rewrite Ct, Cr, Ci. cbn. apply andb_false_r. }
  unfold result_of, exec. rewrite Hrun. cbn [fst snd]. cbv zeta.
  fold t r i. rewrite Et, Er, Ei.
  set (tl := Some (scale (1 # 2)
                     (add (of_Z (clock (ticks w)))
                          (of_Z (clock (S (ticks w))))))).
  pose proof (proj2 (setToken_returns None None None tl w0)
                ltac:(by repeat split)) as Hret.
  pose proof (setToken_token_state _ _ _ _ w0 Hret) as Hstate.
  destruct (setToken_timer_events None None None tl w0)
    as (evs1 & Hev1 & Htimer).
  fold (exec (setToken clock decodeToken None None None tl) w0) in Hev1.
  set (w1 := exec (setToken clock decodeToken None None None tl) w0) in *.
  change (committed decodeToken None None None tl (timeSkew (this w0)))
    with (logged_out (timeSkew (this w0))) in Hstate.
  rewrite Hthis in Hstate.
  set (notified := bool_decide (flow (this w) = Some standard)
                   && onAuthSuccess (this w)).
  set (w2 := if notified then snd (emit OnAuthSuccess w1) else w1).
  assert (token_state (this w2) = token_state (this w1)) as Hsame.
  { subst w2. by destruct notified. }
  rewrite <- Hsame in Hstate.
  split; [reflexivity|]. split; [exact Hstate|].
  destruct (committed_events w0 w1 w2 evs0 evs1 notified w)
    as [Hsucc Herror]; try done.
  split; [|exact Herror].
  rewrite Hsucc. subst notified. rewrite andb_true_iff, bool_decide_eq_true.
  done.
Qed.

(** **** What the callback parser lets through *)

(** X18: [parseCallbackUrl] returns either the empty object or a complete
    one.  A result that is not empty comes from a URL that has the
    component of the response mode (a [?] in query mode, a [#] in fragment
    mode); it has a [newUrl], a truthy [state], and a truthy [code] or
    [error] in the standard and hybrid flows, a truthy [access_token] or
    [error] in the implicit flow. *)
Theorem parseCallbackUrl_empty_or_complete (kc : KeycloakClient)
    (url : string) :
  let parsed := parseCallbackUrl kc url in
  parsed <> ∅ ->
  (exists newUrl, prop parsed "newUrl" = VStr newUrl)
  /\ truthy (prop parsed "state") = true
  /\ match flow kc with
     | Some implicit =>
         truthy (prop parsed "access_token") || truthy (prop parsed "error")
         = true
     | Some _ =>
         truthy (prop parsed "code") || truthy (prop parsed "error") = true
     | None => False
     end
  /\ match responseMode kc with
     | Some query => is_Some (JsString.indexOf "?" url)
     | Some fragment => is_Some (JsString.indexOf "#" url)
     | None => False
     end.
Proof.
  cbv zeta. unfold parseCallbackUrl.
  destruct (parse_component kc url) as [[newUrl parsed]|] eqn:E; [|done].
  destruct (accepts (flow kc) (oauthParams parsed)) eqn:Hacc; [|done].
  intros _. unfold prop.
  rewrite lookup_insert_eq, !lookup_insert_ne by done.
  fold (prop (oauthParams parsed) "state")
       (prop (oauthParams parsed) "code")
       (prop (oauthParams parsed) "error")
       (prop (oauthParams parsed) "access_token").
  split; [by eexists|].
  unfold accepts in Hacc.
  split; [|split].
  - destruct (flow kc) as [[]|]; [| | |done];
      by apply andb_prop in Hacc as [_ ?].
  - destruct (flow kc) as [[]|]; [| | |done];
      by apply andb_prop in Hacc as [? _].
  - unfold parse_component in E.
    destruct (responseMode kc) as [[]|]; [| |done].
    + destruct (JsString.indexOf "?" url); [by eexists | done].
    + destruct (JsString.indexOf "#" url); [by eexists | done].
Qed.

Lemma prop_empty (key : string) : prop ∅ key = VUndef.
Proof. unfold prop. by rewrite lookup_empty. Qed.

(** X19: a URL that is not a callback is ignored from end to end.  When
    [parseCallbackUrl] finds nothing in the URL, [parseCallback] returns
    the empty object, no pending request being stored under a missing
    [state], and [processCallback] on that object returns normally
    without changing the session, calling a handler or calling the token
    endpoint. *)
Theorem not_a_callback_is_ignored (w : World) (url : string)
    (fetched : Settled) :
  parseCallbackUrl (this w) url = ∅ ->
  let oauth := parseCallback (this w) url in
  let m := processCallback clock decodeToken formatQuerystringParameters
             oauth fetched in
  oauth = ∅
  /\ result_of m w = Ok tt
  /\ this (exec m w) = this w
  /\ new_events w (exec m w) = [].
Proof.
  intros Hempty. cbv zeta.
  assert (parseCallback (this w) url = ∅) as ->.
  { unfold parseCallback. rewrite Hempty, prop_empty. reflexivity. }
  split; [reflexivity|].
  unfold result_of, exec. rewrite processCallback_run. cbv zeta.
  unfold carries_tokens, announced. rewrite !prop_empty.
  cbn [truthy JsVal_truthy andb orb negb].
  rewrite !andb_false_r. cbn [fst snd].
  split; [reflexivity|]. split; [reflexivity|].
  apply new_events_app. cbn [ticked events]. by rewrite app_nil_r.
Qed.

(** **** More on the login URL *)

Lemma JsMap_get_set_if_ne (c : bool) (key key' : string) (v : JsVal)
    (m : JsMap.t) :
  key <> key' -> JsMap.get key' (set_if c key v m) = JsMap.get key' m.
Proof.
  intros Hne. unfold set_if. destruct c; [|done]. by apply JsMap_get_set_ne.
Qed.

Lemma JsMap_keys_set (key : string) (v : JsVal) (m : JsMap.t) (k : string) :
  k ∈ map fst (JsMap.set key v m) -> k = key \/ k ∈ map fst m.
Proof.
  induction m as [|[k' x] m IH]; cbn [JsMap.set map fst].
  - intros [->|H]%elem_of_cons; [by left | by apply elem_of_nil in H].
  - destruct (String.eqb k' key) eqn:E; cbn [map fst].
    + intros H. by right.
    + intros [->|H]%elem_of_cons; [right; left|].
      destruct (IH H) as [->|Hin]; [by left | right; by right].
Qed.

Lemma rest_of_keys (options : JsMap.t) (key : string) :
  key ∈ map fst (rest_of options) ->
  key ∈ map fst options /\ key ∉ named_options.
Proof.
  unfold rest_of. intros Hin.
  apply list_elem_of_fmap in Hin as ([k v] & -> & Hin).
  apply list_elem_of_filter in Hin as [Hnot Hin]. split; [|exact Hnot].
  apply list_elem_of_fmap. by exists (k, v).
Qed.

Ltac core_get :=
  unfold core_params; cbv zeta;
  repeat match goal with
    | |- context [match ?x with Some _ => _ | None => _ end] => destruct x
    | |- context [match ?x with S256 => _ end] => destruct x
    end;
  rewrite ?JsMap_get_set_ne, ?JsMap_get_set_if_ne by done;
  try apply JsMap_get_set_eq.

Lemma core_params_scope (kc : KeycloakClient) (options : JsMap.t)
    (redirectUri state nonce : string) (pkceChallenge : option string) :
  JsMap.get "scope"
    (core_params Number_toString kc options redirectUri state nonce
       pkceChallenge)
  = Some (VStr (scope_of (option_of options "scope"))).
Proof. core_get. Qed.

Lemma core_params_core (kc : KeycloakClient) (options : JsMap.t)
    (redirectUri state nonce : string) (pkceChallenge : option string) :
  let params := core_params Number_toString kc options redirectUri state
                  nonce pkceChallenge in
  JsMap.get "client_id" params = Some (VStr (clientId kc))
  /\ JsMap.get "redirect_uri" params = Some (VStr redirectUri)
  /\ JsMap.get "state" params = Some (VStr state)
  /\ JsMap.get "response_mode" params
     = Some match responseMode kc with
            | Some query => VStr "query"
            | Some fragment => VStr "fragment"
            | None => VUndef
            end
  /\ JsMap.get "response_type" params = Some (of_opt (responseType kc))
  /\ JsMap.get "nonce" params
     = (if truthy (useNonce kc) then Some (VStr nonce) else None).
Proof.
  cbv zeta. split; [by core_get|]. split; [by core_get|].
  split; [by core_get|]. split; [|split; [by core_get|]].
  - unfold core_params; cbv zeta.
    destruct (pkceMethod kc) as [[]|], (or_undefined pkceChallenge);
      repeat first [ rewrite JsMap_get_set_ne by done
                   | rewrite JsMap_get_set_if_ne by done ];
      apply JsMap_get_set_eq.
  - unfold core_params; cbv zeta.
    destruct (pkceMethod kc) as [[]|], (or_undefined pkceChallenge);
      repeat first [ rewrite JsMap_get_set_ne by done
                   | rewrite JsMap_get_set_if_ne by done ];
      (destruct (truthy (useNonce kc)); cbn [set_if];
       [apply JsMap_get_set_eq | by rewrite ?JsMap_get_set_ne by done]).
Qed.

Lemma set_rest_named (options params : JsMap.t) (key : string) :
  key ∈ named_options ->
  JsMap.get key (set_rest Number_toString (rest_of options) params)
  = JsMap.get key params.
Proof.
  intros Hnamed. apply set_rest_other. intros Hin.
  by apply rest_of_keys in Hin as [_ Hnot].
Qed.

Lemma set_rest_absent (options params : JsMap.t) (key : string) :
  key ∉ map fst options ->
  JsMap.get key (set_rest Number_toString (rest_of options) params)
  = JsMap.get key params.
Proof.
  intros Habsent. apply set_rest_other. intros Hin.
  by apply rest_of_keys in Hin as [Hin _].
Qed.

(** X20: what the login URL carries.  The [scope] parameter is decided
    by the [scope] option alone, and no other option can replace it: it is
    the option when that is a string in which [openid] occurs (anywhere in
    the string: the test is not on the scope names in it), [openid]
    followed by a space and the option when it does not occur, and
    [openid] when the option is absent or empty.  Unless the caller passes
    an option of the same name, the parameters carry the client id, the
    redirect URI of the adapter, the [state], the response mode and the
    response type of the client ([undefined] when the client has none) and,
    exactly when nonce checking is enabled, the nonce. *)
Theorem createLoginUrl_core_parameters (kc : KeycloakClient)
    (options : option JsMap.t) (state nonce drawn : string) :
  let params := login_params adapter_redirectUri generatePkceChallenge
                  Number_toString kc options state nonce drawn in
  let given := map fst (nullish options []) in
  JsMap.get "scope" params
  = Some (VStr
            match or_undefined
                    (as_string (option_of (nullish options []) "scope")) with
            | Some scope =>
                match JsString.indexOf "openid" scope with
                | Some _ => scope
                | None => "openid " ++ scope
                end
            | None => "openid"
            end)
  /\ ("client_id" ∉ given ->
      JsMap.get "client_id" params = Some (VStr (clientId kc)))
  /\ ("redirect_uri" ∉ given ->
      JsMap.get "redirect_uri" params
      = Some (VStr (adapter_redirectUri options)))
  /\ ("state" ∉ given -> JsMap.get "state" params = Some (VStr state))
  /\ ("response_mode" ∉ given ->
      JsMap.get "response_mode" params
      = Some match responseMode kc with
             | Some query => VStr "query"
             | Some fragment => VStr "fragment"
             | None => VUndef
             end)
  /\ ("response_type" ∉ given ->
      JsMap.get "response_type" params = Some (of_opt (responseType kc)))
  /\ ("nonce" ∉ given ->
      JsMap.get "nonce" params
      = (if truthy (useNonce kc) then Some (VStr nonce) else None)).
Proof.
  cbv zeta. unfold login_params, login_redirectUri.
  destruct (core_params_core kc (nullish options [])
              (adapter_redirectUri options) state nonce
              (login_pkceChallenge generatePkceChallenge kc drawn))
    as (Hid & Huri & Hstate & Hmode & Htype & Hnonce).
  split; [|repeat split; intros Habsent; by rewrite set_rest_absent].
  rewrite set_rest_named; [apply core_params_scope|].
  unfold named_options. apply list_elem_of_here.
Qed.

Lemma createLoginUrl_run (options : option JsMap.t)
    (state nonce drawn : string) (w : World) :
  createLoginUrl formatQuerystringParameters adapter_redirectUri
    generatePkceChallenge Number_toString options state nonce drawn w
  = (Ok ((if strict_eq (option_of (nullish options []) "action")
                       (VStr "register")
          then register (endpoints (this w))
          else authorize (endpoints (this w)))
         ++ "?"
         ++ formatQuerystringParameters
              (login_params adapter_redirectUri generatePkceChallenge
                 Number_toString (this w) options state nonce drawn))%string,
     assigned
       (callbackStorage_add
          (login_callbackState adapter_redirectUri (this w) options state
             nonce drawn))
       w).
Proof.
  unfold createLoginUrl. rewrite run_bind.
  change (get_this w) with (Ok (this w), w). cbv beta iota zeta.
  by rewrite run_bind.
Qed.

Lemma stored_request (cs : CallbackState.t) (w : World) :
  callbackStorage (this (assigned (callbackStorage_add cs) w))
  = <[CallbackState.state cs := cs]> (callbackStorage (this w)).
Proof. reflexivity. Qed.

Lemma core_params_pkce (kc : KeycloakClient) (options : JsMap.t)
    (redirectUri state nonce challenge : string) :
  pkceMethod kc = Some S256 ->
  truthy challenge = true ->
  let params := core_params Number_toString kc options redirectUri state
                  nonce (Some challenge) in
  JsMap.get "code_challenge" params = Some (VStr challenge)
  /\ JsMap.get "code_challenge_method" params = Some (VStr "S256").
Proof.
  intros Hmethod Htruthy. cbv zeta. unfold core_params. cbv zeta.
  rewrite Hmethod.
  assert (or_undefined (Some challenge) = Some challenge) as ->
    by (unfold or_undefined;
        change (truthy (Some challenge)) with (truthy challenge);
        by rewrite Htruthy).
  split; [|apply JsMap_get_set_eq].
  rewrite JsMap_get_set_ne by done. apply JsMap_get_set_eq.
Qed.

Lemma core_params_no_pkce (kc : KeycloakClient) (options : JsMap.t)
    (redirectUri state nonce : string) :
  pkceMethod kc = None ->
  let params := core_params Number_toString kc options redirectUri state
                  nonce None in
  JsMap.get "code_challenge" params = None
  /\ JsMap.get "code_challenge_method" params = None.
Proof.
  intros Hmethod. cbv zeta. unfold core_params. cbv zeta. rewrite Hmethod.
  split; by rewrite ?JsMap_get_set_ne, ?JsMap_get_set_if_ne by done.
Qed.

(** X21: the PKCE challenge in the login URL belongs to the verifier kept
    for the callback.  With a PKCE method configured, the pending request
    stored under [state] holds the verifier drawn for this login, and,
    unless the caller passes options of those names, the URL carries the
    challenge made from that verifier as [code_challenge], when it is not
    empty, with [code_challenge_method] [S256].  Without a PKCE method no
    verifier is stored and the URL carries neither parameter. *)
Theorem createLoginUrl_binds_pkce (w : World) (options : option JsMap.t)
    (state nonce drawn : string) :
  let m := createLoginUrl formatQuerystringParameters adapter_redirectUri
             generatePkceChallenge Number_toString options state nonce
             drawn in
  let params := login_params adapter_redirectUri generatePkceChallenge
                  Number_toString (this w) options state nonce drawn in
  let stored := callbackStorage (this (exec m w)) !! state in
  let given := map fst (nullish options []) in
  "code_challenge" ∉ given ->
  "code_challenge_method" ∉ given ->
  match pkceMethod (this w) with
  | Some method =>
      (CallbackState.pkceCodeVerifier <$> stored) = Some (Some drawn)
      /\ (truthy (generatePkceChallenge method drawn) = true ->
          JsMap.get "code_challenge" params
          = Some (VStr (generatePkceChallenge method drawn))
          /\ JsMap.get "code_challenge_method" params = Some (VStr "S256"))
  | None =>
      (CallbackState.pkceCodeVerifier <$> stored) = Some None
      /\ JsMap.get "code_challenge" params = None
      /\ JsMap.get "code_challenge_method" params = None
  end.
Proof.
  cbv zeta. intros Hchallenge Hmethod.
  unfold exec. rewrite createLoginUrl_run. cbn [snd].
  rewrite stored_request.
  set (cs := login_callbackState adapter_redirectUri (this w) options state
               nonce drawn).
  change (CallbackState.state cs) with state.
  rewrite lookup_insert_eq. cbn [fmap option_fmap option_map].
  change (CallbackState.pkceCodeVerifier cs)
    with (login_codeVerifier (this w) drawn).
  unfold login_params, login_codeVerifier, login_pkceChallenge.
  rewrite !set_rest_absent by done.
  destruct (pkceMethod (this w)) as [[]|] eqn:E.
  - split; [reflexivity|]. intros Htruthy. by apply core_params_pkce.
  - split; [reflexivity|]. by apply core_params_no_pkce.
Qed.


(** X23: [createRegisterUrl] always builds on the registration endpoint,
    also when the caller's options name another [action], and never sends
    a [kc_action] parameter of its own; like [createLoginUrl] it stores
    the pending request under [state]. *)
Theorem createRegisterUrl_targets_registration (w : World)
    (options : option JsMap.t) (state nonce drawn : string) :
  let m := createRegisterUrl formatQuerystringParameters adapter_redirectUri
             generatePkceChallenge Number_toString options state nonce
             drawn in
  let params :=
    login_params adapter_redirectUri generatePkceChallenge Number_toString
      (this w)
      (Some (JsMap.set "action" (VStr "register") (nullish options [])))
      state nonce drawn in
  result_of m w
  = Ok (register (endpoints (this w)) ++ "?"
        ++ formatQuerystringParameters params)%string
  /\ ("kc_action" ∉ map fst (nullish options []) ->
      JsMap.get "kc_action" params = None)
  /\ (CallbackState.nonce <$> callbackStorage (this (exec m w)) !! state)
     = Some nonce.
Proof.
  cbv zeta. unfold result_of, exec, createRegisterUrl.
  rewrite createLoginUrl_run. cbn [fst snd nullish].
  set (options' := JsMap.set "action" (VStr "register") (nullish options [])).
  assert (option_of options' "action" = VStr "register") as Haction.
  { unfold option_of. subst options'. by rewrite JsMap_get_set_eq. }
  rewrite Haction. cbn [strict_eq]. rewrite String.eqb_refl.
  split; [reflexivity|]. split.
  - intros Habsent. unfold login_params. cbn [nullish].
    rewrite set_rest_other.
    + unfold core_params. cbv zeta. rewrite Haction.
      cbn [strict_eq]. rewrite String.eqb_refl. cbn [negb].
      rewrite andb_false_r.
      repeat match goal with
        | |- context [match ?x with Some _ => _ | None => _ end] =>
            destruct x
        | |- context [match ?x with S256 => _ end] => destruct x
        end;
        rewrite ?JsMap_get_set_ne, ?JsMap_get_set_if_ne by done;
        change (set_if false "kc_action" (VStr "register") ?m) with m;
        by rewrite ?JsMap_get_set_ne, ?JsMap_get_set_if_ne by done.
    + intros Hin. apply rest_of_keys in Hin as [Hin _].
      subst options'. by apply JsMap_keys_set in Hin as [?|?].
  - rewrite stored_request.
    set (cs := login_callbackState _ _ _ _ _ _).
    change (CallbackState.state cs) with state.
    by rewrite lookup_insert_eq.
Qed.


(** **** Options that are not named *)



(** **** Starting with stored tokens *)

Lemma updateToken_forced_run (w : World) :
  truthy (refreshToken (this w)) = true ->
  refreshQueue (this w) = [] ->
  updateToken clock formatQuerystringParameters (Some (of_Z (-1))) w
  = (Ok (fresh w), dispatched clock formatQuerystringParameters w).
Proof.
  intros Hr Hq. unfold updateToken, dispatched.
  rewrite run_bind. cbn [new_Deferred nullish]. cbv beta iota zeta.
  rewrite run_bind.
  set (w0 := mkWorld _ _ _ _ (S (fresh w))).
  change (get_this w0) with (Ok (this w), w0). cbv beta iota.
  rewrite Hr. cbn [negb]. rewrite run_bind.
  unfold try_catch, runUpdateToken. rewrite run_bind.
  change (get_this w0) with (Ok (this w), w0). cbv beta iota.
  rewrite run_bind.
  change (JsNum.eqb (of_Z (-1)) (of_Z (-1))) with true. cbv beta iota.
  cbn [mret M_ret negb]. cbv beta iota.
  rewrite run_bind. cbn [modify]. cbv beta iota. rewrite run_bind.
  set (w2 := mkWorld _ _ _ _ _).
  change (get_this w2) with (Ok (this w2), w2). cbv beta iota.
  subst w2 w0. cbn [this]. rewrite Hq.
  change (refreshQueue (set_refreshQueue ?q _)) with q.
  cbn [app length Nat.eqb when]. rewrite run_bind.
  cbn [getTime]. cbv beta iota. rewrite run_bind. cbn [emit].
  cbv beta iota. cbn [suspend mret M_ret this events ticks inflight fresh].
  reflexivity.
Qed.

Lemma processInit_begun (w : World) (initOptions : InitOptions.t) :
  stored_tokens decodeToken initOptions ->
  refreshQueue (this w) = [] ->
  let w1 := exec (setToken clock decodeToken (InitOptions.token initOptions)
                    (InitOptions.refreshToken initOptions)
                    (InitOptions.idToken initOptions) None) w in
  processInit clock decodeToken formatQuerystringParameters
    (Some initOptions) w
  = (Ok (inr (fresh w)), dispatched clock formatQuerystringParameters w1).
Proof.
  intros (Ht & Hr & Hstorable) Hq. cbv zeta.
  unfold processInit. rewrite Ht, Hr. cbn [andb].
  rewrite run_bind. unfold try_catch. rewrite run_bind.
  set (t := InitOptions.token initOptions) in *.
  set (r := InitOptions.refreshToken initOptions) in *.
  set (i := InitOptions.idToken initOptions) in *.
  pose proof (proj2 (setToken_returns t r i None w) Hstorable) as Hret.
  pose proof (setToken_committed t r i None w Hret) as (_ & _ & Hrt & _).
  pose proof (setToken_bystander t r i None w) as Hby.
  unfold result_of, exec in *.
  destruct (setToken clock decodeToken t r i None w) as [res w1].
  cbn [fst snd] in *. subst res. cbv beta iota. cbn [mret M_ret].
  cbv beta iota. rewrite run_bind.
  rewrite updateToken_forced_run.
  - cbv beta iota. cbn [mret M_ret]. by rewrite (bystander_fresh _ _ Hby).
  - by rewrite Hrt, (or_undefined_truthy r Hr).
  - by rewrite (bystander_refreshQueue _ _ Hby).
Qed.

Lemma timer_event_quiet (e : Event) : timer_event e -> quiet e.
Proof. by destruct e. Qed.

Lemma timer_events_quiet (evs : list Event) :
  Forall timer_event evs -> Forall quiet evs.
Proof.
  intros H. eapply Forall_impl; [exact H|]. apply timer_event_quiet.
Qed.

Lemma bystander_endpoints (w w' : World) :
  bystander w' = bystander w -> endpoints (this w') = endpoints (this w).
Proof.
  intros H. change (endpoints (outside_tokens (this w'))
                    = endpoints (outside_tokens (this w))).
  unfold bystander in H. congruence.
Qed.

(** X24: tokens handed to [init] are refreshed before they are trusted.
    When the options carry an access and a refresh token that [setToken]
    accepts and no refresh is under way, [processInit] stores them and
    forces a refresh whatever their expiry: it calls
    [adapter.refreshTokens] once, with the token endpoint and the refresh
    token of the options, and waits for the deferred of that call, which
    is alone in the queue and not settled yet. *)
Theorem processInit_refreshes_stored_tokens (w : World)
    (initOptions : InitOptions.t) :
  truthy (InitOptions.token initOptions) = true ->
  truthy (InitOptions.refreshToken initOptions) = true ->
  storable decodeToken (InitOptions.token initOptions)
    (InitOptions.refreshToken initOptions)
    (InitOptions.idToken initOptions) ->
  refreshQueue (this w) = [] ->
  let m := processInit clock decodeToken formatQuerystringParameters
             (Some initOptions) in
  let w' := exec m w in
  result_of m w = Ok (inr (fresh w))
  /\ token (this w') = InitOptions.token initOptions
  /\ refreshToken (this w') = InitOptions.refreshToken initOptions
  /\ authenticated (this w') = Some true
  /\ refreshQueue (this w') = [fresh w]
  /\ settled (new_events w w') = []
  /\ dispatches (new_events w w') = 1
  /\ In (AdapterRefreshTokens (token_endpoint (endpoints (this w)))
           (formatQuerystringParameters
              [("client_id", VStr (clientId (this w)));
               ("grant_type", VStr "refresh_token");
               ("refresh_token",
                of_opt (InitOptions.refreshToken initOptions))]))
        (new_events w w').
Proof.
  intros Ht Hr Hstorable Hq. cbv zeta. unfold result_of, exec.
  rewrite (processInit_begun w initOptions) by done. cbn [fst snd].
  set (t := InitOptions.token initOptions) in *.
  set (r := InitOptions.refreshToken initOptions) in *.
  set (i := InitOptions.idToken initOptions) in *.
  pose proof (proj2 (setToken_returns t r i None w) Hstorable) as Hret.
  pose proof (setToken_committed t r i None w Hret)
    as (Htoken & _ & Hrefresh & _).
  pose proof (setToken_token_state t r i None w Hret) as Hstate.
  pose proof (setToken_bystander t r i None w) as Hby.
  destruct (setToken_timer_events t r i None w) as (evs1 & Hev1 & Htimer).
  fold (exec (setToken clock decodeToken t r i None) w) in Hby, Hev1.
  set (w1 := exec (setToken clock decodeToken t r i None) w) in *.
  rewrite (or_undefined_truthy t Ht) in Htoken.
  rewrite (or_undefined_truthy r Hr) in Hrefresh.
  assert (authenticated (this w1) = Some true) as Hauth.
  { destruct Hstorable as (_ & _ & Hclaims).
    unfold committed, claims_of in Hstate.
    rewrite (or_undefined_truthy t Ht) in Hstate.
    destruct t as [raw|]; [|discriminate].
    destruct (Hclaims raw (or_undefined_truthy (Some raw) Ht)) as [claims D].
    rewrite D in Hstate. exact (f_equal ts_authenticated Hstate). }
  pose proof (timer_events_quiet evs1 Htimer) as Hquiet.
  set (call := AdapterRefreshTokens (token_endpoint (endpoints (this w1)))
                 (formatQuerystringParameters (refresh_params (this w1)))).
  assert (new_events w (dispatched clock formatQuerystringParameters w1)
          = evs1 ++ [call]) as ->.
  { apply new_events_app. unfold dispatched. cbn [events].
    by rewrite Hev1, <- app_assoc. }
  split; [reflexivity|]. split; [exact Htoken|]. split; [exact Hrefresh|].
  split; [exact Hauth|]. split.
  { change (refreshQueue (this (dispatched clock formatQuerystringParameters
                                  w1))) with [fresh w1].
    by rewrite (bystander_fresh _ _ Hby). }
  split.
  { by rewrite settled_app, (settled_quiet evs1 Hquiet). }
  split.
  { by rewrite dispatches_app, (dispatches_quiet evs1 Hquiet). }
  apply in_or_app. right. left. subst call.
  rewrite (bystander_endpoints _ _ Hby). unfold refresh_params.
  by rewrite (bystander_clientId _ _ Hby), Hrefresh.
Qed.

Ltac show_no_verdict :=
  split; [reflexivity|split; [discriminate|intros ??; discriminate]].

Lemma setToken_no_verdict t r i tl :
  emits not_a_verdict (setToken clock decodeToken t r i tl).
Proof. emits_only ltac:(show_no_verdict). Qed.

Lemma clearToken_no_verdict :
  emits not_a_verdict (clearToken clock decodeToken).
Proof. emits_only ltac:(show_no_verdict). Qed.

Lemma setToken_handlers t r i tl :
  keeps handlers (setToken clock decodeToken t r i tl).
Proof. frame. Qed.

Lemma clearToken_handlers : keeps handlers (clearToken clock decodeToken).
Proof. frame. Qed.

Lemma no_verdict_among (evs : list Event) :
  Forall not_a_verdict evs ->
  settled evs = []
  /\ ~ In OnAuthSuccess evs
  /\ forall error description, ~ In (OnAuthError error description) evs.
Proof.
  induction 1 as [|e evs (Hs & Hsucc & Herr) _ (IH1 & IH2 & IH3)].
  { split; [done|]. split; [intros []|intros ?? []]. }
  split; [by rewrite settled_cons, Hs|]. split.
  - intros [->|Hin]; [done | by apply IH2].
  - intros error description [->|Hin];
      [by apply (Herr error description) | by apply (IH3 error description)].
Qed.

Lemma outcome_of_first (d : Deferred) (outcome : Outcome)
    (later : list (Deferred * Outcome)) :
  outcome_of d ((d, outcome) :: later) = Some outcome.
Proof. cbn. by rewrite Nat.eqb_refl. Qed.

(** The session after [setToken] has stored the tokens of the options. *)
Lemma stored_tokens_set (w : World) (initOptions : InitOptions.t) :
  stored_tokens decodeToken initOptions ->
  let w1 := exec (setToken clock decodeToken (InitOptions.token initOptions)
                    (InitOptions.refreshToken initOptions)
                    (InitOptions.idToken initOptions) None) w in
  token (this w1) = InitOptions.token initOptions
  /\ authenticated (this w1) = Some true
  /\ bystander w1 = bystander w
  /\ handlers w1 = handlers w
  /\ exists evs1, events w1 = events w ++ evs1 /\ Forall not_a_verdict evs1.
Proof.
  intros (Ht & Hr & Hstorable). cbv zeta.
  set (t := InitOptions.token initOptions) in *.
  set (r := InitOptions.refreshToken initOptions) in *.
  set (i := InitOptions.idToken initOptions) in *.
  pose proof (proj2 (setToken_returns t r i None w) Hstorable) as Hret.
  pose proof (setToken_committed t r i None w Hret) as (Htoken & _).
  pose proof (setToken_token_state t r i None w Hret) as Hstate.
  rewrite (or_undefined_truthy t Ht) in Htoken.
  split; [exact Htoken|]. split.
  { destruct Hstorable as (_ & _ & Hclaims).
    unfold committed, claims_of in Hstate.
    rewrite (or_undefined_truthy t Ht) in Hstate.
    destruct t as [raw|]; [|discriminate].
    destruct (Hclaims raw (or_undefined_truthy (Some raw) Ht)) as [claims D].
    rewrite D in Hstate. exact (f_equal ts_authenticated Hstate). }
  split; [apply setToken_bystander|]. split; [apply setToken_handlers|].
  apply setToken_no_verdict.
Qed.

Lemma processInit_then_failure (w : World) (initOptions : InitOptions.t)
    (answer : Settled) :
  stored_tokens decodeToken initOptions ->
  idle w ->
  failed answer ->
  let w1 := exec (processInit clock decodeToken formatQuerystringParameters
                    (Some initOptions)) w in
  let w2 := exec (resume_refresh clock decodeToken answer) w1 in
  exists evs,
    events w2 = events w ++ evs ++ [Reject (fresh w) (VBool true)]
    /\ Forall not_a_verdict evs
    /\ handlers w2 = handlers w
    /\ match answer with
       | Throw _ =>
           token (this w2) = InitOptions.token initOptions
           /\ authenticated (this w2) = Some true
       | Ok _ =>
           tokens_absent (this w2) /\ authenticated (this w2) = Some false
       end.
Proof.
  intros Hstored [Hq Hin] Hfail w1 w2.
  destruct (stored_tokens_set w initOptions Hstored)
    as (Htoken & Hauth & Hby & Hhandlers & evs1 & Hev1 & Hquiet1).
  set (ws := exec (setToken clock decodeToken _ _ _ None) w) in *.
  assert (w1 = dispatched clock formatQuerystringParameters ws) as Hw1.
  { subst w1. unfold exec at 1.
    by rewrite (processInit_begun w initOptions Hstored Hq). }
  clearbody w1. subst w1.
  set (w1 := dispatched clock formatQuerystringParameters ws) in *.
  destruct Hstored as (Ht & _).
  assert (inflight w1 = [of_Z (clock (ticks ws))]) as Hinflight.
  { subst w1. unfold dispatched. cbn [inflight].
    by rewrite (bystander_inflight _ _ Hby), Hin. }
  set (call := AdapterRefreshTokens (token_endpoint (endpoints (this ws)))
                 (formatQuerystringParameters (refresh_params (this ws)))).
  assert (events (resumed w1) = events w ++ evs1 ++ [call]
          /\ handlers (resumed w1) = handlers w
          /\ refreshQueue (this (resumed w1)) = [fresh w]
          /\ token (this (resumed w1)) = InitOptions.token initOptions
          /\ authenticated (this (resumed w1)) = Some true)
    as (Hev & Hh & Hqueue & Htok & Hau).
  { subst w1. unfold resumed, dispatched. cbn [this events].
    split; [by rewrite Hev1, <- app_assoc|]. split; [exact Hhandlers|].
    split; [|by split].
    change (refreshQueue (set_refreshQueue ?q _)) with q.
    by rewrite (bystander_fresh _ _ Hby). }
  set (w0 := resumed w1) in *.
  set (x := match answer with
            | Throw _ => w0
            | Ok _ => snd (clearToken clock decodeToken w0)
            end).
  assert (w2 = drained reject_true (caught x)) as Hw2.
  { subst w2. unfold exec.
    rewrite (resume_refresh_run answer w1 _ [] Hinflight).
    by rewrite (refresh_failed_run _ answer (resumed w1) Hfail). }
  clearbody w2. subst w2.
  assert (exists evs2,
    events x = events w0 ++ evs2
    /\ Forall not_a_verdict evs2
    /\ handlers x = handlers w0
    /\ refreshQueue (this x) = refreshQueue (this w0)
    /\ match answer with
       | Throw _ =>
           token (this x) = InitOptions.token initOptions
           /\ authenticated (this x) = Some true
       | Ok _ =>
           tokens_absent (this x) /\ authenticated (this x) = Some false
       end) as (evs2 & Hev2 & Hquiet2 & Hh2 & Hq2 & Hstate).
  { subst x. destruct answer as [tokenResponse|err].
    - destruct (clearToken_no_verdict w0) as (evs2 & Hev2 & Hquiet2).
      exists evs2. split; [exact Hev2|]. split; [exact Hquiet2|].
      split; [apply clearToken_handlers|].
      split; [apply bystander_refreshQueue, clearToken_bystander|].
      apply clearToken_clears. by rewrite Htok.
    - exists []. rewrite app_nil_r. by repeat split. }
  set (failure := if onAuthRefreshError (this x) then [OnAuthRefreshError]
                  else []).
  exists (evs1 ++ [call] ++ evs2 ++ failure).
  assert (events (caught x) = events x ++ failure
          /\ handlers (caught x) = handlers x
          /\ refreshQueue (this (caught x)) = refreshQueue (this x)
          /\ this (caught x) = this x) as (Hev3 & Hh3 & Hq3 & Hthis3).
  { subst failure. unfold caught.
    destruct (onAuthRefreshError (this x)); [by repeat split|].
    rewrite app_nil_r. by repeat split. }
  split; [|split; [|split]].
  - unfold drained. cbn [events]. rewrite Hev3, Hq3, Hq2, Hqueue, Hev2, Hev.
    cbn [reverse map reject_true]. by rewrite <- !app_assoc.
  - apply Forall_app. split; [exact Hquiet1|].
    apply Forall_app. split; [subst call; repeat constructor; discriminate|].
    apply Forall_app. split; [exact Hquiet2|].
    subst failure. destruct (onAuthRefreshError (this x));
      repeat constructor; discriminate.
  - change (handlers (drained reject_true (caught x)))
      with (handlers (caught x)).
    by rewrite Hh3, Hh2, Hh.
  - change (this (drained reject_true (caught x)))
      with (set_refreshQueue [] (this (caught x))).
    rewrite Hthis3. by destruct answer.
Qed.

Lemma onLoad_run (initOptions : InitOptions.t) (w : World) :
  onLoad initOptions w
  = (Ok (if strict_eq (of_opt (InitOptions.onLoad initOptions))
                      (VStr "login-required")
            || strict_eq (of_opt (InitOptions.onLoad initOptions))
                         (VStr "check-sso")
         then Fulfilled else RejectedWith "Invalid value for onLoad"),
     if strict_eq (of_opt (InitOptions.onLoad initOptions))
                  (VStr "login-required")
     then snd (emit AdapterLogin w) else w).
Proof.
  unfold onLoad. cbv zeta.
  destruct (strict_eq (of_opt (InitOptions.onLoad initOptions))
              (VStr "login-required")); [done|].
  by destruct (strict_eq (of_opt (InitOptions.onLoad initOptions))
                 (VStr "check-sso")).
Qed.

Lemma processInit_resumed_rejected (initOptions : InitOptions.t)
    (error : JsVal) (w : World) :
  processInit_resumed initOptions (Rejected error) w
  = (Ok (if truthy (InitOptions.onLoad initOptions) then Fulfilled
         else RejectedWith "Failed to init"),
     let w1 := if onAuthError (this w)
               then snd (emit (OnAuthError (inl error)
                                 "Failed to refresh token during init") w)
               else w in
     if truthy (InitOptions.onLoad initOptions)
        && strict_eq (of_opt (InitOptions.onLoad initOptions))
                     (VStr "login-required")
     then snd (emit AdapterLogin w1) else w1).
Proof.
  unfold processInit_resumed. rewrite run_bind, notify_run. cbv beta iota zeta.
  destruct (truthy (InitOptions.onLoad initOptions)); cbn [andb]; [|done].
  rewrite run_bind, onLoad_run. reflexivity.
Qed.

Lemma processInit_to_end_awaited (initOptions : InitOptions.t)
    (answer : Settled) (w w1 : World) (d : Deferred) (outcome : Outcome) :
  processInit clock decodeToken formatQuerystringParameters
    (Some initOptions) w = (Ok (inr d), w1) ->
  outcome_of d
    (settled (new_events w
                (exec (resume_refresh clock decodeToken answer) w1)))
  = Some outcome ->
  processInit_to_end clock decodeToken formatQuerystringParameters
    (Some initOptions) answer w
  = match processInit_resumed initOptions outcome
            (exec (resume_refresh clock decodeToken answer) w1) with
    | (Ok completion, w3) => (Ok (Some completion), w3)
    | (Throw e, w3) => (Throw e, w3)
    end.
Proof.
  intros Hbegun Houtcome. unfold processInit_to_end.
  rewrite Hbegun. cbv zeta. by rewrite Houtcome.
Qed.

(** X25: when the refresh forced by [processInit] fails, the
    [onAuthError] handler is told ['Failed to refresh token during init']
    and [onAuthSuccess] is not called.  The promise of [processInit] is
    rejected with ['Failed to init'] only when the options have no
    [onLoad]; with an [onLoad], whatever its value, it is fulfilled.  If
    the refresh call itself failed, the session still holds the access
    token of the options with [authenticated] true; if the token endpoint
    answered with an [error], the session holds no token. *)
Theorem processInit_refresh_failure (w : World)
    (initOptions : InitOptions.t) (answer : Settled) :
  truthy (InitOptions.token initOptions) = true ->
  truthy (InitOptions.refreshToken initOptions) = true ->
  storable decodeToken (InitOptions.token initOptions)
    (InitOptions.refreshToken initOptions)
    (InitOptions.idToken initOptions) ->
  refreshQueue (this w) = [] ->
  inflight w = [] ->
  failed answer ->
  let m := processInit_to_end clock decodeToken formatQuerystringParameters
             (Some initOptions) answer in
  let w' := exec m w in
  result_of m w
  = Ok (Some (if truthy (InitOptions.onLoad initOptions) then Fulfilled
              else RejectedWith "Failed to init"))
  /\ (onAuthError (this w) = true ->
      In (OnAuthError (inl (VBool true))
            "Failed to refresh token during init")
         (new_events w w'))
  /\ ~ In OnAuthSuccess (new_events w w')
  /\ match answer with
     | Throw _ =>
         token (this w') = InitOptions.token initOptions
         /\ authenticated (this w') = Some true
     | Ok _ =>
         tokens_absent (this w') /\ authenticated (this w') = Some false
     end.
Proof.
  intros Ht Hr Hstorable Hq Hin Hfail m w'.
  assert (stored_tokens decodeToken initOptions) as Hstored by done.
  pose proof (processInit_then_failure w initOptions answer Hstored
                (conj Hq Hin) Hfail) as Hchain.
  pose proof (processInit_begun w initOptions Hstored Hq) as Hbegun.
  cbv zeta in Hbegun, Hchain.
  set (w1 := dispatched clock formatQuerystringParameters _) in *.
  assert (exec (processInit clock decodeToken formatQuerystringParameters
                  (Some initOptions)) w = w1) as Hw1
    by (unfold exec; by rewrite Hbegun).
  rewrite Hw1 in Hchain.
  set (w2 := exec (resume_refresh clock decodeToken answer) w1) in *.
  destruct Hchain as (evs & Hev & Hquiet & Hhandlers & Hstate).
  destruct (no_verdict_among evs Hquiet) as (Hsettled & Hnosucc & Hnoerr).
  assert (outcome_of (fresh w) (settled (new_events w w2))
          = Some (Rejected (VBool true))) as Houtcome.
  { rewrite (new_events_app w w2 _ Hev), settled_app, Hsettled.
    apply outcome_of_first. }
  pose proof (processInit_to_end_awaited initOptions answer w w1 (fresh w)
                (Rejected (VBool true)) Hbegun Houtcome) as Hrun.
  fold w2 in Hrun. rewrite processInit_resumed_rejected in Hrun.
  cbv zeta in Hrun.
  set (told := if onAuthError (this w2)
               then snd (emit (OnAuthError (inl (VBool true))
                                 "Failed to refresh token during init") w2)
               else w2) in *.
  set (login := truthy (InitOptions.onLoad initOptions)
                && strict_eq (of_opt (InitOptions.onLoad initOptions))
                             (VStr "login-required")) in *.
  subst w' m. unfold result_of, exec. rewrite Hrun. cbn [fst snd].
  split; [reflexivity|].
  assert (onAuthError (this w2) = onAuthError (this w)) as Hhandler.
  { exact (f_equal (fun h => snd (fst (fst (fst (fst h))))) Hhandlers). }
  set (final := if login then snd (emit AdapterLogin told) else told).
  assert (this final = this w2) as Hthis.
  { subst final told. by destruct login, (onAuthError (this w2)). }
  assert (new_events w final
          = evs ++ [Reject (fresh w) (VBool true)]
            ++ (if onAuthError (this w)
                then [OnAuthError (inl (VBool true))
                        "Failed to refresh token during init"] else [])
            ++ (if login then [AdapterLogin] else [])) as ->.
  { apply new_events_app. subst final told. rewrite Hhandler.
    destruct login, (onAuthError (this w)); cbn [emit snd events];
      rewrite Hev, <- ?app_assoc; cbn [app]; by rewrite ?app_nil_r. }
  rewrite Hthis. split; [|split; [|exact Hstate]].
  - intros ->. apply in_or_app. right. right. by left.
  - intros Hsucc. apply in_app_or in Hsucc as [Hsucc|Hsucc]; [done|].
    destruct login, (onAuthError (this w)); cbn in Hsucc;
      intuition discriminate.
Qed.

Lemma processInit_then_success (w : World) (initOptions : InitOptions.t)
    (tokenResponse : TokenResponse.t) (raw : string)
    (claims : TokenParsed.t) :
  stored_tokens decodeToken initOptions ->
  idle w ->
  truthy (TokenResponse.error tokenResponse) = false ->
  or_undefined (TokenResponse.access_token tokenResponse) = Some raw ->
  decodeToken raw = Ok (Some claims) ->
  decodes decodeToken (TokenResponse.refresh_token tokenResponse) ->
  decodes decodeToken (TokenResponse.id_token tokenResponse) ->
  let w1 := exec (processInit clock decodeToken formatQuerystringParameters
                    (Some initOptions)) w in
  let w2 := exec (resume_refresh clock decodeToken (Ok tokenResponse)) w1 in
  exists evs,
    events w2 = events w ++ evs ++ [Resolve (fresh w) true]
    /\ Forall not_a_verdict evs
    /\ handlers w2 = handlers w
    /\ token (this w2) = Some raw
    /\ tokenParsed (this w2) = Some claims
    /\ refreshToken (this w2)
       = or_undefined (TokenResponse.refresh_token tokenResponse)
    /\ authenticated (this w2) = Some true.
Proof.
  intros Hstored [Hq Hin] Herr Et D Hdr Hdi w1 w2.
  destruct (stored_tokens_set w initOptions Hstored)
    as (_ & _ & Hby & Hhandlers & evs1 & Hev1 & Hquiet1).
  set (ws := exec (setToken clock decodeToken _ _ _ None) w) in *.
  assert (w1 = dispatched clock formatQuerystringParameters ws) as Hw1.
  { subst w1. unfold exec at 1.
    by rewrite (processInit_begun w initOptions Hstored Hq). }
  clearbody w1. subst w1.
  set (w1 := dispatched clock formatQuerystringParameters ws) in *.
  assert (inflight w1 = [of_Z (clock (ticks ws))]) as Hinflight.
  { subst w1. unfold dispatched. cbn [inflight].
    by rewrite (bystander_inflight _ _ Hby), Hin. }
  set (call := AdapterRefreshTokens (token_endpoint (endpoints (this ws)))
                 (formatQuerystringParameters (refresh_params (this ws)))).
  set (t := TokenResponse.access_token tokenResponse) in *.
  set (r := TokenResponse.refresh_token tokenResponse) in *.
  set (i := TokenResponse.id_token tokenResponse) in *.
  assert (storable decodeToken t r i) as Hstorable.
  { split; [exact Hdr|]. split; [exact Hdi|].
    intros raw' E. rewrite Et in E. injection E as <-. eauto. }
  set (w0 := resumed w1).
  set (tl := Some (scale (1 # 2)
                     (add (of_Z (clock (ticks ws)))
                          (of_Z (clock (ticks w0)))))).
  set (wt := mkWorld (this w0) (events w0) (S (ticks w0)) (inflight w0)
               (fresh w0)).
  set (wx := exec (setToken clock decodeToken t r i tl) wt).
  set (told := if onAuthRefreshSuccess (this wx)
               then snd (emit OnAuthRefreshSuccess wx) else wx).
  assert (w2 = drained resolve_true told) as Hw2.
  { subst w2. unfold exec at 1.
    rewrite (resume_refresh_run (Ok tokenResponse) w1 _ [] Hinflight).
    by rewrite (refresh_succeeded_run _ tokenResponse (resumed w1) Herr
                  Hstorable). }
  clearbody w2. subst w2.
  pose proof (proj2 (setToken_returns t r i tl wt) Hstorable) as Hret.
  pose proof (setToken_committed t r i tl wt Hret)
    as (Htoken & Hparsed & Hrefresh & _).
  pose proof (setToken_token_state t r i tl wt Hret) as Hstate.
  pose proof (setToken_bystander t r i tl wt) as Hbx.
  pose proof (setToken_handlers t r i tl wt) as Hhx.
  destruct (setToken_no_verdict t r i tl wt) as (evs2 & Hev2 & Hquiet2).
  fold (exec (setToken clock decodeToken t r i tl) wt) in Hbx, Hhx, Hev2.
  fold wx in Htoken, Hparsed, Hrefresh, Hstate, Hbx, Hhx, Hev2.
  assert (claims_of decodeToken t = Some claims) as Hclaims.
  { unfold claims_of. by rewrite Et, D. }
  unfold committed in Hstate. rewrite Hclaims in Hstate.
  rewrite Hclaims in Hparsed. rewrite Et in Htoken.
  pose proof (f_equal ts_authenticated Hstate) as Hauth.
  cbn [ts_authenticated token_state] in Hauth.
  set (success := if onAuthRefreshSuccess (this wx)
                  then [OnAuthRefreshSuccess] else []).
  assert (events told = events wx ++ success
          /\ handlers told = handlers wx
          /\ this told = this wx) as (Hev3 & Hh3 & Hthis3).
  { subst told success.
    destruct (onAuthRefreshSuccess (this wx)); [by repeat split|].
    rewrite app_nil_r. by repeat split. }
  exists (evs1 ++ [call] ++ evs2 ++ success).
  split; [|split; [|split]].
  - unfold drained. cbn [events]. rewrite Hthis3, Hev3, Hev2.
    rewrite (bystander_refreshQueue _ _ Hbx).
    subst wt w0 w1. unfold resumed, dispatched. cbn [this events].
    change (refreshQueue (set_refreshQueue ?q _)) with q.
    rewrite (bystander_fresh _ _ Hby), Hev1.
    cbn [reverse map resolve_true]. by rewrite <- !app_assoc.
  - apply Forall_app. split; [exact Hquiet1|].
    apply Forall_app. split; [subst call; repeat constructor; discriminate|].
    apply Forall_app. split; [exact Hquiet2|].
    subst success. destruct (onAuthRefreshSuccess (this wx));
      repeat constructor; discriminate.
  - change (handlers (drained resolve_true told)) with (handlers told).
    by rewrite Hh3, Hhx.
  - change (this (drained resolve_true told))
      with (set_refreshQueue [] (this told)).
    rewrite Hthis3. by repeat split.
Qed.

Lemma processInit_resumed_resolved (initOptions : InitOptions.t)
    (value : bool) (w : World) :
  processInit_resumed initOptions (Resolved value) w
  = (Ok Fulfilled,
     if onAuthSuccess (this w) then snd (emit OnAuthSuccess w) else w).
Proof.
  unfold processInit_resumed. by rewrite run_bind, notify_run.
Qed.

(** X26: when the refresh forced by [processInit] succeeds, the promise
    of [processInit] is fulfilled, the session holds the tokens of the
    answer with [authenticated] true, the [onAuthSuccess] handler is called
    if one is set, and [onAuthError] is not called. *)
Theorem processInit_refresh_success (w : World)
    (initOptions : InitOptions.t) (tokenResponse : TokenResponse.t)
    (raw : string) (claims : TokenParsed.t) :
  truthy (InitOptions.token initOptions) = true ->
  truthy (InitOptions.refreshToken initOptions) = true ->
  storable decodeToken (InitOptions.token initOptions)
    (InitOptions.refreshToken initOptions)
    (InitOptions.idToken initOptions) ->
  refreshQueue (this w) = [] ->
  inflight w = [] ->
  truthy (TokenResponse.error tokenResponse) = false ->
  or_undefined (TokenResponse.access_token tokenResponse) = Some raw ->
  decodeToken raw = Ok (Some claims) ->
  decodes decodeToken (TokenResponse.refresh_token tokenResponse) ->
  decodes decodeToken (TokenResponse.id_token tokenResponse) ->
  let m := processInit_to_end clock decodeToken formatQuerystringParameters
             (Some initOptions) (Ok tokenResponse) in
  let w' := exec m w in
  result_of m w = Ok (Some Fulfilled)
  /\ token (this w') = Some raw
  /\ tokenParsed (this w') = Some claims
  /\ refreshToken (this w')
     = or_undefined (TokenResponse.refresh_token tokenResponse)
  /\ authenticated (this w') = Some true
  /\ (In OnAuthSuccess (new_events w w') <-> onAuthSuccess (this w) = true)
  /\ (forall error description,
        ~ In (OnAuthError error description) (new_events w w')).
Proof.
  intros Ht Hr Hstorable Hq Hin Herr Et D Hdr Hdi m w'.
  assert (stored_tokens decodeToken initOptions) as Hstored by done.
  pose proof (processInit_then_success w initOptions tokenResponse raw claims
                Hstored (conj Hq Hin) Herr Et D Hdr Hdi) as Hchain.
  pose proof (processInit_begun w initOptions Hstored Hq) as Hbegun.
  cbv zeta in Hbegun, Hchain.
  set (w1 := dispatched clock formatQuerystringParameters _) in *.
  assert (exec (processInit clock decodeToken formatQuerystringParameters
                  (Some initOptions)) w = w1) as Hw1
    by (unfold exec; by rewrite Hbegun).
  rewrite Hw1 in Hchain.
  set (w2 := exec (resume_refresh clock decodeToken (Ok tokenResponse)) w1)
    in *.
  destruct Hchain
    as (evs & Hev & Hquiet & Hhandlers & Htoken & Hparsed & Hrefresh & Hauth).
  destruct (no_verdict_among evs Hquiet) as (Hsettled & Hnosucc & Hnoerr).
  assert (outcome_of (fresh w) (settled (new_events w w2))
          = Some (Resolved true)) as Houtcome.
  { rewrite (new_events_app w w2 _ Hev), settled_app, Hsettled.
    apply outcome_of_first. }
  pose proof (processInit_to_end_awaited initOptions (Ok tokenResponse) w w1
                (fresh w) (Resolved true) Hbegun Houtcome) as Hrun.
  fold w2 in Hrun. rewrite processInit_resumed_resolved in Hrun.
  subst w' m. unfold result_of, exec. rewrite Hrun. cbn [fst snd].
  split; [reflexivity|].
  assert (onAuthSuccess (this w2) = onAuthSuccess (this w)) as Hhandler.
  { exact (f_equal (fun h => fst (fst (fst (fst (fst h))))) Hhandlers). }
  rewrite Hhandler.
  set (final := if onAuthSuccess (this w)
                then snd (emit OnAuthSuccess w2) else w2).
  assert (this final = this w2) as Hthis.
  { subst final. by destruct (onAuthSuccess (this w)). }
  assert (new_events w final
          = evs ++ [Resolve (fresh w) true]
            ++ (if onAuthSuccess (this w) then [OnAuthSuccess] else []))
    as ->.
  { apply new_events_app. subst final.
    destruct (onAuthSuccess (this w)); cbn [emit snd events];
      rewrite Hev, <- ?app_assoc; cbn [app]; by rewrite ?app_nil_r. }
  rewrite Hthis. repeat (split; [done|]). split; [split|].
  - intros Hsucc. apply in_app_or in Hsucc as [Hsucc|Hsucc]; [done|].
    destruct (onAuthSuccess (this w)); [done|].
    cbn in Hsucc. intuition discriminate.
  - intros ->. apply in_or_app. right. right. by left.
  - intros error description Herror.
    apply in_app_or in Herror as [Herror|Herror].
    + by apply (Hnoerr error description).
    + destruct (onAuthSuccess (this w)); cbn in Herror;
        intuition discriminate.
Qed.

(** X27: without both an access and a refresh token in the options,
    [processInit] makes no refresh call and leaves the session alone; its
    promise is fulfilled whatever [onLoad] says.  [adapter.login] is
    called exactly when [onLoad] is ['login-required'].  A value of
    [onLoad] other than ['login-required'] and ['check-sso'] rejects only
    the promise of [onLoad], which nobody awaits. *)
Theorem processInit_without_stored_tokens (w : World)
    (initOptions : InitOptions.t) :
  truthy (InitOptions.token initOptions)
  && truthy (InitOptions.refreshToken initOptions) = false ->
  let m := processInit clock decodeToken formatQuerystringParameters
             (Some initOptions) in
  let value := of_opt (InitOptions.onLoad initOptions) in
  result_of m w = Ok (inl Fulfilled)
  /\ this (exec m w) = this w
  /\ new_events w (exec m w)
     = (if strict_eq value (VStr "login-required") then [AdapterLogin]
        else [])
  /\ (strict_eq value (VStr "login-required") = false ->
      strict_eq value (VStr "check-sso") = false ->
      result_of (onLoad initOptions) w
      = Ok (RejectedWith "Invalid value for onLoad")).
Proof.
  intros Hnone. cbv zeta. unfold result_of, exec, processInit.
  rewrite Hnone.
  destruct (InitOptions.onLoad initOptions) as [value|] eqn:E.
  - cbn [of_opt strict_eq].
    change (truthy (Some value)) with (truthy value).
    destruct (truthy value) eqn:Htruthy.
    + rewrite run_bind, onLoad_run, E. cbn [of_opt strict_eq].
      cbv beta iota. cbn [mret M_ret fst snd].
      destruct (String.eqb value "login-required") eqn:Hlogin.
      * split; [reflexivity|]. split; [reflexivity|].
        split; [by apply new_events_app|]. discriminate.
      * split; [reflexivity|]. split; [reflexivity|].
        split; [apply new_events_app; by rewrite app_nil_r|].
        intros _ Hsso. by rewrite Hsso.
    + assert (value = "") as ->.
      { unfold truthy, string_truthy in Htruthy.
        apply negb_false_iff in Htruthy. by apply String.eqb_eq. }
      cbn. split; [reflexivity|]. split; [reflexivity|].
      split; [apply new_events_app; by rewrite app_nil_r|].
      intros _ _. unfold onLoad. by rewrite E.
  - cbn. split; [reflexivity|]. split; [reflexivity|].
    split; [apply new_events_app; by rewrite app_nil_r|].
    intros _ _. unfold onLoad. by rewrite E.
Qed.


(** *** Configuration by [init] *)

Ltac not_listed H :=
  repeat (apply elem_of_cons in H as [H|H]; [congruence|]);
  by apply elem_of_nil in H.

Lemma responseMode_of_allowed value :
  is_Some (responseMode_of value) <-> value ∈ ["query"; "fragment"].
Proof.
  unfold responseMode_of.
  destruct (String.eqb_spec value "query") as [->|Hq].
  { split; [intros _; by constructor | by eexists]. }
  destruct (String.eqb_spec value "fragment") as [->|Hf].
  { split; [intros _; by do 2 constructor | by eexists]. }
  split; [by intros [? ?] | intros H; not_listed H].
Qed.

Lemma flow_of_allowed value :
  is_Some (flow_of value) <-> value ∈ ["standard"; "implicit"; "hybrid"].
Proof.
  unfold flow_of.
  destruct (String.eqb_spec value "standard") as [->|Hs].
  { split; [intros _; by constructor | by eexists]. }
  destruct (String.eqb_spec value "implicit") as [->|Hi].
  { split; [intros _; by do 2 constructor | by eexists]. }
  destruct (String.eqb_spec value "hybrid") as [->|Hh].
  { split; [intros _; by do 3 constructor | by eexists]. }
  split; [by intros [? ?] | intros H; not_listed H].
Qed.

Lemma pkceMethod_of_allowed value :
  is_Some (pkceMethod_of value) <-> value ∈ ["S256"].
Proof.
  unfold pkceMethod_of.
  destruct (String.eqb_spec value "S256") as [->|Hs].
  { split; [intros _; by constructor | by eexists]. }
  split; [by intros [? ?] | intros H; not_listed H].
Qed.

(** A check of [init] passes exactly when the option is absent or allowed,
    and then assigns the value the option stands for, if any. *)
Lemma init_responseMode_checked initOptions kc :
  match init_responseMode initOptions kc with
  | Some kc' =>
      absent_or_in ["query"; "fragment"]
        (InitOptions.responseMode initOptions)
      /\ kc' = match chosen responseMode_of
                       (InitOptions.responseMode initOptions) with
               | Some mode => set_responseMode (Some mode) kc
               | None => kc
               end
  | None =>
      ~ absent_or_in ["query"; "fragment"]
          (InitOptions.responseMode initOptions)
  end.
Proof.
  unfold init_responseMode, absent_or_in, chosen.
  destruct (or_undefined (InitOptions.responseMode initOptions))
    as [value|]; [|done].
  cbn [mbind option_bind].
  pose proof (responseMode_of_allowed value) as Hallowed.
  destruct (responseMode_of value) as [mode|].
  - split; [apply Hallowed; by eexists | done].
  - intros Hin. apply Hallowed in Hin. by destruct Hin.
Qed.

Lemma init_flow_checked initOptions kc :
  match init_flow initOptions kc with
  | Some kc' =>
      absent_or_in ["standard"; "implicit"; "hybrid"]
        (InitOptions.flow initOptions)
      /\ kc' = match chosen flow_of (InitOptions.flow initOptions) with
               | Some flow' =>
                   set_flow (Some flow')
                     (set_responseType (Some (responseType_of flow')) kc)
               | None => kc
               end
  | None =>
      ~ absent_or_in ["standard"; "implicit"; "hybrid"]
          (InitOptions.flow initOptions)
  end.
Proof.
  unfold init_flow, absent_or_in, chosen.
  destruct (or_undefined (InitOptions.flow initOptions)) as [value|]; [|done].
  cbn [mbind option_bind].
  pose proof (flow_of_allowed value) as Hallowed.
  destruct (flow_of value) as [flow'|].
  - split; [apply Hallowed; by eexists | done].
  - intros Hin. apply Hallowed in Hin. by destruct Hin.
Qed.

Lemma init_pkceMethod_checked initOptions kc :
  match init_pkceMethod initOptions kc with
  | Some kc' =>
      absent_or_in ["S256"] (InitOptions.pkceMethod initOptions)
      /\ kc' = match chosen pkceMethod_of
                       (InitOptions.pkceMethod initOptions) with
               | Some method => set_pkceMethod (Some method) kc
               | None => kc
               end
  | None => ~ absent_or_in ["S256"] (InitOptions.pkceMethod initOptions)
  end.
Proof.
  unfold init_pkceMethod, absent_or_in, chosen.
  destruct (or_undefined (InitOptions.pkceMethod initOptions))
    as [value|]; [|done].
  cbn [mbind option_bind].
  pose proof (pkceMethod_of_allowed value) as Hallowed.
  destruct (pkceMethod_of value) as [method|].
  - split; [apply Hallowed; by eexists | done].
  - intros Hin. apply Hallowed in Hin. by destruct Hin.
Qed.

(** What [init] has assigned when it goes on to load the configuration. *)
Lemma init_configure_went_on (initOptions : InitOptions.t)
    (createCallbackStorage : gmap string CallbackState.t)
    (kc kc' : KeycloakClient) (settings settings' : ClientSettings.t) :
  init_configure initOptions createCallbackStorage kc settings
  = (None, kc', settings') ->
  (InitOptions.adapter initOptions = true
   /\ absent_or_in ["query"; "fragment"]
        (InitOptions.responseMode initOptions)
   /\ absent_or_in ["standard"; "implicit"; "hybrid"]
        (InitOptions.flow initOptions)
   /\ absent_or_in ["S256"] (InitOptions.pkceMethod initOptions))
  /\ authenticated kc' = Some false
  /\ callbackStorage kc' = createCallbackStorage
  /\ responseMode kc'
     = Some (nullish (chosen responseMode_of
                        (InitOptions.responseMode initOptions))
               (nullish (responseMode kc) fragment))
  /\ (flow kc', responseType kc')
     = match chosen flow_of (InitOptions.flow initOptions) with
       | Some flow' => (Some flow', Some (responseType_of flow'))
       | None =>
           if truthy (responseType kc) then (flow kc, responseType kc)
           else (Some standard, Some "code")
       end
  /\ ClientSettings.enableLogging settings'
     = Some (nullish (InitOptions.enableLogging initOptions) false).
Proof.
  unfold init_configure.
  destruct (InitOptions.adapter initOptions); cbn [negb]; [|done].
  set (kc1 := if strict_eq _ _ then _ else _).
  assert (protocol kc1
          = (Some false, responseMode kc, responseType kc, flow kc,
             createCallbackStorage)) as H1.
  { subst kc1. destruct (strict_eq _ _), (InitOptions.useNonce initOptions);
      reflexivity. }
  clearbody kc1.
  pose proof (init_responseMode_checked initOptions kc1) as Hmode.
  destruct (init_responseMode initOptions kc1) as [kc2|]; [|done].
  destruct Hmode as [Hmode ->].
  set (kc2 := match chosen responseMode_of _ with Some _ => _ | None => _ end).
  pose proof (init_flow_checked initOptions kc2) as Hflow.
  destruct (init_flow initOptions kc2) as [kc3|]; [|done].
  destruct Hflow as [Hflow ->].
  set (kc3 := match chosen flow_of _ with Some _ => _ | None => _ end).
  set (kc4 := match InitOptions.timeSkew initOptions with
              | Some _ => _ | None => _ end).
  pose proof (init_pkceMethod_checked initOptions kc4) as Hpkce.
  destruct (init_pkceMethod initOptions kc4) as [kc5|]; [|done].
  destruct Hpkce as [Hpkce ->].
  set (kc5 := match chosen pkceMethod_of _ with Some _ => _ | None => _ end).
  intros [= <- <-].
  split; [done|].
  assert (protocol kc5
          = (Some false,
             match chosen responseMode_of
                     (InitOptions.responseMode initOptions) with
             | Some mode => Some mode
             | None => responseMode kc
             end,
             match chosen flow_of (InitOptions.flow initOptions) with
             | Some flow' => Some (responseType_of flow')
             | None => responseType kc
             end,
             match chosen flow_of (InitOptions.flow initOptions) with
             | Some flow' => Some flow'
             | None => flow kc
             end,
             createCallbackStorage)) as H5.
  { subst kc5 kc4 kc3 kc2. unfold protocol in H1 |- *.
    injection H1 as Ha Hm Hr Hf Hs.
    destruct (chosen pkceMethod_of _), (InitOptions.timeSkew initOptions),
      (chosen flow_of _), (chosen responseMode_of _); simpl; congruence. }
  clearbody kc5. clear kc4 kc3 kc2 Hmode Hflow Hpkce.
  unfold protocol in H5. injection H5 as Ha Hm Hr Hf Hs.
  set (kc6 := match responseMode kc5 with Some _ => _ | None => _ end).
  assert (authenticated kc6 = Some false /\ responseType kc6 = responseType kc5
          /\ flow kc6 = flow kc5 /\ callbackStorage kc6 = createCallbackStorage
          /\ responseMode kc6 = Some (nullish (responseMode kc5) fragment))
    as (Ha6 & Hr6 & Hf6 & Hs6 & Hm6).
  { subst kc6. destruct (responseMode kc5) eqn:E5; simpl; auto. }
  clearbody kc6.
  split; [|split; [|split; [|split]]].
  - by destruct (truthy (responseType kc6)).
  - by destruct (truthy (responseType kc6)).
  - rewrite Hm in Hm6.
    destruct (truthy (responseType kc6)); simpl; rewrite Hm6;
      by destruct (chosen responseMode_of _).
  - rewrite Hr6, Hr.
    destruct (chosen flow_of _) as [flow'|].
    + assert (truthy (Some (responseType_of flow')) = true) as ->
        by (by destruct flow').
      by rewrite Hf6, Hf, Hr6, Hr.
    + destruct (truthy (responseType kc)); [|reflexivity].
      by rewrite Hf6, Hf, Hr6, Hr.
  - reflexivity.
Qed.

(** What [init] has assigned when its promise ends before the
    configuration is loaded. *)
Lemma init_configure_ended (initOptions : InitOptions.t)
    (createCallbackStorage : gmap string CallbackState.t)
    (kc kc' : KeycloakClient) (settings settings' : ClientSettings.t)
    (completion : Completion) :
  init_configure initOptions createCallbackStorage kc settings
  = (Some completion, kc', settings') ->
  (exists message, completion = RejectedWith message)
  /\ ~ (InitOptions.adapter initOptions = true
        /\ absent_or_in ["query"; "fragment"]
             (InitOptions.responseMode initOptions)
        /\ absent_or_in ["standard"; "implicit"; "hybrid"]
             (InitOptions.flow initOptions)
        /\ absent_or_in ["S256"] (InitOptions.pkceMethod initOptions))
  /\ authenticated kc' = Some false.
Proof.
  unfold init_configure.
  destruct (InitOptions.adapter initOptions); cbn [negb].
  2: { intros [= <- <- <-]. split; [by eexists|]. split; [|done].
       by intros [? _]. }
  set (kc1 := if strict_eq _ _ then _ else _).
  assert (authenticated kc1 = Some false) as H1.
  { subst kc1. destruct (strict_eq _ _), (InitOptions.useNonce initOptions);
      reflexivity. }
  clearbody kc1.
  pose proof (init_responseMode_checked initOptions kc1) as Hmode.
  destruct (init_responseMode initOptions kc1) as [kc2|].
  2: { intros [= <- <- <-]. split; [by eexists|]. split; [|done].
       by intros (_ & ? & _). }
  destruct Hmode as [Hmode ->].
  set (kc2 := match chosen responseMode_of _ with Some _ => _ | None => _ end).
  assert (authenticated kc2 = Some false) as H2.
  { subst kc2. by destruct (chosen responseMode_of _). }
  clearbody kc2.
  pose proof (init_flow_checked initOptions kc2) as Hflow.
  destruct (init_flow initOptions kc2) as [kc3|].
  2: { intros [= <- <- <-]. split; [by eexists|]. split; [|done].
       by intros (_ & _ & ? & _). }
  destruct Hflow as [Hflow ->].
  set (kc4 := match InitOptions.timeSkew initOptions with
              | Some _ => _ | None => _ end).
  assert (authenticated kc4 = Some false) as H4.
  { subst kc4.
    by destruct (InitOptions.timeSkew initOptions), (chosen flow_of _). }
  clearbody kc4.
  pose proof (init_pkceMethod_checked initOptions kc4) as Hpkce.
  destruct (init_pkceMethod initOptions kc4) as [kc5|]; [done|].
  intros [= <- <- <-]. split; [by eexists|]. split; [|done].
  by intros (_ & _ & _ & ?).
Qed.


(** X28: [init] goes on to load the configuration exactly when the options
    name an adapter and each of [responseMode], [flow] and [pkceMethod] is
    absent, empty or one of the values allowed; otherwise its promise is
    rejected.  In every case [authenticated] is false by then, and without
    an adapter nothing else has been assigned. *)
Theorem init_rejects_invalid_options (initOptions : InitOptions.t)
    (createCallbackStorage : gmap string CallbackState.t)
    (kc kc' : KeycloakClient) (settings settings' : ClientSettings.t)
    (ended : option Completion) :
  init_configure initOptions createCallbackStorage kc settings
  = (ended, kc', settings') ->
  (ended = None
   <-> InitOptions.adapter initOptions = true
       /\ absent_or_in ["query"; "fragment"]
            (InitOptions.responseMode initOptions)
       /\ absent_or_in ["standard"; "implicit"; "hybrid"]
            (InitOptions.flow initOptions)
       /\ absent_or_in ["S256"] (InitOptions.pkceMethod initOptions))
  /\ (ended = None \/ exists message, ended = Some (RejectedWith message))
  /\ authenticated kc' = Some false
  /\ (InitOptions.adapter initOptions = false ->
      ended = Some (RejectedWith "Missing Keycloak adapter from initOptions")
      /\ kc' = set_authenticated (Some false) kc
      /\ settings' = settings).
Proof.
  intros Hrun. destruct ended as [completion|].
  - destruct (init_configure_ended _ _ _ _ _ _ _ Hrun)
      as (Hmessage & Hinvalid & Hauth).
    split; [split; [done | by intros ?]|].
    split; [right; destruct Hmessage as [message ->]; by eexists|].
    split; [exact Hauth|].
    intros Hadapter. revert Hrun. unfold init_configure.
    rewrite Hadapter. cbn [negb]. by intros [= <- <- <-].
  - destruct (init_configure_went_on _ _ _ _ _ _ Hrun)
      as (Hvalid & Hauth & _).
    split; [by split|]. split; [by left|]. split; [exact Hauth|].
    intros Hadapter. destruct Hvalid as [Hgiven _]. congruence.
Qed.

(** X29: when [init] goes on to load the configuration, the flow and the
    response type of the client agree, provided they agreed before, as
    they do on a client that was just constructed.  The flow is the one of
    the options when it is given, else the one the client had, else
    [standard], and the response type is [code], [id_token token] or
    [code id_token token] accordingly.  The response mode is the one of the
    options, else the one the client had, else [fragment]; the callback
    storage is the one the adapter creates, and logging is off unless the
    options turn it on. *)
Theorem init_configures_flow (initOptions : InitOptions.t)
    (createCallbackStorage : gmap string CallbackState.t)
    (kc kc' : KeycloakClient) (settings settings' : ClientSettings.t) :
  flow_agrees kc ->
  init_configure initOptions createCallbackStorage kc settings
  = (None, kc', settings') ->
  let flow' := nullish (chosen flow_of (InitOptions.flow initOptions))
                 (nullish (flow kc) standard) in
  flow kc' = Some flow'
  /\ responseType kc' = Some (responseType_of flow')
  /\ responseMode kc'
     = Some (nullish (chosen responseMode_of
                        (InitOptions.responseMode initOptions))
               (nullish (responseMode kc) fragment))
  /\ callbackStorage kc' = createCallbackStorage
  /\ ClientSettings.enableLogging settings'
     = Some (nullish (InitOptions.enableLogging initOptions) false).
Proof.
  intros Hagrees Hrun.
  destruct (init_configure_went_on _ _ _ _ _ _ Hrun)
    as (_ & _ & Hstorage & Hmode & Hflow & Hlogging).
  cbv zeta.
  pose proof (f_equal fst Hflow) as Hf.
  pose proof (f_equal snd Hflow) as Hr.
  cbn [fst snd] in Hf, Hr. rewrite Hf, Hr. clear Hflow Hf Hr.
  split; [|split; [|by split; [|split]]].
  - destruct (chosen flow_of _) as [flow'|]; [reflexivity|].
    unfold flow_agrees in Hagrees.
    destruct (flow kc) as [flow'|], (responseType kc) as [type|];
      try done.
    subst type. by destruct flow'.
  - destruct (chosen flow_of _) as [flow'|]; [reflexivity|].
    unfold flow_agrees in Hagrees.
    destruct (flow kc) as [flow'|], (responseType kc) as [type|];
      try done.
    subst type. by destruct flow'.
Qed.

End Properties.

(** C8 as stated fails: with claims, a refresh token and a known skew,
    [isTokenExpired(Infinity)] returns true; it does not throw
    ['Invalid minValidity']. *)
Lemma isTokenExpired_not_finite_counterexample :
  ~ (forall (clock : nat -> Z) (w : World) (mv : num),
       isFinite mv = false ->
       may_query_expiry (this w) = true ->
       result_of (isTokenExpired clock (Some mv)) w = Throw InvalidMinValidity).
Proof.
  intros claim.
  specialize (claim Sample.clock Sample.world PInf eq_refl eq_refl).
  vm_compute in claim. discriminate.
Qed.

Lemma isTokenExpired_infinite_minValidity_witness :
  result_of (isTokenExpired Sample.clock (Some PInf)) Sample.world = Ok true.
Proof.
  destruct (isTokenExpired_infinite_minValidity Sample.clock Sample.world PInf)
    as [H _]; [by left | reflexivity | exact H].
Defined.

Lemma isTokenExpired_monotone_witness :
  result_of (isTokenExpired Sample.clock (Some (of_Z 500))) Sample.world
  = Ok true.
Proof.
  apply (isTokenExpired_monotone Sample.clock Sample.world (of_Z 400));
    reflexivity.
Defined.

(** C4 as stated fails: with two waiters enqueued as 0 then 1, the failed
    refresh rejects 1 first and 0 second. *)
Lemma refresh_settles_fifo_counterexample :
  ~ (forall (clock : nat -> Z)
            (decodeToken : string -> Result (option TokenParsed.t))
            (w : World) (outcome : Settled),
       inflight w <> [] ->
       map fst (settled
                  (new_events w
                     (exec (resume_refresh clock decodeToken outcome) w)))
       = refreshQueue (this w)).
Proof.
  intros claim.
  specialize (claim Sample.clock Sample.decodeToken Sample.busy
                Sample.network_down).
  vm_compute in claim. by specialize (claim ltac:(discriminate)).
Qed.

Lemma refresh_settles_in_reverse_order_witness :
  exists o : Outcome,
    (o = Resolved true \/ o = Rejected (VBool true))
    /\ settled (new_events Sample.busy
                  (exec (resume_refresh Sample.clock Sample.decodeToken
                           Sample.network_down) Sample.busy))
       = map (fun d => (d, o)) (reverse (refreshQueue (this Sample.busy))).
Proof.
  apply (refresh_settles_in_reverse_order Sample.clock Sample.decodeToken
           Sample.busy Sample.network_down).
  vm_compute. discriminate.
Defined.

(** C3 as stated fails: when [refreshTokens] throws, the access token, the
    refresh token and their claims are still held afterwards. *)
Lemma refresh_failure_clears_counterexample :
  ~ (forall (clock : nat -> Z)
            (decodeToken : string -> Result (option TokenParsed.t))
            (w : World) (outcome : Settled),
       inflight w <> [] ->
       failed outcome ->
       let w' := exec (resume_refresh clock decodeToken outcome) w in
       tokens_absent (this w')
       /\ (onAuthRefreshError (this w) = true ->
           In OnAuthRefreshError (new_events w w'))
       /\ settled (new_events w w')
          = map (fun d => (d, Rejected (VBool true)))
                (reverse (refreshQueue (this w)))
       /\ refreshQueue (this w') = []).
Proof.
  intros claim.
  destruct (claim Sample.clock Sample.decodeToken Sample.busy
              Sample.network_down) as [[Htoken _] _].
  - vm_compute. discriminate.
  - exact I.
  - vm_compute in Htoken. discriminate.
Qed.

Lemma refresh_failure_cleanup_witness :
  let w' := exec (resume_refresh Sample.clock Sample.decodeToken
                    Sample.invalid_grant) Sample.busy in
  (truthy (token (this Sample.busy)) = true ->
   tokens_absent (this w') /\ authenticated (this w') = Some false)
  /\ (onAuthRefreshError (this Sample.busy) = true ->
      In OnAuthRefreshError (new_events Sample.busy w'))
  /\ settled (new_events Sample.busy w')
     = map (fun d => (d, Rejected (VBool true)))
           (reverse (refreshQueue (this Sample.busy)))
  /\ refreshQueue (this w') = [].
Proof.
  apply (refresh_failure_cleanup Sample.clock Sample.decodeToken Sample.busy
           Sample.invalid_grant).
  - vm_compute. discriminate.
  - reflexivity.
Defined.

(** C7 as stated fails: a refresh token in which the decoder finds no claims
    is stored, and [setToken] returns normally with the raw string present
    and the claims absent. *)
Lemma setToken_pairing_counterexample :
  ~ (forall (clock : nat -> Z)
            (decodeToken : string -> Result (option TokenParsed.t))
            (t r i : option string) (tl : option num) (w : World),
       result_of (setToken clock decodeToken t r i tl) w = Ok tt ->
       let kc := this (exec (setToken clock decodeToken t r i tl) w) in
       (is_Some (token kc) <-> is_Some (tokenParsed kc))
       /\ (is_Some (refreshToken kc) <-> is_Some (refreshTokenParsed kc))
       /\ (is_Some (idToken kc) <-> is_Some (idTokenParsed kc))).
Proof.
  intros claim.
  destruct (claim Sample.clock Sample.decodeToken
              (Some "T") (Some "null") None None Sample.world)
    as (_ & [Hrefresh _] & _); [reflexivity|].
  destruct Hrefresh as [claims Hclaims]; [by eexists|].
  vm_compute in Hclaims. discriminate.
Qed.

Lemma setToken_pairing_witness :
  let kc := this (exec (setToken Sample.clock Sample.decodeToken
                          (Some "T") (Some "null") None None) Sample.world) in
  (is_Some (token kc) <-> is_Some (tokenParsed kc))
  /\ refreshToken kc = Some "null".
Proof.
  destruct (setToken_pairing Sample.clock Sample.decodeToken
              (Some "T") (Some "null") None None Sample.world)
    as (Haccess & _ & _ & Hrefresh & _); [reflexivity|].
  split; [exact Haccess | exact Hrefresh].
Defined.

Lemma processCallback_exchange_failure_witness :
  result_of
    (processCallback Sample.clock Sample.decodeToken
       Sample.formatQuerystringParameters
       (parseCallback (Sample.waiting_client standard) Sample.callback_url)
       (Throw (External "network down")))
    (Sample.world_of (Sample.waiting_client standard))
  = Throw (TokenExchangeError (External "network down")).
Proof.
  apply (processCallback_exchange_failure Sample.clock Sample.decodeToken
           Sample.formatQuerystringParameters
           (Sample.world_of (Sample.waiting_client standard))).
  vm_compute. reflexivity.
Defined.

(** C2 fails on the code: in the hybrid flow a callback with a [code], the
    stored [state] and an id token whose nonce differs, but no access token,
    reaches [authSuccess]; the nonce check fails and [clearToken] is called,
    but [clearToken] does nothing when no access token is held, so the id
    token and its claims stay in the session. *)
Theorem authSuccess_nonce_mismatch_keeps_id_token :
  let kc := Sample.waiting_client hybrid in
  let oauth := parseCallback kc Sample.forged_callback_url in
  let m := authSuccess Sample.clock Sample.decodeToken oauth
             (of_Z 1700000100000) true in
  let w' := exec m (Sample.world_of kc) in
  useNonce kc = Some true
  /\ prop oauth "storedNonce" = VStr "N1"
  /\ result_of m (Sample.world_of kc) = Throw NonceMismatch
  /\ ~ In OnAuthSuccess (events w')
  /\ authenticated (this w') = Some false
  /\ token (this w') = None
  /\ idToken (this w') = Some "N2"
  /\ (idTokenParsed (this w') ≫= TokenParsed.nonce) = Some "N2".
Proof.
  vm_compute. repeat split; try reflexivity. intros [].
Qed.


(** The forged callback of C2 reaches [authSuccess] through [parseCallback]
    and [processCallback], whatever the token endpoint would answer. *)
Example processCallback_forged_callback (fetched : Settled) :
  let kc := Sample.waiting_client hybrid in
  let m := processCallback Sample.clock Sample.decodeToken
             Sample.formatQuerystringParameters
             (parseCallback kc Sample.forged_callback_url) fetched in
  result_of m (Sample.world_of kc) = Throw NonceMismatch
  /\ idToken (this (exec m (Sample.world_of kc))) = Some "N2"
  /\ new_events (Sample.world_of kc) (exec m (Sample.world_of kc)) = [].
Proof. vm_compute. by repeat split. Qed.

(** The slip set aside in C8: [NaN] is falsy, so [isTokenExpired(NaN)]
    never reaches the [isNaN] test and answers as [isTokenExpired(0)]. *)
Example isTokenExpired_NaN :
  result_of (isTokenExpired Sample.clock (Some NaN)) Sample.world = Ok false.
Proof. reflexivity. Qed.

(** ** The properties on sample sessions *)

Ltac sample_decodes :=
  let Hraw := fresh "Hraw" in
  intros ? Hraw; vm_compute in Hraw;
  first [ discriminate Hraw
        | injection Hraw as <-; eexists; vm_compute; reflexivity ].

Ltac sample_storable :=
  split; [sample_decodes | split; sample_decodes].

Lemma setToken_commits_access_token_witness :
  let tl := Some (of_Z 1700000100000) in
  let kc' := this (exec (setToken Sample.clock Sample.decodeToken
                           (Some "T2") (Some "R2") None tl) Sample.world) in
  exists claims,
    Sample.decodeToken "T2" = Ok (Some claims)
    /\ token kc' = Some "T2"
    /\ tokenParsed kc' = Some claims
    /\ authenticated kc' = Some true
    /\ subject kc' = TokenParsed.sub claims
    /\ realmAccess kc' = TokenParsed.realm_access claims
    /\ resourceAccess kc' = TokenParsed.resource_access claims
    /\ timeSkew kc' = skew_after tl claims (timeSkew (this Sample.world)).
Proof.
  exact (setToken_commits_access_token Sample.clock Sample.decodeToken
           (Some "T2") (Some "R2") None (Some (of_Z 1700000100000))
           Sample.world ltac:(vm_compute; reflexivity)).
Defined.

Lemma setToken_malformed_token_witness :
  let m := setToken Sample.clock Sample.decodeToken (Some "null") None None
             None in
  let kc := this Sample.world in
  let kc' := this (exec m Sample.world) in
  result_of m Sample.world = Throw MalformedToken
  /\ token kc' = Some "null"
  /\ tokenParsed kc' = None
  /\ refreshToken kc' = None
  /\ idToken kc' = None
  /\ authenticated kc' = authenticated kc
  /\ subject kc' = subject kc
  /\ realmAccess kc' = realmAccess kc
  /\ resourceAccess kc' = resourceAccess kc
  /\ timeSkew kc' = timeSkew kc.
Proof.
  apply (setToken_malformed_token Sample.clock Sample.decodeToken
           (Some "null") None None None Sample.world "null").
  - reflexivity.
  - reflexivity.
  - sample_decodes.
  - sample_decodes.
Defined.

Lemma clearToken_logs_out_witness :
  let w' := exec (clearToken Sample.clock Sample.decodeToken) Sample.world in
  result_of (clearToken Sample.clock Sample.decodeToken) Sample.world = Ok tt
  /\ token_state (this w') = logged_out (Some (of_Z 0))
  /\ tokenTimeoutHandle (this w') = None
  /\ new_events Sample.world w' = [OnAuthLogout].
Proof.
  exact (clearToken_logs_out Sample.clock Sample.decodeToken Sample.world
           eq_refl).
Defined.

Lemma roles_follow_access_token_witness :
  let kc' := this (exec (setToken Sample.clock Sample.decodeStaff
                           (Some "T2") (Some "R2") None None)
                     Sample.world) in
  hasRealmRole kc' "admin" = true
  /\ hasResourceRole kc' "editor" None = Returns true
  /\ hasResourceRole kc' "editor" (Some "toString") = TypeError.
Proof.
  destruct (roles_follow_access_token Sample.clock Sample.decodeStaff
              Sample.generatePkceChallenge
              (Some "T2") (Some "R2") None None Sample.world "T2"
              Sample.staff)
    as [Hrealm Hresource]; [reflexivity | reflexivity | reflexivity |].
  split; [|split].
  - apply Hrealm. exists {| roles := ["admin"] |}.
    split; [reflexivity | by apply list_elem_of_singleton].
  - apply (Hresource "editor" None).
    exists {[ "app" := {| roles := ["editor"] |} ]}, {| roles := ["editor"] |}.
    split; [reflexivity|].
    split; [vm_compute; reflexivity | by apply list_elem_of_singleton].
  - apply (Hresource "editor" (Some "toString")).
    exists {[ "app" := {| roles := ["editor"] |} ]}.
    split; [reflexivity|].
    split; [vm_compute; reflexivity | by do 9 constructor].
Defined.

Lemma isTokenExpired_stays_expired_witness :
  result_of (isTokenExpired Sample.clock (Some (of_Z 500)))
    (Sample.world_at 5)
  = Ok true.
Proof.
  apply (isTokenExpired_stays_expired Sample.clock (Sample.world_at 0)
           (Sample.world_at 5) (Some (of_Z 500))).
  - reflexivity.
  - vm_compute. discriminate.
  - vm_compute. reflexivity.
Defined.

Lemma refresh_success_commits_witness :
  let w' := exec (resume_refresh Sample.clock Sample.decodeToken
                    (Ok Sample.granted)) Sample.busy in
  token (this w') = Some "N1"
  /\ authenticated (this w') = Some true
  /\ settled (new_events Sample.busy w')
     = map (fun d => (d, Resolved true))
           (reverse (refreshQueue (this Sample.busy)))
  /\ refreshQueue (this w') = []
  /\ inflight w' = [].
Proof.
  destruct (refresh_success_commits Sample.clock Sample.decodeToken
              Sample.busy (of_Z 1700000100000) [] Sample.granted "N1"
              (Sample.claims "N1"))
    as (Htoken & _ & _ & _ & Hauth & _ & _ & Hsettled & Hqueue & Hinflight).
  - vm_compute. reflexivity.
  - reflexivity.
  - reflexivity.
  - reflexivity.
  - sample_decodes.
  - sample_decodes.
  - exact (conj Htoken (conj Hauth (conj Hsettled (conj Hqueue Hinflight)))).
Defined.

Lemma authSuccess_nonce_mismatch_clears_witness :
  let kc := Sample.waiting_client implicit in
  let oauth := parseCallback kc Sample.implicit_forged_callback_url in
  let m := authSuccess Sample.clock Sample.decodeToken oauth
             (of_Z 1700000100000) true in
  let w' := exec m (Sample.world_of kc) in
  result_of m (Sample.world_of kc) = Throw NonceMismatch
  /\ tokens_absent (this w')
  /\ authenticated (this w') = Some false
  /\ subject (this w') = None
  /\ realmAccess (this w') = None
  /\ resourceAccess (this w') = None
  /\ ~ In OnAuthSuccess (new_events (Sample.world_of kc) w')
  /\ (onAuthLogout kc = true ->
      In OnAuthLogout (new_events (Sample.world_of kc) w')).
Proof.
  apply (authSuccess_nonce_mismatch_clears Sample.clock Sample.decodeToken
           Sample.generatePkceChallenge
           (parseCallback (Sample.waiting_client implicit)
              Sample.implicit_forged_callback_url)
           (of_Z 1700000100000) true
           (Sample.world_of (Sample.waiting_client implicit)) "N2").
  - reflexivity.
  - vm_compute. reflexivity.
  - sample_storable.
  - vm_compute. reflexivity.
Defined.

Lemma authSuccess_accepts_only_the_stored_nonce_witness :
  let kc := Sample.waiting_client implicit in
  let oauth := parseCallback kc Sample.implicit_callback_url in
  let m := authSuccess Sample.clock Sample.decodeToken oauth
             (of_Z 1700000100000) true in
  let w' := exec m (Sample.world_of kc) in
  token (this w') = Some "N1"
  /\ (forall claims,
        tokenParsed (this w') = Some claims ->
        strict_eq (of_opt (TokenParsed.nonce claims)) (VStr "N1") = true)
  /\ In OnAuthSuccess (new_events (Sample.world_of kc) w').
Proof.
  destruct (authSuccess_accepts_only_the_stored_nonce Sample.clock
              Sample.decodeToken
              (parseCallback (Sample.waiting_client implicit)
                 Sample.implicit_callback_url)
              (of_Z 1700000100000) true
              (Sample.world_of (Sample.waiting_client implicit)))
    as (Htoken & _ & _ & Hnonce & Hsuccess).
  - vm_compute. reflexivity.
  - split; [exact Htoken|]. split.
    + intros claims Hclaims. apply (Hnonce eq_refl claims). by left.
    + apply Hsuccess. split; reflexivity.
Defined.

Lemma processCallback_error_response_witness :
  let kc := Sample.waiting_client standard in
  let oauth := parseCallback kc Sample.denied_callback_url in
  let m := processCallback Sample.clock Sample.decodeToken
             Sample.formatQuerystringParameters oauth Sample.network_down in
  this (exec m (Sample.world_of kc)) = kc
  /\ result_of m (Sample.world_of kc)
     = Throw (AuthorizationError VUndef)
  /\ new_events (Sample.world_of kc) (exec m (Sample.world_of kc))
     = [OnAuthError (inl (VStr "access_denied")) "auth error"].
Proof.
  exact (processCallback_error_response Sample.clock Sample.decodeToken
           Sample.formatQuerystringParameters
           (Sample.world_of (Sample.waiting_client standard))
           (parseCallback (Sample.waiting_client standard)
              Sample.denied_callback_url)
           Sample.network_down ltac:(vm_compute; reflexivity)).
Defined.

Lemma processCallback_exchange_success_witness :
  let kc := Sample.waiting_client standard in
  let oauth := parseCallback kc Sample.callback_url in
  let m := processCallback Sample.clock Sample.decodeToken
             Sample.formatQuerystringParameters oauth (Ok Sample.granted) in
  let w' := exec m (Sample.world_of kc) in
  result_of m (Sample.world_of kc) = Ok tt
  /\ token (this w') = Some "N1"
  /\ refreshToken (this w') = Some "N1"
  /\ authenticated (this w') = Some true
  /\ In OnAuthSuccess (new_events (Sample.world_of kc) w').
Proof.
  destruct (processCallback_exchange_success Sample.clock Sample.decodeToken
              Sample.formatQuerystringParameters Sample.generatePkceChallenge
              (Sample.world_of (Sample.waiting_client standard))
              (parseCallback (Sample.waiting_client standard)
                 Sample.callback_url)
              Sample.granted "N1" (Sample.claims "N1"))
    as (Hresult & Htoken & _ & Hrefresh & _ & Hauth & _ & Hsuccess & _).
  - vm_compute. reflexivity.
  - reflexivity.
  - reflexivity.
  - sample_decodes.
  - sample_decodes.
  - vm_compute. reflexivity.
  - exact (conj Hresult (conj Htoken (conj Hrefresh (conj Hauth
             (proj2 Hsuccess (conj eq_refl eq_refl)))))).
Defined.

Lemma processCallback_answer_without_tokens_witness :
  let kc := Sample.waiting_client standard in
  let oauth := parseCallback kc Sample.callback_url in
  let m := processCallback Sample.clock Sample.decodeToken
             Sample.formatQuerystringParameters oauth Sample.invalid_grant in
  let w' := exec m (Sample.world_of kc) in
  result_of m (Sample.world_of kc) = Ok tt
  /\ token_state (this w') = logged_out None
  /\ (In OnAuthSuccess (new_events (Sample.world_of kc) w')
      <-> flow kc = Some standard /\ onAuthSuccess kc = true)
  /\ (forall error description,
        ~ In (OnAuthError error description)
            (new_events (Sample.world_of kc) w')).
Proof.
  apply (processCallback_answer_without_tokens Sample.clock
           Sample.decodeToken Sample.formatQuerystringParameters
           Sample.generatePkceChallenge
           (Sample.world_of (Sample.waiting_client standard))
           (parseCallback (Sample.waiting_client standard)
              Sample.callback_url)
           {| TokenResponse.access_token := None;
              TokenResponse.refresh_token := None;
              TokenResponse.id_token := None;
              TokenResponse.error := Some "invalid_grant" |}).
  - vm_compute. reflexivity.
  - reflexivity.
  - reflexivity.
  - reflexivity.
Defined.

Lemma parseCallbackUrl_empty_or_complete_witness :
  let parsed := parseCallbackUrl (Sample.waiting_client standard)
                  Sample.callback_url in
  (exists newUrl, prop parsed "newUrl" = VStr newUrl)
  /\ truthy (prop parsed "state") = true
  /\ truthy (prop parsed "code") || truthy (prop parsed "error") = true
  /\ is_Some (JsString.indexOf "#" Sample.callback_url).
Proof.
  apply (parseCallbackUrl_empty_or_complete (Sample.waiting_client standard)
           Sample.callback_url).
  intros Hempty.
  apply (f_equal (fun parsed => prop parsed "state")) in Hempty.
  vm_compute in Hempty. discriminate.
Defined.

Lemma not_a_callback_is_ignored_witness :
  let w := Sample.world_of (Sample.waiting_client standard) in
  let oauth := parseCallback (this w) "https://app/" in
  let m := processCallback Sample.clock Sample.decodeToken
             Sample.formatQuerystringParameters oauth Sample.network_down in
  oauth = ∅
  /\ result_of m w = Ok tt
  /\ this (exec m w) = this w
  /\ new_events w (exec m w) = [].
Proof.
  apply (not_a_callback_is_ignored Sample.clock Sample.decodeToken
           Sample.formatQuerystringParameters
           (Sample.world_of (Sample.waiting_client standard))
           "https://app/" Sample.network_down).
  vm_compute. reflexivity.
Defined.

Lemma createLoginUrl_binds_pkce_witness :
  let w := Sample.world_of Sample.pkce_client in
  let m := createLoginUrl Sample.formatQuerystringParameters
             Sample.adapter_redirectUri Sample.generatePkceChallenge
             Sample.Number_toString None "S1" "N1" "V1" in
  let params := login_params Sample.adapter_redirectUri
                  Sample.generatePkceChallenge Sample.Number_toString
                  Sample.pkce_client None "S1" "N1" "V1" in
  (CallbackState.pkceCodeVerifier
     <$> callbackStorage (this (exec m w)) !! "S1") = Some (Some "V1")
  /\ JsMap.get "code_challenge" params = Some (VStr "challenge-of-V1")
  /\ JsMap.get "code_challenge_method" params = Some (VStr "S256").
Proof.
  destruct (createLoginUrl_binds_pkce Sample.formatQuerystringParameters
              Sample.adapter_redirectUri Sample.generatePkceChallenge
              Sample.Number_toString (Sample.world_of Sample.pkce_client)
              None "S1" "N1" "V1")
    as [Hstored Hparams].
  - apply not_elem_of_nil.
  - apply not_elem_of_nil.
  - split; [exact Hstored | apply Hparams; reflexivity].
Defined.


Lemma processInit_refreshes_stored_tokens_witness :
  let w := Sample.world_of (Sample.fresh_client standard) in
  let m := processInit Sample.clock Sample.decodeToken
             Sample.formatQuerystringParameters (Some Sample.stored) in
  let w' := exec m w in
  result_of m w = Ok (inr 0)
  /\ token (this w') = Some "T"
  /\ refreshToken (this w') = Some "R"
  /\ authenticated (this w') = Some true
  /\ refreshQueue (this w') = [0]
  /\ settled (new_events w w') = []
  /\ dispatches (new_events w w') = 1.
Proof.
  destruct (processInit_refreshes_stored_tokens Sample.clock
              Sample.decodeToken Sample.formatQuerystringParameters
              (Sample.world_of (Sample.fresh_client standard)) Sample.stored)
    as (Hresult & Htoken & Hrefresh & Hauth & Hqueue & Hsettled & Hone & _).
  - reflexivity.
  - reflexivity.
  - sample_storable.
  - reflexivity.
  - exact (conj Hresult (conj Htoken (conj Hrefresh (conj Hauth
             (conj Hqueue (conj Hsettled Hone)))))).
Defined.

Lemma processInit_refresh_failure_witness :
  let w := Sample.world_of (Sample.fresh_client standard) in
  let m := processInit_to_end Sample.clock Sample.decodeToken
             Sample.formatQuerystringParameters (Some Sample.stored)
             Sample.network_down in
  let w' := exec m w in
  result_of m w = Ok (Some Fulfilled)
  /\ In (OnAuthError (inl (VBool true))
           "Failed to refresh token during init") (new_events w w')
  /\ ~ In OnAuthSuccess (new_events w w')
  /\ token (this w') = Some "T"
  /\ authenticated (this w') = Some true.
Proof.
  destruct (processInit_refresh_failure Sample.clock Sample.decodeToken
              Sample.formatQuerystringParameters Sample.generatePkceChallenge
              (Sample.world_of (Sample.fresh_client standard)) Sample.stored
              Sample.network_down)
    as (Hresult & Herror & Hsuccess & Htoken & Hauth).
  - reflexivity.
  - reflexivity.
  - sample_storable.
  - reflexivity.
  - reflexivity.
  - exact I.
  - exact (conj Hresult (conj (Herror eq_refl) (conj Hsuccess
             (conj Htoken Hauth)))).
Defined.

Lemma processInit_refresh_success_witness :
  let w := Sample.world_of (Sample.fresh_client standard) in
  let m := processInit_to_end Sample.clock Sample.decodeToken
             Sample.formatQuerystringParameters (Some Sample.stored)
             (Ok Sample.granted) in
  let w' := exec m w in
  result_of m w = Ok (Some Fulfilled)
  /\ token (this w') = Some "N1"
  /\ refreshToken (this w') = Some "N1"
  /\ authenticated (this w') = Some true
  /\ In OnAuthSuccess (new_events w w').
Proof.
  destruct (processInit_refresh_success Sample.clock Sample.decodeToken
              Sample.formatQuerystringParameters Sample.generatePkceChallenge
              (Sample.world_of (Sample.fresh_client standard)) Sample.stored
              Sample.granted "N1" (Sample.claims "N1"))
    as (Hresult & Htoken & _ & Hrefresh & Hauth & Hsuccess & _).
  - reflexivity.
  - reflexivity.
  - sample_storable.
  - reflexivity.
  - reflexivity.
  - reflexivity.
  - reflexivity.
  - reflexivity.
  - sample_decodes.
  - sample_decodes.
  - exact (conj Hresult (conj Htoken (conj Hrefresh (conj Hauth
             (proj2 Hsuccess eq_refl))))).
Defined.

Lemma processInit_without_stored_tokens_witness :
  let w := Sample.world_of (Sample.fresh_client standard) in
  let m := processInit Sample.clock Sample.decodeToken
             Sample.formatQuerystringParameters
             (Some Sample.login_required) in
  result_of m w = Ok (inl Fulfilled)
  /\ this (exec m w) = this w
  /\ new_events w (exec m w) = [AdapterLogin].
Proof.
  destruct (processInit_without_stored_tokens Sample.clock
              Sample.decodeToken Sample.formatQuerystringParameters
              (Sample.world_of (Sample.fresh_client standard))
              Sample.login_required)
    as (Hresult & Hthis & Hevents & _).
  - reflexivity.
  - exact (conj Hresult (conj Hthis Hevents)).
Defined.

Lemma init_rejects_invalid_options_witness :
  let run := init_configure Sample.login_required ∅ Sample.constructed
               Sample.no_settings in
  fst (fst run) = None /\ authenticated (snd (fst run)) = Some false.
Proof.
  intros run.
  destruct (init_rejects_invalid_options Sample.login_required ∅
              Sample.constructed (snd (fst run)) Sample.no_settings
              (snd run) (fst (fst run)))
    as (Hended & _ & Hauth & _); [vm_compute; reflexivity|].
  split; [|exact Hauth].
  apply Hended. split; [reflexivity|].
  unfold absent_or_in. simpl.
  split; [by constructor|]. split; [by do 3 constructor | by constructor].
Defined.

Lemma init_configures_flow_witness :
  let run := init_configure Sample.login_required ∅ Sample.constructed
               Sample.no_settings in
  flow (snd (fst run)) = Some hybrid
  /\ responseType (snd (fst run)) = Some "code id_token token"
  /\ responseMode (snd (fst run)) = Some query
  /\ callbackStorage (snd (fst run)) = ∅
  /\ ClientSettings.enableLogging (snd run) = Some false.
Proof.
  intros run.
  exact (init_configures_flow Sample.login_required ∅ Sample.constructed
           (snd (fst run)) Sample.no_settings (snd run) I
           ltac:(vm_compute; reflexivity)).
Defined.



Lemma single_flight_refresh_witness :
  dispatches (new_events Sample.world Sample.busy) = 1
  /\ settled (new_events Sample.busy
                (exec (resume_refresh Sample.clock Sample.decodeToken
                         (Ok Sample.granted)) Sample.busy))
     = [(1, Resolved true); (0, Resolved true)].
Proof.
  destruct (single_flight_refresh Sample.clock Sample.decodeToken
              Sample.formatQuerystringParameters Sample.world
              [Some (of_Z (-1)); Some (of_Z (-1))] (Ok Sample.granted))
    as (_ & Hone & _ & _ & _ & (o & _ & _ & Hyes & _ & Hsettled) & _).
  - split; [apply NoDup_nil_2|]. split; [apply Forall_nil_2|].
    left. split; reflexivity.
  - split; [apply Hone; [reflexivity | vm_compute; discriminate]|].
    rewrite Hyes in Hsettled; [exact Hsettled|].
    split; [reflexivity|]. sample_storable.
Defined.
